(** * Image-archive import (image/tarexport/load.go): a shallow embedding

    The development follows load.go function by function.  The collaborators
    the loader reaches only through interfaces (image store, layer store,
    reference store, the staged directory, the codecs) are a type class of
    operations; the loader itself is written in a small state-and-error monad
    over a [World] that carries the stores, the output stream, the stack of
    deferred calls and a trace of the calls made to the outside. *)

From Stdlib Require Import ZArith.
From stdpp Require Import base option list strings gmap.

Local Open Scope string_scope.
Local Open Scope list_scope.
Local Open Scope nat_scope.

(** ** Data model *)

Definition Bytes := string.
Definition ID := string.          (* image.ID; the empty string is "no id" *)
Definition DiffID := string.      (* layer.DiffID *)
Definition ChainID := string.     (* layer.ChainID *)
Definition Platform := string.    (* ocispec.Platform, in its os/arch form *)

(** time.Time: an instant together with presentation data.  [Equal] compares
    the instants only, reflect.DeepEqual compares everything. *)
Record Time := { unixNano : Z; zone : string }.

Definition Time_Equal (t u : Time) : bool := bool_decide (unixNano t = unixNano u).

(** Modelled from the spec: the declaration of image.History is outside the
    files at hand; the fields are those of the data model (creation time,
    optional comment, empty-layer flag). *)
Record History := { Created : option Time; Comment : string; EmptyLayer : bool }.

#[global] Instance Time_eq_dec : EqDecision Time.
Proof. solve_decision. Defined.

#[global] Instance History_eq_dec : EqDecision History.
Proof. solve_decision. Defined.

Record RootFS := { rfType : string; DiffIDs : list DiffID }.

(** RootFS.Append *)
Definition Append (r : RootFS) (d : DiffID) : RootFS :=
  {| rfType := rfType r; DiffIDs := DiffIDs r ++ [d] |}.

(** image.NewRootFS *)
Definition NewRootFS : RootFS := {| rfType := "layers"; DiffIDs := [] |}.

(** The part of image.Image the loader reads: the results of
    [OperatingSystem()], [Platform()] and [ID()], and the fields [RootFS] and
    [History]. *)
Record Image := {
  imgID : ID;
  OperatingSystem : string;
  imgPlatform : Platform;
  imgRootFS : RootFS;
  imgHistory : list History
}.

(** distribution.Descriptor *)
Record Descriptor := { MediaType : string; Size : Z; Digest : string; URLs : list string }.

Definition emptyDescriptor : Descriptor :=
  {| MediaType := ""; Size := 0; Digest := ""; URLs := [] |}.

(** Modelled from the spec: manifestItem is declared in a file that is not at
    hand; the fields are those load.go reads (Config, RepoTags, Layers,
    Parent, LayerSources). *)
Record manifestItem := {
  Config : string;
  RepoTags : list string;
  Layers : list string;
  Parent : ID;
  LayerSources : gmap DiffID Descriptor
}.

(** type parentLink struct { id, parentID image.ID } *)
Record parentLink := { linkID : ID; parentID : ID }.

(** reference.Named: a repository name, with a tag when the value also
    implements reference.NamedTagged. *)
Record Named := { refName : string; refTag : option string }.

#[global] Instance Named_eq_dec : EqDecision Named.
Proof. solve_decision. Defined.

(** os.DirEntry *)
Record DirEntry := { deName : string; IsDir : bool }.

(** The anonymous struct legacyLoadImage unmarshals the legacy json into. *)
Record legacyImg := { legacyOS : string; legacyParent : string }.

(** Errors.  The source builds them with errors.New and fmt.Errorf; each
    constructor carries the arguments of the format string. *)
Inductive Error :=
| Canceled                                   (* ctx.Err() *)
| External (what : string)                   (* an error of a collaborator, passed on *)
| InvalidManifest                            (* "invalid manifest, manifest cannot be null (but can be [])" *)
| UnsupportedPlatform (os goos : string)     (* "cannot load %s image on %s" *)
| LayerCountMismatch (expected actual : nat) (* "invalid manifest, layers length mismatch: ..." *)
| DiffIDMismatch (i : nat) (expected actual : DiffID) (* "invalid diffID for layer %d: ..." *)
| InvalidTag (repoTag : string)              (* "invalid tag %q" *)
| InvalidParent (parent child : ID)          (* "image %v is not a valid parent for %v" *)
| UnsupportedLegacyFormat                    (* "Windows does not support legacy loading of images" *)
| InvalidTargetID (oldID : string)           (* "invalid target ID: %v" *)
| IndexOutOfRange.                           (* run-time panic of an indexing expression *)

#[global] Instance Error_eq_dec : EqDecision Error.
Proof. solve_decision. Defined.

Definition Res (A : Type) : Type := Error + A.

(** Result of os.Open as Load distinguishes it. *)
Inductive OpenResult :=
| Opened (content : Bytes)
| NotExist
| OpenFailed (e : Error).

(** What arrives on the caller's stream.  Load wraps the stream twice: in
    the stdout writer that [outStream] names from then on (a [Line] is one
    write of text through it) and, unless [quiet], in the progress output
    handed down to loadLayer (a [Progress] is one report through it, with
    the fields ID, Action, Current and Total of progress.Progress). *)
Inductive OutMsg :=
| Line (text : string)
| Progress (id action : string) (current total : Z).

#[global] Instance OutMsg_eq_dec : EqDecision OutMsg.
Proof. solve_decision. Defined.

Definition manifestFileName : string := "manifest.json".
Definition legacyLayerFileName : string := "layer.tar".
Definition legacyConfigFileName : string := "json".
Definition legacyRepositoriesFileName : string := "repositories".

(** filepath.Join on two clean components. *)
Definition filepath_Join (a b : string) : string := a +:+ "/" +:+ b.

(** ** checkValidParent *)

(** The loop [for i, hP := range parent.History]; [None] is the run-time
    panic of [img.History[i]] out of range. *)
Fixpoint checkHistoryPrefix (i : nat) (parentH imgH : list History) : option bool :=
  match parentH with
  | [] => Some true
  | hP :: rest =>
      match imgH !! i with
      | None => None
      | Some hC =>
          if negb (eqb (bool_decide (Created hP = None)) (bool_decide (Created hC = None)))
          then Some false
          else if match Created hP, Created hC with
                  | Some tP, Some tC => negb (Time_Equal tP tC)
                  | _, _ => false
                  end
          then Some false
          else
            let hC' := {| Created := Created hP; Comment := Comment hC;
                          EmptyLayer := EmptyLayer hC |} in
            if negb (bool_decide (hP = hC')) then Some false
            else checkHistoryPrefix (S i) rest imgH
      end
  end.

Definition checkValidParent (img parent : Image) : option bool :=
  if bool_decide (length (imgHistory img) = 0) && bool_decide (length (imgHistory parent) = 0)
  then Some true
  else if negb (bool_decide
                  (Z.of_nat (length (imgHistory img)) - Z.of_nat (length (imgHistory parent)) = 1)%Z)
  then Some false
  else checkHistoryPrefix 0 (imgHistory parent) (imgHistory img).

(** The invariant of the data model, in the words of the specification: the
    child's History is the parent's History with zero or one appended entries,
    pairwise equal on every field except Created, which is absent in both or
    present in both. *)
Definition sameButCreated (hC hP : History) : bool :=
  bool_decide (Comment hC = Comment hP) && bool_decide (EmptyLayer hC = EmptyLayer hP)
  && eqb (bool_decide (Created hC = None)) (bool_decide (Created hP = None)).

Fixpoint extendsHistory (childH parentH : list History) : bool :=
  match parentH, childH with
  | [], extra => bool_decide (length extra ≤ 1)%nat
  | hP :: ps, hC :: cs => sameButCreated hC hP && extendsHistory cs ps
  | _ :: _, [] => false
  end.

(** ** validatedParentLinks *)

(** The inner loop: some p2 of pl has [p2.id == p.parentID && p2.id != p.id]. *)
Definition parentInBatch (pl : list parentLink) (p : parentLink) : bool :=
  existsb (λ p2, bool_decide (linkID p2 = parentID p) && negb (bool_decide (linkID p2 = linkID p))) pl.

Definition clearParent (p : parentLink) : parentLink :=
  {| linkID := linkID p; parentID := "" |}.

(** The main loop, at index [i] with [ret] built so far.  [ret[i].parentID = ""]
    updates the element just appended. *)
Fixpoint validatedLoop (pl : list parentLink) (i : nat) (todo ret : list parentLink)
  : list parentLink :=
  match todo with
  | [] => ret
  | p :: rest =>
      let ret1 := ret ++ [p] in
      if parentInBatch pl p then validatedLoop pl (S i) rest ret1
      else validatedLoop pl (S i) rest (alter clearParent i ret1)
  end.

Definition validatedParentLinks (pl : list parentLink) : list parentLink :=
  validatedLoop pl 0 pl [].

(** ** validateManifest: a Go slice is [None] when nil. *)
Definition validateManifest (manifest : option (list manifestItem)) : option Error :=
  match manifest with
  | None => Some InvalidManifest
  | Some _ => None
  end.

(** ** Collaborators

    Everything load.go calls but does not define.  The staged directory does
    not change between the extraction and the deferred RemoveAll, so its
    reads are functions of the path.  The stores are state machines of an
    unspecified state type.  The decoders are functions of the bytes;
    [decodeRepositories] yields the entries of the two nested Go maps in the
    order the range statements visit them.  The progress reader reports as
    it is read: the values of Current it reports while DecompressStream
    reads the head of the file, and then while the layer store reads the
    rest, are functions of the content and the size of the file. *)
Class Collab := {
  (* host *)
  GOOS : string;                                   (* runtime.GOOS *)
  CheckOS : string → bool;                         (* image.CheckOS(os) == nil *)
  ctxDone : nat → bool;                            (* ctx.Done() ready at the n-th poll *)
  platformMatcher : option (Platform → bool);      (* l.platformMatcher, None when nil *)
  (* staged directory *)
  MkdirTemp : Res string;
  Untar : string → option Error;                   (* chrootarchive.Untar of inTar *)
  FollowSymlinkInScope : string → string → Res string;
  Open : string → OpenResult;
  ReadFile : string → Res Bytes;
  ReadDir : string → Res (list DirEntry);
  Stat : string → Res Z;
  DecompressStream : Bytes → Res Bytes;
  (* progress reader *)
  TruncateID : string → string;                    (* stringid.TruncateID *)
  progressDecompress : Bytes → Z → list Z;         (* Current, while the file is decompressed *)
  progressRegister : Bytes → Z → list Z;           (* Current, while the layer is registered *)
  (* codecs *)
  decodeManifest : Bytes → Res (option (list manifestItem));
  NewFromJSON : Bytes → Res Image;
  unmarshalLegacy : Bytes → Res legacyImg;
  decodeRepositories : Bytes → Res (list (string * list (string * string)));
  HistoryFromConfig : Bytes → Res History;
  MakeConfigFromV1Config : Bytes → RootFS → list History → Res Bytes;
  RootFS_ChainID : RootFS → ChainID;
  ParseNormalizedNamed : string → Res Named;
  WithTag : Named → string → Res Named;
  FamiliarString : Named → string;
  (* image store *)
  ImageStore : Type;
  is_Create : ImageStore → Bytes → Res ID * ImageStore;
  is_Get : ImageStore → ID → Res Image;
  is_SetParent : ImageStore → ID → ID → option Error * ImageStore;
  (* layer store *)
  LayerStore : Type;
  Layer : Type;
  layer_DiffID : Layer → DiffID;
  lss_Get : LayerStore → ChainID → Res Layer * LayerStore;
  lss_Register : LayerStore → Bytes → ChainID → Res Layer * LayerStore;
  lss_Describable : bool;                          (* l.lss.(layer.DescribableStore) succeeds *)
  lss_RegisterWithDescriptor : LayerStore → Bytes → ChainID → Descriptor → Res Layer * LayerStore;
  lss_Release : LayerStore → Layer → option Error * LayerStore;
  (* reference store *)
  RefStore : Type;
  rs_Get : RefStore → Named → Res ID;
  rs_AddTag : RefStore → Named → ID → bool → option Error * RefStore
}.

(** Calls that leave load.go, in the order they are made. *)
Inductive Event :=
| EvMkdirTemp
| EvUntar (dir : string)
| EvRemoveAll (dir : string)
| EvOpen (path : string)
| EvReadFile (path : string)
| EvReadDir (path : string)
| EvStat (path : string)
| EvDecompress (path : string)
| EvLayerGet (chain : ChainID)
| EvRegister (path : string) (parent : ChainID) (src : option Descriptor)
| EvRelease (diffID : DiffID)
| EvCreate (config : Bytes)
| EvImageGet (id : ID)
| EvSetParent (id parent : ID)
| EvRefGet (ref : Named)
| EvAddTag (ref : Named) (id : ID) (force : bool)
| EvLogImageEvent (id : ID).

#[global] Instance Descriptor_eq_dec : EqDecision Descriptor.
Proof. solve_decision. Defined.

#[global] Instance Event_eq_dec : EqDecision Event.
Proof. solve_decision. Defined.

(** A call registered with [defer]. *)
Inductive Deferred `{Collab} :=
| DeferRemoveAll (dir : string)
| DeferRelease (l : Layer).

(** The state the loader works on. *)
Record World `{Collab} := {
  w_is : ImageStore;
  w_lss : LayerStore;
  w_rs : RefStore;
  w_out : list OutMsg;          (* what the caller's stream has received, oldest first *)
  w_trace : list Event;         (* oldest first *)
  w_polls : nat;                (* polls of ctx.Done() so far *)
  w_deferred : list Deferred    (* defer stack of the running Load, newest first *)
}.

Section Loader.
Context `{C : Collab}.

Definition M (A : Type) : Type := World → Res A * World.

Definition ret {A} (a : A) : M A := λ w, (inr a, w).
Definition fail {A} (e : Error) : M A := λ w, (inl e, w).
Definition lift {A} (r : Res A) : M A := λ w, (r, w).
Definition bind {A B} (c : M A) (k : A → M B) : M B :=
  λ w, match c w with
       | (inl e, w') => (inl e, w')
       | (inr a, w') => k a w'
       end.

Notation "x <~ c ;; k" := (bind c (λ x, k))
  (at level 100, c at next level, right associativity).
Notation "c ;;; k" := (bind c (λ _, k))
  (at level 100, right associativity).

Definition set_is (s : ImageStore) (w : World) : World :=
  {| w_is := s; w_lss := w_lss w; w_rs := w_rs w; w_out := w_out w;
     w_trace := w_trace w; w_polls := w_polls w; w_deferred := w_deferred w |}.
Definition set_lss (s : LayerStore) (w : World) : World :=
  {| w_is := w_is w; w_lss := s; w_rs := w_rs w; w_out := w_out w;
     w_trace := w_trace w; w_polls := w_polls w; w_deferred := w_deferred w |}.
Definition set_rs (s : RefStore) (w : World) : World :=
  {| w_is := w_is w; w_lss := w_lss w; w_rs := s; w_out := w_out w;
     w_trace := w_trace w; w_polls := w_polls w; w_deferred := w_deferred w |}.
Definition set_out (o : list OutMsg) (w : World) : World :=
  {| w_is := w_is w; w_lss := w_lss w; w_rs := w_rs w; w_out := o;
     w_trace := w_trace w; w_polls := w_polls w; w_deferred := w_deferred w |}.
Definition set_trace (t : list Event) (w : World) : World :=
  {| w_is := w_is w; w_lss := w_lss w; w_rs := w_rs w; w_out := w_out w;
     w_trace := t; w_polls := w_polls w; w_deferred := w_deferred w |}.
Definition set_polls (n : nat) (w : World) : World :=
  {| w_is := w_is w; w_lss := w_lss w; w_rs := w_rs w; w_out := w_out w;
     w_trace := w_trace w; w_polls := n; w_deferred := w_deferred w |}.
Definition set_deferred (d : list Deferred) (w : World) : World :=
  {| w_is := w_is w; w_lss := w_lss w; w_rs := w_rs w; w_out := w_out w;
     w_trace := w_trace w; w_polls := w_polls w; w_deferred := d |}.

Definition emit (e : Event) : M unit := λ w, (inr tt, set_trace (w_trace w ++ [e]) w).
Definition write (s : string) : M unit := λ w, (inr tt, set_out (w_out w ++ [Line s]) w).
Definition defer (d : Deferred) : M unit := λ w, (inr tt, set_deferred (d :: w_deferred w) w).

(** [select { case <-ctx.Done(): return ctx.Err(); default: }] *)
Definition pollCtx : M unit :=
  λ w, let w' := set_polls (S (w_polls w)) w in
       if ctxDone (w_polls w) then (inl Canceled, w') else (inr tt, w').

(** func safePath(base, path string) (string, error) *)
Definition safePath (base path : string) : M string :=
  lift (FollowSymlinkInScope (filepath_Join base path) base).

Definition readFile (path : string) : M Bytes :=
  emit (EvReadFile path);;; lift (ReadFile path).

(** Calls on the stores. *)
Definition imageCreate (config : Bytes) : M ID :=
  emit (EvCreate config);;;
  λ w, let '(r, s) := is_Create (w_is w) config in (r, set_is s w).

Definition imageGet (id : ID) : M Image :=
  emit (EvImageGet id);;; λ w, (is_Get (w_is w) id, w).

Definition imageSetParent (id parent : ID) : M unit :=
  emit (EvSetParent id parent);;;
  λ w, let '(r, s) := is_SetParent (w_is w) id parent in
       (match r with Some e => inl e | None => inr tt end, set_is s w).

(** [l.lss.Get]: the result is returned as a value, Load decides on it. *)
Definition layerGet (chain : ChainID) : M (Res Layer) :=
  emit (EvLayerGet chain);;;
  λ w, let '(r, s) := lss_Get (w_lss w) chain in (inr r, set_lss s w).

Definition layerRelease (l : Layer) : M (option Error) :=
  emit (EvRelease (layer_DiffID l));;;
  λ w, let '(r, s) := lss_Release (w_lss w) l in (inr r, set_lss s w).

Definition refGet (ref : Named) : M (Res ID) :=
  emit (EvRefGet ref);;; λ w, (inr (rs_Get (w_rs w) ref), w).

Definition refAddTag (ref : Named) (id : ID) (force : bool) : M (option Error) :=
  emit (EvAddTag ref id force);;;
  λ w, let '(r, s) := rs_AddTag (w_rs w) ref id force in (inr r, set_rs s w).

Definition nl : string := String (Ascii.ascii_of_nat 10) EmptyString.

(** ** loadLayer *)

(** The reader [r] that is decompressed and registered: [rawTar] itself, or
    the progress reader around it, which is made for the size of the file,
    the truncated id and the action "Loading layer". *)
Inductive LayerReader :=
| RawReader
| ProgressReader (size : Z) (id action : string).

(** The reports [r] makes on the progress output while it is read, for the
    values of Current it comes to; rawTar itself reports nothing. *)
Definition readThrough (r : LayerReader) (currents : Z → list Z) : M unit :=
  match r with
  | RawReader => ret tt
  | ProgressReader size id action =>
      λ w, (inr tt, set_out (w_out w ++ ((λ c, Progress id action c size) <$> currents size)) w)
  end.

(** [progress] is [progressOutput != nil].  The file is opened, measured and
    wrapped in the progress reader when progress is reported, decompressed
    and handed to the layer store with the chain id of the [rootFS]
    argument. *)
Definition loadLayer (filename : string) (rootFS : RootFS) (id : string)
    (foreignSrc : Descriptor) (progress : bool) : M Layer :=
  emit (EvOpen filename);;;
  rawTar <~ (match Open filename with
             | Opened b => ret b
             | NotExist => fail (External "open: file does not exist")
             | OpenFailed e => fail e
             end);;
  r <~ (if progress
        then emit (EvStat filename);;;
             fileInfo_Size <~ lift (Stat filename);;
             ret (ProgressReader fileInfo_Size (TruncateID id) "Loading layer")
        else ret RawReader);;
  emit (EvDecompress filename);;;
  readThrough r (progressDecompress rawTar);;;
  inflatedLayerData <~ lift (DecompressStream rawTar);;
  if lss_Describable then
    emit (EvRegister filename (RootFS_ChainID rootFS) (Some foreignSrc));;;
    readThrough r (progressRegister rawTar);;;
    λ w, let '(r, s) := lss_RegisterWithDescriptor (w_lss w) inflatedLayerData
                          (RootFS_ChainID rootFS) foreignSrc in (r, set_lss s w)
  else
    emit (EvRegister filename (RootFS_ChainID rootFS) None);;;
    readThrough r (progressRegister rawTar);;;
    λ w, let '(r, s) := lss_Register (w_lss w) inflatedLayerData (RootFS_ChainID rootFS) in
         (r, set_lss s w).

(** ** setLoadedTag *)
Definition supersededNotice (ref : Named) (prevID : ID) : string :=
  "The image " +:+ FamiliarString ref +:+ " already exists, renaming the old one with ID "
  +:+ prevID +:+ " to empty string" +:+ nl.

Definition setLoadedTag (ref : Named) (imgID : ID) : M (option Error) :=
  g <~ refGet ref;;
  (match g with
   | inr prevID => if bool_decide (prevID ≠ imgID) then write (supersededNotice ref prevID)
                   else ret tt
   | inl _ => ret tt
   end);;;
  refAddTag ref imgID true.

(** ** setParentID *)
Definition setParentID (id parent_ID : ID) : M unit :=
  img <~ imageGet id;;
  parent <~ imageGet parent_ID;;
  match checkValidParent img parent with
  | None => fail IndexOutOfRange
  | Some false => fail (InvalidParent (imgID parent) (imgID img))
  | Some true => imageSetParent id parent_ID
  end.

(** ** Load, current format *)

(** One iteration of [for i, diffID := range img.RootFS.DiffIDs]; the result
    is the running rootFS after [rootFS.Append(diffID)]. *)
Definition resolveLayer (tmpDir : string) (m : manifestItem) (progress : bool)
    (i : nat) (diffID : DiffID) (rootFS : RootFS) : M RootFS :=
  pollCtx;;;
  layerPath <~ (match Layers m !! i with
                | Some p => safePath tmpDir p
                | None => fail IndexOutOfRange
                end);;
  let r := Append rootFS diffID in
  g <~ layerGet (RootFS_ChainID r);;
  newLayer <~ (match g with
               | inr l => ret l
               | inl _ => loadLayer layerPath rootFS diffID
                            (default emptyDescriptor (LayerSources m !! diffID)) progress
               end);;
  defer (DeferRelease newLayer);;;
  if bool_decide (diffID ≠ layer_DiffID newLayer)
  then fail (DiffIDMismatch i diffID (layer_DiffID newLayer))
  else ret (Append rootFS diffID).

Fixpoint resolveLayers (tmpDir : string) (m : manifestItem) (progress : bool)
    (i : nat) (todo : list DiffID) (rootFS : RootFS) : M RootFS :=
  match todo with
  | [] => ret rootFS
  | diffID :: rest =>
      rootFS' <~ resolveLayer tmpDir m progress i diffID rootFS;;
      resolveLayers tmpDir m progress (S i) rest rootFS'
  end.

Definition loadedImageLine (ref : Named) : string :=
  "Loaded image: " +:+ FamiliarString ref +:+ nl.

Definition loadedImageIDLine (imgID : ID) : string :=
  "Loaded image ID: " +:+ imgID +:+ nl.

(** One iteration of [for _, repoTag := range m.RepoTags].  The error of
    setLoadedTag is dropped, as in the source. *)
Definition tagImage (imgID : ID) (repoTag : string) : M unit :=
  named <~ lift (ParseNormalizedNamed repoTag);;
  match refTag named with
  | None => fail (InvalidTag repoTag)
  | Some _ =>
      _ <~ setLoadedTag named imgID;;
      write (loadedImageLine named)
  end.

(** The loop over the repo tags, counting in imageRefCount. *)
Fixpoint tagLoop (imgID : ID) (tags : list string) (imageRefCount : nat) : M nat :=
  match tags with
  | [] => ret imageRefCount
  | repoTag :: rest =>
      tagImage imgID repoTag;;;
      tagLoop imgID rest (S imageRefCount)
  end.

(** The variables Load declares before the loop over the manifest. *)
Record LoopVars := {
  parentLinks : list parentLink;
  imageIDsStr : string;
  imageRefCount : nat
}.

Definition initVars : LoopVars :=
  {| parentLinks := []; imageIDsStr := ""; imageRefCount := 0 |}.

(** One iteration of [for _, m := range manifest]. *)
Definition loadEntry (tmpDir : string) (progress : bool) (m : manifestItem)
    (v : LoopVars) : M LoopVars :=
  pollCtx;;;
  configPath <~ safePath tmpDir (Config m);;
  config <~ readFile configPath;;
  img <~ lift (NewFromJSON config);;
  if negb (CheckOS (OperatingSystem img))
  then fail (UnsupportedPlatform (OperatingSystem img) GOOS)
  else if match platformMatcher with
          | Some matches => negb (matches (imgPlatform img))
          | None => false
          end
  then ret v                                         (* continue *)
  else
    let rootFS := {| rfType := rfType (imgRootFS img); DiffIDs := [] |} in
    if bool_decide (length (Layers m) ≠ length (DiffIDs (imgRootFS img)))
    then fail (LayerCountMismatch (length (Layers m)) (length (DiffIDs (imgRootFS img))))
    else
      _ <~ resolveLayers tmpDir m progress 0 (DiffIDs (imgRootFS img)) rootFS;;
      imgID <~ imageCreate config;;
      let idsStr := imageIDsStr v +:+ loadedImageIDLine imgID in
      count <~ tagLoop imgID (RepoTags m) 0;;
      let links := parentLinks v ++ [{| linkID := imgID; parentID := Parent m |}] in
      emit (EvLogImageEvent imgID);;;
      ret {| parentLinks := links; imageIDsStr := idsStr; imageRefCount := count |}.

Fixpoint loadEntries (tmpDir : string) (progress : bool) (manifest : list manifestItem)
    (v : LoopVars) : M LoopVars :=
  match manifest with
  | [] => ret v
  | m :: rest =>
      v' <~ loadEntry tmpDir progress m v;;
      loadEntries tmpDir progress rest v'
  end.

(** [for _, p := range validatedParentLinks(parentLinks)] *)
Fixpoint commitParents (links : list parentLink) : M unit :=
  match links with
  | [] => ret tt
  | p :: rest =>
      (if bool_decide (parentID p ≠ "") then setParentID (linkID p) (parentID p) else ret tt);;;
      commitParents rest
  end.

(** Load from the decoding of the manifest to its [return nil]. *)
Definition loadManifest (tmpDir : string) (progress : bool) (content : Bytes) : M unit :=
  manifest <~ lift (decodeManifest content);;
  (match validateManifest manifest with
   | Some e => fail e
   | None => ret tt
   end);;;
  v <~ loadEntries tmpDir progress (default [] manifest) initVars;;
  commitParents (validatedParentLinks (parentLinks v));;;
  if bool_decide (imageRefCount v = 0) then write (imageIDsStr v) else ret tt.

(** ** Load, legacy format *)

(** legacyLoadImage from its first safePath to the CheckOS test. *)
Definition legacyReadConfig (oldID sourceDir : string) : M (Bytes * legacyImg) :=
  configPath <~ safePath sourceDir (filepath_Join oldID legacyConfigFileName);;
  imageJSON <~ readFile configPath;;
  img <~ lift (unmarshalLegacy imageJSON);;
  let os := if bool_decide (legacyOS img = "") then GOOS else legacyOS img in
  if negb (CheckOS os) then fail (UnsupportedPlatform os GOOS)
  else ret (imageJSON, {| legacyOS := os; legacyParent := legacyParent img |}).

(** legacyLoadImage from [rootFS := image.NewRootFS()] up to the entry in
    the load map; the result is the id of the image created. *)
Definition legacyCreate (oldID sourceDir : string) (imageJSON : Bytes) (parent_ID : ID)
    (progress : bool) : M ID :=
  inherited <~ (if bool_decide (parent_ID ≠ "")
                then parentImg <~ imageGet parent_ID;;
                     ret (imgRootFS parentImg, imgHistory parentImg)
                else ret (NewRootFS, []));;
  let '(rootFS, history) := inherited in
  layerPath <~ safePath sourceDir (filepath_Join oldID legacyLayerFileName);;
  newLayer <~ loadLayer layerPath rootFS oldID emptyDescriptor progress;;
  let rootFS := Append rootFS (layer_DiffID newLayer) in
  h <~ lift (HistoryFromConfig imageJSON);;
  let history := history ++ [h] in
  config <~ lift (MakeConfigFromV1Config imageJSON rootFS history);;
  imgID <~ imageCreate config;;
  released <~ layerRelease newLayer;;
  (match released with
   | Some e => fail e
   | None => ret tt
   end);;;
  (if bool_decide (parent_ID ≠ "") then imageSetParent imgID parent_ID else ret tt);;;
  ret imgID.

(** legacyLoadImage and its [for { ... }] loop on the parent.  The recursion
    of the source is not bounded by anything the source computes, so the
    functions take a bound on the number of nested calls and loop turns;
    [None] is "not finished within the bound".  The load map is threaded
    through and returned. *)
Fixpoint legacyLoadImage (fuel : nat) (oldID sourceDir : string) (progress : bool)
    (loadedMap : gmap string ID) (w : World) {struct fuel}
  : option (option Error * gmap string ID * World) :=
  match fuel with
  | O => None
  | S fuel' =>
      match loadedMap !! oldID with
      | Some _ => Some (None, loadedMap, w)
      | None =>
          match legacyReadConfig oldID sourceDir w with
          | (inl e, w1) => Some (Some e, loadedMap, w1)
          | (inr (imageJSON, img), w1) =>
              let finish (parent_ID : ID) (lm : gmap string ID) (w2 : World) :=
                match legacyCreate oldID sourceDir imageJSON parent_ID progress w2 with
                | (inl e, w3) => (Some e, lm, w3)
                | (inr imgID, w3) => (None, <[oldID := imgID]> lm, w3)
                end in
              if bool_decide (legacyParent img ≠ "") then
                match legacyParentLoop fuel' (legacyParent img) sourceDir progress loadedMap w1 with
                | None => None
                | Some (inl e, lm, w2) => Some (Some e, lm, w2)
                | Some (inr parent_ID, lm, w2) => Some (finish parent_ID lm w2)
                end
              else Some (finish "" loadedMap w1)
          end
      end
  end
with legacyParentLoop (fuel : nat) (parent sourceDir : string) (progress : bool)
    (loadedMap : gmap string ID) (w : World) {struct fuel}
  : option (Res ID * gmap string ID * World) :=
  match fuel with
  | O => None
  | S fuel' =>
      match loadedMap !! parent with
      | Some parent_ID => Some (inr parent_ID, loadedMap, w)          (* break *)
      | None =>
          match legacyLoadImage fuel' parent sourceDir progress loadedMap w with
          | None => None
          | Some (Some e, lm, w1) => Some (inl e, lm, w1)
          | Some (None, lm, w1) => legacyParentLoop fuel' parent sourceDir progress lm w1
          end
      end
  end.

(** [for _, d := range dirs] of legacyLoad. *)
Fixpoint legacyLoadDirs (fuel : nat) (dirs : list DirEntry) (tmpDir : string) (progress : bool)
    (loadedMap : gmap string ID) (w : World)
  : option (option Error * gmap string ID * World) :=
  match dirs with
  | [] => Some (None, loadedMap, w)
  | d :: rest =>
      if IsDir d then
        match legacyLoadImage fuel (deName d) tmpDir progress loadedMap w with
        | None => None
        | Some (Some e, lm, w1) => Some (Some e, lm, w1)
        | Some (None, lm, w1) => legacyLoadDirs fuel rest tmpDir progress lm w1
        end
      else legacyLoadDirs fuel rest tmpDir progress loadedMap w
  end.

(** [for tag, oldID := range tagMap] *)
Fixpoint legacyTagLoop (loadedMap : gmap string ID) (name : string)
    (tagMap : list (string * string)) : M unit :=
  match tagMap with
  | [] => ret tt
  | (tag, oldID) :: rest =>
      imgID <~ (match loadedMap !! oldID with
                | Some i => ret i
                | None => fail (InvalidTargetID oldID)
                end);;
      named <~ lift (ParseNormalizedNamed name);;
      ref <~ lift (WithTag named tag);;
      _ <~ setLoadedTag ref imgID;;
      legacyTagLoop loadedMap name rest
  end.

(** [for name, tagMap := range repositories] *)
Fixpoint legacyRepositoriesLoop (loadedMap : gmap string ID)
    (repositories : list (string * list (string * string))) : M unit :=
  match repositories with
  | [] => ret tt
  | (name, tagMap) :: rest =>
      legacyTagLoop loadedMap name tagMap;;;
      legacyRepositoriesLoop loadedMap rest
  end.

(** legacyLoad after the images are loaded: the repositories file. *)
Definition legacyLoadTags (tmpDir : string) (loadedMap : gmap string ID) : M unit :=
  repositoriesPath <~ safePath tmpDir legacyRepositoriesFileName;;
  emit (EvOpen repositoriesPath);;;
  repositoriesFile <~ (match Open repositoriesPath with
                       | Opened b => ret b
                       | NotExist => fail (External "open: file does not exist")
                       | OpenFailed e => fail e
                       end);;
  repositories <~ lift (decodeRepositories repositoriesFile);;
  legacyRepositoriesLoop loadedMap repositories.

Definition legacyLoad (fuel : nat) (tmpDir : string) (progress : bool) (w : World)
  : option (Res unit * World) :=
  if bool_decide (GOOS = "windows") then Some (inl UnsupportedLegacyFormat, w)
  else
    match (emit (EvReadDir tmpDir);;; lift (ReadDir tmpDir)) w with
    | (inl e, w1) => Some (inl e, w1)
    | (inr dirs, w1) =>
        match legacyLoadDirs fuel dirs tmpDir progress ∅ w1 with
        | None => None
        | Some (Some e, _, w2) => Some (inl e, w2)
        | Some (None, lm, w2) => Some (legacyLoadTags tmpDir lm w2)
        end
    end.

(** ** Load *)

(** Load up to the attempt to open the manifest. *)
Definition stageArchive : M (string * OpenResult) :=
  emit EvMkdirTemp;;;
  tmpDir <~ lift MkdirTemp;;
  defer (DeferRemoveAll tmpDir);;;
  emit (EvUntar tmpDir);;;
  (match Untar tmpDir with
   | Some e => fail e
   | None => ret tt
   end);;;
  manifestPath <~ safePath tmpDir manifestFileName;;
  emit (EvOpen manifestPath);;;
  ret (tmpDir, Open manifestPath).

Definition loadBody (fuel : nat) (quiet : bool) (w : World) : option (Res unit * World) :=
  match stageArchive w with
  | (inl e, w1) => Some (inl e, w1)
  | (inr (tmpDir, manifestFile), w1) =>
      match manifestFile with
      | NotExist => legacyLoad fuel tmpDir (negb quiet) w1
      | OpenFailed e => Some (inl e, w1)
      | Opened content => Some (loadManifest tmpDir (negb quiet) content w1)
      end
  end.

(** The deferred calls, newest first; layer.ReleaseAndLog only logs the
    error of Release. *)
Fixpoint runDeferred (ds : list Deferred) (w : World) : World :=
  match ds with
  | [] => w
  | DeferRemoveAll dir :: rest => runDeferred rest (emit (EvRemoveAll dir) w).2
  | DeferRelease l :: rest => runDeferred rest (layerRelease l w).2
  end.

(** func (l *tarexporter) Load(ctx, inTar, outStream, quiet) (outErr error):
    [None] inside the option is [nil]. *)
Definition Load (fuel : nat) (quiet : bool) (w : World) : option (option Error * World) :=
  match loadBody fuel quiet w with
  | None => None
  | Some (r, w1) =>
      Some (match r with inl e => Some e | inr _ => None end,
            set_deferred [] (runDeferred (w_deferred w1) w1))
  end.

End Loader.

(** ** In-memory collaborators

    A concrete instance of [Collab] over association lists, used to run the
    loader on explicit archives.  Contents stand for themselves: a layer's
    diff id is its decompressed content, a chain id is the diff ids joined
    with a slash, an image id is taken from the table of decoded configs. *)

Fixpoint assoc {A} (k : string) (l : list (string * A)) : option A :=
  match l with
  | [] => None
  | (k', a) :: rest => if bool_decide (k = k') then Some a else assoc k rest
  end.

Record Archive := {
  arGOOS : string;
  arMatcher : option (Platform → bool);
  arCancelAt : option nat;                                  (* poll at which ctx is done *)
  arFiles : list (string * Bytes);                          (* staged path, content *)
  arDirs : list DirEntry;                                   (* entries of the staged root *)
  arManifests : list (Bytes * option (list manifestItem));  (* content, decoding *)
  arImages : list (Bytes * Image);                          (* config, decoding *)
  arLegacy : list (Bytes * legacyImg);                      (* legacy json, decoding *)
  arRepositories : list (string * list (string * string))
}.

Record MemLayer := { mlDiffID : DiffID; mlChainID : ChainID }.

Definition memChain (parent : ChainID) (d : DiffID) : ChainID :=
  if bool_decide (parent = "") then d else parent +:+ "/" +:+ d.

Definition memChainID (r : RootFS) : ChainID := fold_left memChain (DiffIDs r) "".

Definition memRegister (s : list (string * MemLayer)) (content : Bytes) (parent : ChainID)
  : Res MemLayer * list (string * MemLayer) :=
  let l := {| mlDiffID := content; mlChainID := memChain parent content |} in
  match assoc (mlChainID l) s with
  | Some existing => (inr existing, s)
  | None => (inr l, (mlChainID l, l) :: s)
  end.

(** Splits "name:tag" at the first colon. *)
Fixpoint splitColon (s : string) : string * option string :=
  match s with
  | EmptyString => (EmptyString, None)
  | String c rest =>
      if Ascii.eqb c (Ascii.ascii_of_nat 58) then (EmptyString, Some rest)
      else let '(n, t) := splitColon rest in (String c n, t)
  end.

Definition memFamiliar (ref : Named) : string :=
  match refTag ref with
  | Some t => refName ref +:+ ":" +:+ t
  | None => refName ref
  end.

Definition memCollab (a : Archive) : Collab := {|
  GOOS := arGOOS a;
  CheckOS os := bool_decide (os = arGOOS a);
  ctxDone n := bool_decide (arCancelAt a = Some n);
  platformMatcher := arMatcher a;
  MkdirTemp := inr "tmp";
  Untar _ := None;
  FollowSymlinkInScope path _ := inr path;
  Open path := match assoc path (arFiles a) with Some b => Opened b | None => NotExist end;
  ReadFile path := match assoc path (arFiles a) with
                   | Some b => inr b
                   | None => inl (External "read: file does not exist")
                   end;
  ReadDir _ := inr (arDirs a);
  Stat path := match assoc path (arFiles a) with
               | Some b => inr (Z.of_nat (String.length b))
               | None => inl (External "stat: file does not exist")
               end;
  DecompressStream b := inr b;
  TruncateID id := id;
  progressDecompress _ _ := [];
  progressRegister _ size := [size];
  decodeManifest b := match assoc b (arManifests a) with
                      | Some m => inr m
                      | None => inl (External "json: cannot decode manifest")
                      end;
  NewFromJSON b := match assoc b (arImages a) with
                   | Some i => inr i
                   | None => inl (External "invalid image JSON")
                   end;
  unmarshalLegacy b := match assoc b (arLegacy a) with
                       | Some i => inr i
                       | None => inl (External "json: cannot decode legacy image")
                       end;
  decodeRepositories _ := inr (arRepositories a);
  HistoryFromConfig b := inr {| Created := None; Comment := b; EmptyLayer := false |};
  MakeConfigFromV1Config b _ _ := inr ("v1:" +:+ b);
  RootFS_ChainID := memChainID;
  ParseNormalizedNamed s :=
    if bool_decide (s = "") then inl (External "invalid reference format")
    else let '(n, t) := splitColon s in inr {| refName := n; refTag := t |};
  WithTag named tag := inr {| refName := refName named; refTag := Some tag |};
  FamiliarString := memFamiliar;
  ImageStore := list (string * Image) * list (string * ID);
  is_Create s config :=
    match assoc config (arImages a) with
    | Some i => (inr (imgID i), ((imgID i, i) :: s.1, s.2))
    | None => (inl (External "invalid image JSON"), s)
    end;
  is_Get s id := match assoc id s.1 with
                 | Some i => inr i
                 | None => inl (External "image not found")
                 end;
  is_SetParent s id parent := (None, (s.1, (id, parent) :: s.2));
  LayerStore := list (string * MemLayer);
  Layer := MemLayer;
  layer_DiffID := mlDiffID;
  lss_Get s chain := (match assoc chain s with
                      | Some l => inr l
                      | None => inl (External "layer does not exist")
                      end, s);
  lss_Register := memRegister;
  lss_Describable := false;
  lss_RegisterWithDescriptor s content parent _ := memRegister s content parent;
  lss_Release s _ := (None, s);
  RefStore := list (string * ID);
  rs_Get s ref := match assoc (memFamiliar ref) s with
                  | Some i => inr i
                  | None => inl (External "reference does not exist")
                  end;
  rs_AddTag s ref id force :=
    match assoc (memFamiliar ref) s with
    | Some prev => if bool_decide (prev ≠ id) && negb force
                   then (Some (External "conflict: tag is already set"), s)
                   else (None, (memFamiliar ref, id) :: s)
    | None => (None, (memFamiliar ref, id) :: s)
    end
|}.

(** The world before a Load: given stores, nothing written, nothing deferred. *)
Definition memWorld (a : Archive) (images : list (string * Image))
    (layers : list (string * MemLayer)) (refs : list (string * ID)) : @World (memCollab a) :=
  @Build_World (memCollab a) (images, []) layers refs [] [] 0 [].

Definition emptyArchive : Archive := {|
  arGOOS := "linux"; arMatcher := None; arCancelAt := None; arFiles := []; arDirs := [];
  arManifests := []; arImages := []; arLegacy := []; arRepositories := []
|}.

(** ** Notions used to state the properties *)

Definition isTagLine (m : OutMsg) : bool :=
  match m with
  | Line s => String.prefix "Loaded image: " s
  | Progress _ _ _ _ => false
  end.

Definition isAddTag (e : Event) : bool :=
  match e with EvAddTag _ _ _ => true | _ => false end.

Definition isCreate (e : Event) : bool :=
  match e with EvCreate _ => true | _ => false end.



Section Observations.
Context `{C : Collab}.

(** The "Loaded image ID" lines of the given image ids, in order. *)
Definition idLines (ids : list ID) : string :=
  fold_right (λ i acc, loadedImageIDLine i +:+ acc) "" ids.

(** Load has staged the archive, found and decoded a manifest, and run the
    loop over its entries to the end, with variables [v] in world [w2]. *)
Definition reachesParentPhase (quiet : bool) (w : World) (v : LoopVars) (w2 : World) : Prop :=
  ∃ tmpDir content manifest w1,
    stageArchive w = (inr (tmpDir, Opened content), w1) ∧
    decodeManifest content = inr (Some manifest) ∧
    loadEntries tmpDir (negb quiet) manifest initVars w1 = (inr v, w2).

(** Load has staged the archive into [tmpDir], decoded the manifest
    [before ++ m :: after] and run the loop over [before] to the end: it is
    about to process the entry [m] with variables [v] in world [w]. *)
Definition reachesEntry (quiet : bool) (w0 : World) (tmpDir : string)
    (before : list manifestItem) (m : manifestItem) (after : list manifestItem)
    (v : LoopVars) (w : World) : Prop :=
  ∃ content w1,
    stageArchive w0 = (inr (tmpDir, Opened content), w1) ∧
    decodeManifest content = inr (Some (before ++ m :: after)) ∧
    loadEntries tmpDir (negb quiet) before initVars w1 = (inr v, w).

(** The world in which Load returns when its body stops in world [w]: the
    deferred calls have run. *)
Definition afterDeferred (w : World) : World :=
  set_deferred [] (runDeferred (w_deferred w) w).

(** loadLayer's call on the layer store, for decompressed content
    [inflated]: RegisterWithDescriptor when the store is describable,
    Register otherwise, in both cases under the chain id of [rootFS]. *)
Definition registerCall (s : LayerStore) (inflated : Bytes) (rootFS : RootFS)
    (foreignSrc : Descriptor) : Res Layer * LayerStore :=
  if lss_Describable
  then lss_RegisterWithDescriptor s inflated (RootFS_ChainID rootFS) foreignSrc
  else lss_Register s inflated (RootFS_ChainID rootFS).

(** The test on the layer obtained for [diffID], and the deferred release. *)
Definition checkedLayer (i : nat) (diffID : DiffID) (rootFS : RootFS) (l : Layer) (w : World)
  : Res RootFS * World :=
  (if bool_decide (diffID ≠ layer_DiffID l)
   then inl (DiffIDMismatch i diffID (layer_DiffID l))
   else inr (Append rootFS diffID),
   set_deferred (DeferRelease l :: w_deferred w) w).

(** What the loop over the manifest learns from the staged config of an
    entry: the bytes of the config and their decoding. *)
Definition entryConfig (tmpDir : string) (m : manifestItem) : Res (Bytes * Image) :=
  match FollowSymlinkInScope (filepath_Join tmpDir (Config m)) tmpDir with
  | inl e => inl e
  | inr configPath =>
      match ReadFile configPath with
      | inl e => inl e
      | inr config =>
          match NewFromJSON config with
          | inl e => inl e
          | inr img => inr (config, img)
          end
      end
  end.

(** The platform filter does not skip the entry: there is no filter, or it
    matches the platform of the entry's image. *)
Definition passesFilter (tmpDir : string) (m : manifestItem) : bool :=
  match entryConfig tmpDir m, platformMatcher with
  | inr (_, img), Some matches => matches (imgPlatform img)
  | _, _ => true
  end.

(** The config bytes and the diff ids of an entry. *)
Definition entryBytes (tmpDir : string) (m : manifestItem) : Bytes :=
  match entryConfig tmpDir m with
  | inr (config, _) => config
  | inl _ => ""
  end.

Definition entryDiffIDs (tmpDir : string) (m : manifestItem) : list DiffID :=
  match entryConfig tmpDir m with
  | inr (_, img) => DiffIDs (imgRootFS img)
  | inl _ => []
  end.

(** For a repo tag that parses: the AddTag call that assigns it to [imgID],
    and the line that reports it. *)
Definition tagCallOf (imgID : ID) (repoTag : string) : list Event :=
  match ParseNormalizedNamed repoTag with
  | inr ref => [EvAddTag ref imgID true]
  | inl _ => []
  end.

Definition tagLineOf (repoTag : string) : list OutMsg :=
  match ParseNormalizedNamed repoTag with
  | inr ref => [Line ("Loaded image: " +:+ FamiliarString ref +:+ nl)]
  | inl _ => []
  end.

(** Load is in the loop over the diff ids of the entry [m], whose config
    [config] decodes to [img]: the entry was reached, passed the tests on
    its config, and the turns for the diff ids [finished] have left the
    running rootFS [rootFS] and the world [w]; the turn for [diffID] is
    next. *)
Definition reachesLayer (quiet : bool) (w0 : World) (tmpDir : string)
    (before : list manifestItem) (m : manifestItem) (after : list manifestItem)
    (config : Bytes) (img : Image) (finished : list DiffID) (diffID : DiffID)
    (todo : list DiffID) (rootFS : RootFS) (w : World) : Prop :=
  ∃ v we configPath,
    reachesEntry quiet w0 tmpDir before m after v we ∧
    ctxDone (w_polls we) = false ∧
    FollowSymlinkInScope (filepath_Join tmpDir (Config m)) tmpDir = inr configPath ∧
    ReadFile configPath = inr config ∧
    NewFromJSON config = inr img ∧
    CheckOS (OperatingSystem img) = true ∧
    (∀ matches, platformMatcher = Some matches → matches (imgPlatform img) = true) ∧
    length (Layers m) = length (DiffIDs (imgRootFS img)) ∧
    DiffIDs (imgRootFS img) = finished ++ diffID :: todo ∧
    resolveLayers tmpDir m (negb quiet) 0 finished
      {| rfType := rfType (imgRootFS img); DiffIDs := [] |}
      (set_trace (w_trace we ++ [EvReadFile configPath]) (set_polls (S (w_polls we)) we))
    = (inr rootFS, w).

(** Modelled from the spec: the layer store is an interface, and the chain
    id is its lookup key, the hash of the ordered diff ids of a layer
    stack.  The rule for one registration: a layer
    that [registerCall] returns for content registered on top of the chain
    of [rootFS] is found afterwards at the chain of [rootFS] extended by
    the layer's own diff id. *)
Definition findsRegistered (s : LayerStore) (inflated : Bytes) (rootFS : RootFS)
    (foreignSrc : Descriptor) : Prop :=
  ∀ l s', registerCall s inflated rootFS foreignSrc = (inr l, s') →
          (lss_Get s' (RootFS_ChainID (Append rootFS (layer_DiffID l)))).1 = inr l.

(** The specification's wording on layer counts, read literally: any entry
    of the decoded manifest whose number of layer paths differs from the
    number of diff ids of its config makes Load return LayerCountMismatch. *)
Definition everyCountMismatchFails (fuel : nat) (quiet : bool) (w : World) : Prop :=
  ∀ tmpDir content w1 manifest m configPath config img,
    stageArchive w = (inr (tmpDir, Opened content), w1) →
    decodeManifest content = inr (Some manifest) →
    m ∈ manifest →
    FollowSymlinkInScope (filepath_Join tmpDir (Config m)) tmpDir = inr configPath →
    ReadFile configPath = inr config →
    NewFromJSON config = inr img →
    length (Layers m) ≠ length (DiffIDs (imgRootFS img)) →
    ∃ expected actual w',
      Load fuel quiet w = Some (Some (LayerCountMismatch expected actual), w').




(** What legacyLoadImage learns from the staged json of [oldID]: the result
    of legacyReadConfig, which does not depend on the world. *)
Definition legacyConfigOf (sourceDir oldID : string) : Res (Bytes * legacyImg) :=
  match FollowSymlinkInScope
          (filepath_Join sourceDir (filepath_Join oldID legacyConfigFileName)) sourceDir with
  | inl e => inl e
  | inr configPath =>
      match ReadFile configPath with
      | inl e => inl e
      | inr imageJSON =>
          match unmarshalLegacy imageJSON with
          | inl e => inl e
          | inr img =>
              let os := if bool_decide (legacyOS img = "") then GOOS else legacyOS img in
              if negb (CheckOS os) then inl (UnsupportedPlatform os GOOS)
              else inr (imageJSON, {| legacyOS := os; legacyParent := legacyParent img |})
          end
      end
  end.

(** The parent legacyLoadImage goes on to resolve for [oldID], if any. *)
Definition legacyParentOf (sourceDir oldID : string) : option string :=
  match legacyConfigOf sourceDir oldID with
  | inr (_, img) => if bool_decide (legacyParent img ≠ "") then Some (legacyParent img) else None
  | inl _ => None
  end.

(** The chain of parent references that starts at [oldID] ends within [n]
    images. *)
Fixpoint chainEnds (n : nat) (sourceDir oldID : string) : bool :=
  match n with
  | O => false
  | S n' =>
      match legacyParentOf sourceDir oldID with
      | None => true
      | Some parent => chainEnds n' sourceDir parent
      end
  end.

End Observations.

(** ** Sample archives *)

Definition mkImage (id os : string) (diffIDs : list DiffID) (history : list History) : Image :=
  {| imgID := id; OperatingSystem := os; imgPlatform := os +:+ "/amd64";
     imgRootFS := {| rfType := "layers"; DiffIDs := diffIDs |}; imgHistory := history |}.

Definition mkItem (config : string) (tags layers : list string) (parent : ID) : manifestItem :=
  {| Config := config; RepoTags := tags; Layers := layers; Parent := parent;
     LayerSources := ∅ |}.

Definition hBase : History := {| Created := None; Comment := "base"; EmptyLayer := false |}.
Definition hMid : History := {| Created := None; Comment := "mid"; EmptyLayer := false |}.
Definition hTop : History := {| Created := None; Comment := "top"; EmptyLayer := false |}.

(** Two images; the second names the first as its parent but has two more
    History entries. *)
Definition arBadParent : Archive := {|
  arGOOS := "linux"; arMatcher := None; arCancelAt := None;
  arFiles := [("tmp/manifest.json", "M"); ("tmp/a.json", "cfgA"); ("tmp/b.json", "cfgB");
              ("tmp/l1.tar", "d1"); ("tmp/l2.tar", "d2")];
  arDirs := [];
  arManifests := [("M", Some [mkItem "a.json" [] ["l1.tar"] "";
                              mkItem "b.json" [] ["l1.tar"; "l2.tar"] "idA"])];
  arImages := [("cfgA", mkImage "idA" "linux" ["d1"] [hBase]);
               ("cfgB", mkImage "idB" "linux" ["d1"; "d2"] [hBase; hMid; hTop])];
  arLegacy := []; arRepositories := []
|}.

(** A manifest file that decodes to null, and one that decodes to []. *)
Definition arManifest (content : Bytes) : Archive := {|
  arGOOS := "linux"; arMatcher := None; arCancelAt := None;
  arFiles := [("tmp/manifest.json", content)];
  arDirs := [];
  arManifests := [("null", None); ("[]", Some [])];
  arImages := []; arLegacy := []; arRepositories := []
|}.

(** A legacy archive (no manifest) on a Windows host. *)
Definition arLegacyOnWindows : Archive := {|
  arGOOS := "windows"; arMatcher := None; arCancelAt := None;
  arFiles := [("tmp/a/json", "ja"); ("tmp/a/layer.tar", "da"); ("tmp/repositories", "R")];
  arDirs := [{| deName := "a"; IsDir := true |}];
  arManifests := [];
  arImages := [("v1:ja", mkImage "idA" "windows" ["da"] [hBase])];
  arLegacy := [("ja", {| legacyOS := ""; legacyParent := "" |})];
  arRepositories := []
|}.

(** One entry, for an image of operating system [os] with one diff id and
    the given layer files, on a linux host with the given platform filter. *)
Definition arOneEntry (os : string) (layers : list string)
    (matcher : option (Platform → bool)) : Archive := {|
  arGOOS := "linux"; arMatcher := matcher; arCancelAt := None;
  arFiles := [("tmp/manifest.json", "M"); ("tmp/a.json", "cfgA"); ("tmp/l1.tar", "d1")];
  arDirs := [];
  arManifests := [("M", Some [mkItem "a.json" [] layers ""])];
  arImages := [("cfgA", mkImage "idA" os ["d1"] [hBase])];
  arLegacy := []; arRepositories := []
|}.

Definition onlyArm : option (Platform → bool) :=
  Some (λ p, bool_decide (p = "linux/arm64")).

(** The loop over the entries of [arBadParent], run from the staged world. *)
Definition badParentEntries :=
  @loadEntries (memCollab arBadParent) "tmp" false
    [mkItem "a.json" [] ["l1.tar"] ""; mkItem "b.json" [] ["l1.tar"; "l2.tar"] "idA"]
    initVars
    (@stageArchive (memCollab arBadParent) (memWorld arBadParent [] [] [])).2.

Definition badParentVars : LoopVars :=
  match badParentEntries.1 with
  | inr v => v
  | inl _ => initVars
  end.

(** One image with two repo tags. *)
Definition arTwoTags : Archive := {|
  arGOOS := "linux"; arMatcher := None; arCancelAt := None;
  arFiles := [("tmp/manifest.json", "M"); ("tmp/a.json", "cfgA"); ("tmp/l1.tar", "d1")];
  arDirs := [];
  arManifests := [("M", Some [mkItem "a.json" ["foo:1"; "foo:2"] ["l1.tar"] ""])];
  arImages := [("cfgA", mkImage "idA" "linux" ["d1"] [hBase])];
  arLegacy := []; arRepositories := []
|}.

Definition twoTagsLoaded : @World (memCollab arTwoTags) :=
  match @Load (memCollab arTwoTags) 0 true (memWorld arTwoTags [] [] []) with
  | Some (_, w') => w'
  | None => memWorld arTwoTags [] [] []
  end.

(** A legacy archive of two images, [a] on top of [b]. *)
Definition arLegacyChain : Archive := {|
  arGOOS := "linux"; arMatcher := None; arCancelAt := None;
  arFiles := [("tmp/a/json", "ja"); ("tmp/b/json", "jb"); ("tmp/a/layer.tar", "da");
              ("tmp/b/layer.tar", "db"); ("tmp/repositories", "R")];
  arDirs := [{| deName := "a"; IsDir := true |}; {| deName := "b"; IsDir := true |}];
  arManifests := [];
  arImages := [("v1:ja", mkImage "idA" "linux" ["db"; "da"] [hBase; hTop]);
               ("v1:jb", mkImage "idB" "linux" ["db"] [hBase])];
  arLegacy := [("ja", {| legacyOS := ""; legacyParent := "b" |});
               ("jb", {| legacyOS := ""; legacyParent := "" |})];
  arRepositories := [("foo", [("latest", "a")])]
|}.

(** A legacy archive of two images that name each other as parent. *)
Definition arLegacyCycle : Archive := {|
  arGOOS := "linux"; arMatcher := None; arCancelAt := None;
  arFiles := [("tmp/a/json", "ja"); ("tmp/b/json", "jb"); ("tmp/a/layer.tar", "da");
              ("tmp/b/layer.tar", "db"); ("tmp/repositories", "R")];
  arDirs := [{| deName := "a"; IsDir := true |}; {| deName := "b"; IsDir := true |}];
  arManifests := [];
  arImages := [];
  arLegacy := [("ja", {| legacyOS := ""; legacyParent := "b" |});
               ("jb", {| legacyOS := ""; legacyParent := "a" |})];
  arRepositories := []
|}.

(** ** Further notions *)

(** What the body of checkValidParent's loop accepts for a parent entry [hP]
    and the child entry [hC] at the same index: Created is nil in both or
    holds the same instant in both, and the other fields are equal. *)
Definition historyMatches (hP hC : History) : bool :=
  bool_decide (Comment hC = Comment hP) && bool_decide (EmptyLayer hC = EmptyLayer hP)
  && match Created hP, Created hC with
     | None, None => true
     | Some tP, Some tC => Time_Equal tP tC
     | _, _ => false
     end.

(** Classes of calls. *)
Definition isLayerIO (e : Event) : bool :=
  match e with
  | EvOpen _ | EvStat _ | EvDecompress _ | EvRegister _ _ _ => true
  | _ => false
  end.

Definition isLayerGet (e : Event) : bool :=
  match e with EvLayerGet _ => true | _ => false end.

Definition isTagCall (e : Event) : bool :=
  match e with EvRefGet _ | EvAddTag _ _ _ => true | _ => false end.

Definition isParentCall (e : Event) : bool :=
  match e with EvImageGet _ | EvSetParent _ _ => true | _ => false end.


Definition isLogImageEvent (e : Event) : bool :=
  match e with EvLogImageEvent _ => true | _ => false end.

(** The calls the body of Load makes for a manifest archive. *)
Definition isManifestCall (e : Event) : bool :=
  isLayerIO e || isLayerGet e || isTagCall e || isParentCall e
  || match e with EvReadFile _ | EvCreate _ | EvLogImageEvent _ => true | _ => false end.

(** The calls legacyLoad makes. *)
Definition isLegacyCall (e : Event) : bool :=
  isLayerIO e || isTagCall e || isParentCall e
  || match e with
     | EvReadDir _ | EvReadFile _ | EvCreate _ | EvRelease _ => true
     | _ => false
     end.

(** The calls of Load between MkdirTemp and the deferred calls. *)
Definition isBodyCall (e : Event) : bool :=
  isManifestCall e || isLegacyCall e || match e with EvUntar _ => true | _ => false end.

(** Classes of messages on the stream: a supersession notice, a report of
    the progress output, a line that says "Loaded image". *)
Definition isNotice (m : OutMsg) : bool :=
  match m with
  | Line s => String.prefix "The image " s
  | Progress _ _ _ _ => false
  end.

Definition isProgress (m : OutMsg) : bool :=
  match m with
  | Line _ => false
  | Progress _ _ _ _ => true
  end.

Definition saysLoaded (m : OutMsg) : bool :=
  match m with
  | Line s => String.prefix "Loaded image" s
  | Progress _ _ _ _ => false
  end.

Definition isRelease (e : Event) : bool :=
  match e with EvRelease _ => true | _ => false end.

Section Footprints.
Context `{C : Collab}.

(** From [w] to [w'] only calls in [P] were made, only messages in [Q]
    arrived on the stream, and the defer stack grew by releases of layers,
    by none when [d] is false. *)
Definition grows (P : Event → bool) (Q : OutMsg → bool) (d : bool) (w w' : World) : Prop :=
  ∃ t o ls,
    w_trace w' = w_trace w ++ t ∧ w_out w' = w_out w ++ o ∧
    w_deferred w' = (DeferRelease <$> ls) ++ w_deferred w ∧
    forallb P t = true ∧ forallb Q o = true ∧ (d = false → ls = []).

Definition within (P : Event → bool) (Q : OutMsg → bool) (d : bool) {A} (c : M A) : Prop :=
  ∀ w, grows P Q d w (c w).2.

(** The call a deferred entry makes when it runs. *)
Definition deferredCall (d : Deferred) : Event :=
  match d with
  | DeferRemoveAll dir => EvRemoveAll dir
  | DeferRelease l => EvRelease (layer_DiffID l)
  end.

End Footprints.

(** [historyMatches] along the parent's History, entry by entry. *)
Fixpoint historiesMatch (parentH childH : list History) : bool :=
  match parentH, childH with
  | [], _ => true
  | hP :: ps, hC :: cs => historyMatches hP hC && historiesMatch ps cs
  | _ :: _, [] => false
  end.

(** The running rootFS after each of the diff ids [todo], starting from
    [rootFS]. *)
Fixpoint extensions (rootFS : RootFS) (todo : list DiffID) : list RootFS :=
  match todo with
  | [] => []
  | d :: rest => Append rootFS d :: extensions (Append rootFS d) rest
  end.

(** What the loop over the repo tags and the layer loop put on the stream:
    "Loaded image:" lines, supersession notices, progress reports. *)
Definition isEntryOutput (m : OutMsg) : bool := isTagLine m || isNotice m || isProgress m.

(** [k] is reached from [x] along parent references of the staged legacy
    json files, through ids that are not in the load map [lm] ([x] and [k]
    included). *)
Inductive ancestorOutside `{C : Collab} (sourceDir : string) (lm : gmap string ID)
  : string → string → Prop :=
| ancestor_here (x : string) :
    lm !! x = None → ancestorOutside sourceDir lm x x
| ancestor_step (x p k : string) :
    lm !! x = None → legacyParentOf sourceDir x = Some p →
    ancestorOutside sourceDir lm p k → ancestorOutside sourceDir lm x k.

(** ** Further sample archives *)

(** The two images of [arBadParent], with the context done at the third
    poll: the one that opens the turn of the second entry, after the polls
    for the first entry and for its one layer. *)
Definition arCancelled : Archive := {|
  arGOOS := "linux"; arMatcher := None; arCancelAt := Some 2;
  arFiles := [("tmp/manifest.json", "M"); ("tmp/a.json", "cfgA"); ("tmp/b.json", "cfgB");
              ("tmp/l1.tar", "d1"); ("tmp/l2.tar", "d2")];
  arDirs := [];
  arManifests := [("M", Some [mkItem "a.json" [] ["l1.tar"] "";
                              mkItem "b.json" [] ["l1.tar"; "l2.tar"] "idA"])];
  arImages := [("cfgA", mkImage "idA" "linux" ["d1"] [hBase]);
               ("cfgB", mkImage "idB" "linux" ["d1"; "d2"] [hBase; hMid; hTop])];
  arLegacy := []; arRepositories := []
|}.

(** The collaborators of [memCollab a], except that the path check fails on
    the paths of [loops] (a loop of symbolic links). *)
Definition memCollabLoops (a : Archive) (loops : list string) : Collab := {|
  GOOS := @GOOS (memCollab a);
  CheckOS := @CheckOS (memCollab a);
  ctxDone := @ctxDone (memCollab a);
  platformMatcher := @platformMatcher (memCollab a);
  MkdirTemp := @MkdirTemp (memCollab a);
  Untar := @Untar (memCollab a);
  FollowSymlinkInScope path _ :=
    if bool_decide (path ∈ loops)
    then inl (External "too many levels of symbolic links")
    else inr path;
  Open := @Open (memCollab a);
  ReadFile := @ReadFile (memCollab a);
  ReadDir := @ReadDir (memCollab a);
  Stat := @Stat (memCollab a);
  DecompressStream := @DecompressStream (memCollab a);
  TruncateID := @TruncateID (memCollab a);
  progressDecompress := @progressDecompress (memCollab a);
  progressRegister := @progressRegister (memCollab a);
  decodeManifest := @decodeManifest (memCollab a);
  NewFromJSON := @NewFromJSON (memCollab a);
  unmarshalLegacy := @unmarshalLegacy (memCollab a);
  decodeRepositories := @decodeRepositories (memCollab a);
  HistoryFromConfig := @HistoryFromConfig (memCollab a);
  MakeConfigFromV1Config := @MakeConfigFromV1Config (memCollab a);
  RootFS_ChainID := @RootFS_ChainID (memCollab a);
  ParseNormalizedNamed := @ParseNormalizedNamed (memCollab a);
  WithTag := @WithTag (memCollab a);
  FamiliarString := @FamiliarString (memCollab a);
  ImageStore := @ImageStore (memCollab a);
  is_Create := @is_Create (memCollab a);
  is_Get := @is_Get (memCollab a);
  is_SetParent := @is_SetParent (memCollab a);
  LayerStore := @LayerStore (memCollab a);
  Layer := @Layer (memCollab a);
  layer_DiffID := @layer_DiffID (memCollab a);
  lss_Get := @lss_Get (memCollab a);
  lss_Register := @lss_Register (memCollab a);
  lss_Describable := @lss_Describable (memCollab a);
  lss_RegisterWithDescriptor := @lss_RegisterWithDescriptor (memCollab a);
  lss_Release := @lss_Release (memCollab a);
  RefStore := @RefStore (memCollab a);
  rs_Get := @rs_Get (memCollab a);
  rs_AddTag := @rs_AddTag (memCollab a)
|}.

(** The empty world of [memCollabLoops]. *)
Definition memWorldLoops (a : Archive) (loops : list string) : @World (memCollabLoops a loops) :=
  @Build_World (memCollabLoops a loops) ([], []) [] [] [] [] 0 [].

(** ** Package system: the containerd runtime switch

    [var containerdRuntimeSupported = false] is the state; the setter
    returns the new state. *)
Definition containerdRuntimeSupported0 : bool := false.

Definition EnableContainerdRuntime (cdPath : string) (containerdRuntimeSupported : bool) : bool :=
  if bool_decide (0 < String.length cdPath) then true else containerdRuntimeSupported.

Definition ContainerdRuntimeSupported (containerdRuntimeSupported : bool) : bool :=
  containerdRuntimeSupported.

(** * Properties *)

Section Monad.
Context `{C : Collab}.

Lemma bind_inl {A B} (c : M A) (k : A → M B) w e w' :
  c w = (inl e, w') → bind c k w = (inl e, w').
Proof. unfold bind. intros ->. reflexivity. Qed.

Lemma bind_inr {A B} (c : M A) (k : A → M B) w a w' :
  c w = (inr a, w') → bind c k w = k a w'.
Proof. unfold bind. intros ->. reflexivity. Qed.

Lemma bind_inv_inr {A B} (c : M A) (k : A → M B) w b w2 :
  bind c k w = (inr b, w2) → ∃ a w1, c w = (inr a, w1) ∧ k a w1 = (inr b, w2).
Proof.
  unfold bind. destruct (c w) as [[e|a] w1]; intros H; [discriminate|]. eauto.
Qed.

End Monad.

(** ** validatedParentLinks *)

Lemma validatedLoop_map (pl todo ret : list parentLink) :
  validatedLoop pl (length ret) todo ret
  = ret ++ map (λ p, if parentInBatch pl p then p else clearParent p) todo.
Proof.
  revert ret. induction todo as [|p rest IH]; intros ret; simpl.
  - by rewrite app_nil_r.
  - destruct (parentInBatch pl p) eqn:Hp.
    + replace (S (length ret)) with (length (ret ++ [p])) by (rewrite length_app; simpl; lia).
      rewrite IH, <- app_assoc. reflexivity.
    + replace (alter clearParent (length ret) (ret ++ [p])) with (ret ++ [clearParent p]).
      * replace (S (length ret)) with (length (ret ++ [clearParent p]))
          by (rewrite length_app; simpl; lia).
        rewrite IH, <- app_assoc. reflexivity.
      * rewrite alter_app_r_alt by lia. by rewrite Nat.sub_diag.
Qed.

Lemma validatedParentLinks_map (pl : list parentLink) :
  validatedParentLinks pl = map (λ p, if parentInBatch pl p then p else clearParent p) pl.
Proof. unfold validatedParentLinks. apply (validatedLoop_map pl pl []). Qed.

Lemma parentInBatch_true (pl : list parentLink) (p : parentLink) :
  parentInBatch pl p = true ↔
  ∃ j p2, pl !! j = Some p2 ∧ linkID p2 = parentID p ∧ linkID p2 ≠ linkID p.
Proof.
  unfold parentInBatch. rewrite existsb_exists. split.
  - intros (p2 & Hin & Hc). apply andb_true_iff in Hc as [H1 H2].
    apply bool_decide_eq_true in H1. apply negb_true_iff, bool_decide_eq_false in H2.
    apply list_elem_of_In, list_elem_of_lookup in Hin as [j Hj]. eauto.
  - intros (j & p2 & Hj & H1 & H2). exists p2. split.
    + apply list_elem_of_In, list_elem_of_lookup. eauto.
    + apply andb_true_iff. split; [by apply bool_decide_eq_true|].
      by apply negb_true_iff, bool_decide_eq_false.
Qed.

(** "Some other link of the batch has the parent id as its child id, and the
    parent id is not the link's own id", for the link at index [i]. *)
Lemma parentInBatch_other (pl : list parentLink) (i : nat) (p : parentLink) :
  pl !! i = Some p →
  parentInBatch pl p = true ↔
  ∃ j p2, j ≠ i ∧ pl !! j = Some p2 ∧ linkID p2 = parentID p ∧ parentID p ≠ linkID p.
Proof.
  intros Hi. rewrite parentInBatch_true. split.
  - intros (j & p2 & Hj & H1 & H2). exists j, p2. repeat split; try done.
    + intros ->. congruence.
    + congruence.
  - intros (j & p2 & _ & Hj & H1 & H2). exists j, p2. repeat split; try done. congruence.
Qed.

Section ParentLinks.
Context `{C : Collab}.

Lemma commitParents_cleared (pl : list parentLink) (keep : parentLink → bool) (w : World) :
  commitParents (map (λ p, if keep p then p else clearParent p) pl) w
  = commitParents (filter (λ p, keep p = true) pl) w.
Proof.
  revert w. induction pl as [|p rest IH]; intros w; [reflexivity|].
  rewrite filter_cons. simpl map. destruct (keep p) eqn:Hk.
  - rewrite decide_True by done. simpl. unfold bind.
    destruct (if bool_decide (parentID p ≠ "") then _ else _) as [[e|[]] w1]; [reflexivity|].
    apply IH.
  - rewrite decide_False by (by intros ?). simpl. unfold bind, ret. simpl. apply IH.
Qed.

(** C2.  validatedParentLinks keeps the parent id of a link exactly when
    some other link of the batch has that id as its child id and the link
    does not name itself; otherwise the parent id is cleared.  Load then
    runs setParentID for the links whose parent was kept and for no other:
    a parent that is not in the batch costs no call and no error. *)
Theorem validatedParentLinks_keeps_batch_parents
    (pl : list parentLink) (i : nat) (p : parentLink) :
  pl !! i = Some p →
  let inBatch :=
    ∃ j p2, j ≠ i ∧ pl !! j = Some p2 ∧ linkID p2 = parentID p ∧ parentID p ≠ linkID p in
  ∃ q, validatedParentLinks pl !! i = Some q ∧
       linkID q = linkID p ∧
       (inBatch → parentID q = parentID p) ∧
       (¬ inBatch → parentID q = "") ∧
       (parentID q = parentID p → parentID p ≠ "" → inBatch) ∧
       length (validatedParentLinks pl) = length pl ∧
       ∀ w : World,
         commitParents (validatedParentLinks pl) w
         = commitParents (filter (λ p, parentInBatch pl p = true) pl) w.
Proof.
  intros Hi inBatch.
  assert (Hiff : parentInBatch pl p = true ↔ inBatch) by (by apply parentInBatch_other).
  rewrite validatedParentLinks_map.
  exists (if parentInBatch pl p then p else clearParent p).
  split; [by rewrite list_lookup_fmap, Hi|].
  assert (Hlen : length (map (λ p0, if parentInBatch pl p0 then p0 else clearParent p0) pl)
                 = length pl) by apply length_map.
  destruct (parentInBatch pl p) eqn:Hp; simpl.
  - refine (conj eq_refl (conj (λ _, eq_refl) (conj _ (conj _ (conj Hlen _))))).
    + intros Hn. exfalso. apply Hn, Hiff. reflexivity.
    + intros _ _. by apply Hiff.
    + intros w. apply commitParents_cleared.
  - refine (conj eq_refl (conj _ (conj (λ _, eq_refl) (conj _ (conj Hlen _))))).
    + intros Hin. apply Hiff in Hin. discriminate.
    + intros Heq Hne. congruence.
    + intros w. apply commitParents_cleared.
Qed.

End ParentLinks.

(** ** checkValidParent *)

Lemma checkHistoryPrefix_no_panic (i : nat) (parentH imgH : list History) :
  i + length parentH ≤ length imgH → is_Some (checkHistoryPrefix i parentH imgH).
Proof.
  revert i. induction parentH as [|hP rest IH]; intros i Hlen; simpl in *; [by eexists|].
  destruct (lookup_lt_is_Some_2 imgH i) as [hC ->]; [lia|].
  destruct (negb (eqb _ _)); [by exists false|].
  destruct (match Created hP with Some _ => _ | None => _ end); [by exists false|].
  destruct (negb (bool_decide _)); [by exists false|].
  apply IH. lia.
Qed.

Lemma checkValidParent_no_panic (img parent : Image) : is_Some (checkValidParent img parent).
Proof.
  unfold checkValidParent. destruct (_ && _); [by exists true|].
  destruct (negb (bool_decide _)) eqn:Hdiff; [by exists false|].
  apply negb_false_iff, bool_decide_eq_true in Hdiff.
  apply checkHistoryPrefix_no_panic. lia.
Qed.

Lemma checkHistoryPrefix_extends (i : nat) (parentH imgH : list History) :
  checkHistoryPrefix i parentH imgH = Some true →
  length imgH ≤ i + length parentH + 1 →
  extendsHistory (drop i imgH) parentH = true.
Proof.
  revert i. induction parentH as [|hP rest IH]; intros i Hc Hlen; simpl in *.
  - assert (Hd : length (drop i imgH) ≤ 1) by (rewrite length_drop; lia).
    destruct (drop i imgH); by apply bool_decide_eq_true.
  - destruct (imgH !! i) as [hC|] eqn:Hi; [|discriminate].
    rewrite (drop_S _ _ _ Hi).
    destruct (negb (eqb _ _)) eqn:Hnil; [discriminate|].
    destruct (match Created hP with Some _ => _ | None => _ end); [discriminate|].
    destruct (negb (bool_decide _)) eqn:Heq; [discriminate|].
    apply negb_false_iff, bool_decide_eq_true in Heq.
    apply negb_false_iff, eqb_prop in Hnil.
    apply andb_true_iff. split.
    + unfold sameButCreated. rewrite Heq. simpl.
      rewrite !bool_decide_eq_true_2 by done. simpl.
      rewrite Heq in Hnil. simpl in Hnil. rewrite Hnil. apply eqb_reflx.
    + apply IH; [done|lia].
Qed.

(** Whenever checkValidParent answers true, the child's History extends the
    parent's in the sense of the data model. *)
Lemma checkValidParent_extends (img parent : Image) :
  checkValidParent img parent = Some true →
  extendsHistory (imgHistory img) (imgHistory parent) = true.
Proof.
  unfold checkValidParent. destruct (_ && _) eqn:Hempty.
  - intros _. apply andb_true_iff in Hempty as [H1 H2].
    apply bool_decide_eq_true in H1, H2.
    destruct (imgHistory img), (imgHistory parent); try discriminate. reflexivity.
  - destruct (negb (bool_decide _)) eqn:Hdiff; [discriminate|].
    apply negb_false_iff, bool_decide_eq_true in Hdiff.
    intros Hc. apply (checkHistoryPrefix_extends 0) in Hc; [done|lia].
Qed.

(** checkValidParent is stricter than the invariant: a child with the
    parent's own non-empty History is refused, and so is a child whose entry
    carries another instant in Created. *)
Example checkValidParent_refuses_equal_history :
  checkValidParent (mkImage "idB" "linux" ["d1"] [hBase]) (mkImage "idA" "linux" ["d1"] [hBase])
  = Some false ∧
  extendsHistory [hBase] [hBase] = true.
Proof. split; reflexivity. Qed.

Example checkValidParent_refuses_other_instant :
  let at_ (n : Z) := {| Created := Some {| unixNano := n; zone := "UTC" |};
                        Comment := "base"; EmptyLayer := false |} in
  checkValidParent (mkImage "idB" "linux" ["d1"; "d2"] [at_ 1%Z; hTop])
                   (mkImage "idA" "linux" ["d1"] [at_ 2%Z])
  = Some false ∧
  extendsHistory [at_ 1%Z; hTop] [at_ 2%Z] = true.
Proof. split; reflexivity. Qed.

Section SetParent.
Context `{C : Collab}.

(** The world after the two [l.is.Get] calls of setParentID. *)
Lemma setParentID_run (id parent_ID : ID) (w : World) (img parent : Image) :
  is_Get (w_is w) id = inr img →
  is_Get (w_is w) parent_ID = inr parent →
  setParentID id parent_ID w
  = let w2 := set_trace (w_trace w ++ [EvImageGet id; EvImageGet parent_ID]) w in
    match checkValidParent img parent with
    | None => (inl IndexOutOfRange, w2)
    | Some false => (inl (InvalidParent (imgID parent) (imgID img)), w2)
    | Some true => imageSetParent id parent_ID w2
    end.
Proof.
  intros H1 H2. unfold setParentID, imageGet, bind, emit. simpl.
  rewrite H1. simpl. rewrite H2. unfold set_trace. simpl. rewrite <- app_assoc. simpl.
  destruct (checkValidParent img parent) as [[|]|]; reflexivity.
Qed.

Lemma commitParents_app (l1 l2 : list parentLink) (w : World) :
  commitParents (l1 ++ l2) w = bind (commitParents l1) (λ _, commitParents l2) w.
Proof.
  revert w. induction l1 as [|p rest IH]; intros w; simpl; [reflexivity|].
  unfold bind.
  destruct (if bool_decide (parentID p ≠ "") then _ else _) as [[e|[]] w1]; [reflexivity|].
  rewrite IH. reflexivity.
Qed.

Lemma loadManifest_parent_error (tmpDir : string) (progress : bool) (content : Bytes)
    (manifest : list manifestItem) (w1 w2 w3 : World) (v : LoopVars) (e : Error) :
  decodeManifest content = inr (Some manifest) →
  loadEntries tmpDir progress manifest initVars w1 = (inr v, w2) →
  commitParents (validatedParentLinks (parentLinks v)) w2 = (inl e, w3) →
  loadManifest tmpDir progress content w1 = (inl e, w3).
Proof.
  intros Hd He Hc. unfold loadManifest, bind, lift, ret. rewrite Hd. simpl.
  rewrite He, Hc. reflexivity.
Qed.

Lemma Load_manifest (fuel : nat) (quiet : bool) (w w1 w2 : World) (tmpDir : string)
    (content : Bytes) (r : Res unit) :
  stageArchive w = (inr (tmpDir, Opened content), w1) →
  loadManifest tmpDir (negb quiet) content w1 = (r, w2) →
  Load fuel quiet w
  = Some (match r with inl e => Some e | inr _ => None end,
          set_deferred [] (runDeferred (w_deferred w2) w2)).
Proof.
  intros Hs Hm. unfold Load, loadBody. rewrite Hs, Hm. reflexivity.
Qed.

(** C1.  For a pair that survives validatedParentLinks and whose images the
    store returns, setParentID calls SetParent only when checkValidParent
    answers true, and then the child's History is the parent's with zero or
    one appended entries, equal entry by entry on every field but Created,
    which is absent in both or present in both.  A pair that fails this
    makes setParentID return InvalidParent without a SetParent call, and
    Load as a whole returns that error. *)
Theorem setParentID_commits_history_extensions_only
    (fuel : nat) (quiet : bool) (w0 : World) (v : LoopVars) (w2 w : World)
    (l1 l2 : list parentLink) (p : parentLink) (img parent : Image) :
  reachesParentPhase quiet w0 v w2 →
  validatedParentLinks (parentLinks v) = l1 ++ p :: l2 →
  commitParents l1 w2 = (inr tt, w) →
  parentID p ≠ "" →
  is_Get (w_is w) (linkID p) = inr img →
  is_Get (w_is w) (parentID p) = inr parent →
  let w' := set_trace (w_trace w ++ [EvImageGet (linkID p); EvImageGet (parentID p)]) w in
  ∃ valid : bool,
    checkValidParent img parent = Some valid ∧
    (valid = true → extendsHistory (imgHistory img) (imgHistory parent) = true) ∧
    setParentID (linkID p) (parentID p) w
    = (if valid then imageSetParent (linkID p) (parentID p) w'
       else (inl (InvalidParent (imgID parent) (imgID img)), w')) ∧
    (extendsHistory (imgHistory img) (imgHistory parent) = false →
     valid = false ∧
     Load fuel quiet w0
     = Some (Some (InvalidParent (imgID parent) (imgID img)),
             set_deferred [] (runDeferred (w_deferred w') w'))).
Proof.
  intros (tmpDir & content & manifest & w1 & Hs & Hd & He) Hl Hc Hp Hg1 Hg2 w'.
  destruct (checkValidParent_no_panic img parent) as [valid Hv].
  exists valid. split; [done|]. split.
  { intros ->. by apply checkValidParent_extends. }
  assert (Hrun : setParentID (linkID p) (parentID p) w
                 = if valid then imageSetParent (linkID p) (parentID p) w'
                   else (inl (InvalidParent (imgID parent) (imgID img)), w')).
  { rewrite (setParentID_run _ _ _ _ _ Hg1 Hg2), Hv. by destruct valid. }
  split; [done|].
  intros Hext. assert (valid = false) as ->.
  { destruct valid; [|done]. apply checkValidParent_extends in Hv. congruence. }
  split; [done|].
  rewrite (Load_manifest fuel quiet w0 w1 w' tmpDir content
             (inl (InvalidParent (imgID parent) (imgID img))) Hs); [reflexivity|].
  eapply loadManifest_parent_error; [exact Hd|exact He|].
  rewrite Hl, commitParents_app. rewrite (bind_inr _ _ _ _ _ Hc). cbn [commitParents].
  rewrite bool_decide_eq_true_2 by done.
  apply bind_inl. exact Hrun.
Qed.

End SetParent.

(** ** Load: staging, the manifest, the loop over the entries *)

Section LoadFacts.
Context `{C : Collab}.

Lemma stageArchive_inv (w w1 : World) (tmpDir : string) (o : OpenResult) :
  stageArchive w = (inr (tmpDir, o), w1) →
  ∃ manifestPath,
    MkdirTemp = inr tmpDir ∧
    o = Open manifestPath ∧
    w1 = {| w_is := w_is w; w_lss := w_lss w; w_rs := w_rs w; w_out := w_out w;
            w_trace := w_trace w ++ [EvMkdirTemp; EvUntar tmpDir; EvOpen manifestPath];
            w_polls := w_polls w;
            w_deferred := DeferRemoveAll tmpDir :: w_deferred w |}.
Proof.
  unfold stageArchive, bind, emit, lift, defer, safePath, ret, fail. simpl.
  destruct MkdirTemp as [e|d]; [discriminate|]. simpl.
  destruct (Untar d) as [e|]; [discriminate|]. simpl.
  destruct (FollowSymlinkInScope _ _) as [e|mp]; [discriminate|]. simpl.
  intros [= <- <- <-]. exists mp. split; [reflexivity|]. split; [reflexivity|].
  unfold set_trace, set_deferred. simpl. rewrite <- !app_assoc. reflexivity.
Qed.

Lemma Load_unfold (fuel : nat) (quiet : bool) (w : World) :
  Load fuel quiet w
  = match loadBody fuel quiet w with
    | None => None
    | Some (r, w1) => Some (match r with inl e => Some e | inr _ => None end, afterDeferred w1)
    end.
Proof. reflexivity. Qed.

Lemma loadEntries_app (tmpDir : string) (progress : bool) (ms1 ms2 : list manifestItem)
    (v : LoopVars) (w : World) :
  loadEntries tmpDir progress (ms1 ++ ms2) v w
  = bind (loadEntries tmpDir progress ms1 v) (λ v', loadEntries tmpDir progress ms2 v') w.
Proof.
  revert v w. induction ms1 as [|m rest IH]; intros v w; simpl; [reflexivity|].
  unfold bind. destruct (loadEntry tmpDir progress m v w) as [[e|v1] w1]; [reflexivity|].
  rewrite IH. reflexivity.
Qed.

(** An error of the loop body is the error of Load. *)
Lemma Load_entry_error (fuel : nat) (quiet : bool) (w0 : World) (tmpDir : string)
    (before : list manifestItem) (m : manifestItem) (after : list manifestItem)
    (v : LoopVars) (w w' : World) (e : Error) :
  reachesEntry quiet w0 tmpDir before m after v w →
  loadEntry tmpDir (negb quiet) m v w = (inl e, w') →
  Load fuel quiet w0 = Some (Some e, afterDeferred w').
Proof.
  intros (content & w1 & Hs & Hd & He) Hm.
  rewrite Load_unfold. unfold loadBody. rewrite Hs.
  unfold loadManifest, bind, lift, ret. rewrite Hd. simpl.
  rewrite loadEntries_app. rewrite (bind_inr _ _ _ _ _ He). simpl.
  unfold bind. rewrite Hm. reflexivity.
Qed.

(** The loop body up to the tests on the decoded config. *)
Lemma loadEntry_run (tmpDir : string) (progress : bool) (m : manifestItem) (v : LoopVars)
    (w : World) (configPath : string) (config : Bytes) (img : Image) :
  ctxDone (w_polls w) = false →
  FollowSymlinkInScope (filepath_Join tmpDir (Config m)) tmpDir = inr configPath →
  ReadFile configPath = inr config →
  NewFromJSON config = inr img →
  let w1 := set_trace (w_trace w ++ [EvReadFile configPath]) (set_polls (S (w_polls w)) w) in
  (CheckOS (OperatingSystem img) = false →
   loadEntry tmpDir progress m v w
   = (inl (UnsupportedPlatform (OperatingSystem img) GOOS), w1)) ∧
  (CheckOS (OperatingSystem img) = true →
   (∀ matches, platformMatcher = Some matches → matches (imgPlatform img) = false →
    loadEntry tmpDir progress m v w = (inr v, w1)) ∧
   ((∀ matches, platformMatcher = Some matches → matches (imgPlatform img) = true) →
    length (Layers m) ≠ length (DiffIDs (imgRootFS img)) →
    loadEntry tmpDir progress m v w
    = (inl (LayerCountMismatch (length (Layers m)) (length (DiffIDs (imgRootFS img)))), w1))).
Proof.
  intros Hctx Hpath Hread Hjson w1.
  assert (Hpre : ∀ k : Bytes → Image → M LoopVars,
    bind pollCtx (λ _, bind (safePath tmpDir (Config m)) (λ configPath0,
      bind (readFile configPath0) (λ config0,
        bind (lift (NewFromJSON config0)) (k config0)))) w = k config img w1).
  { intros k. unfold bind, pollCtx, safePath, readFile, lift, emit, bind. simpl.
    rewrite Hctx. simpl. rewrite Hpath. simpl. rewrite Hread, Hjson. reflexivity. }
  split; [|intros Hos; split].
  - intros Hos. unfold loadEntry. etransitivity; [apply (Hpre (λ config0 img0, _))|]. simpl.
    rewrite Hos. reflexivity.
  - intros matches Hm Hno. unfold loadEntry. etransitivity; [apply (Hpre (λ config0 img0, _))|]. simpl.
    rewrite Hos, Hm, Hno. reflexivity.
  - intros Hm Hlen. unfold loadEntry. etransitivity; [apply (Hpre (λ config0 img0, _))|]. simpl.
    rewrite Hos. simpl.
    destruct platformMatcher as [matches|] eqn:Hpm.
    + rewrite (Hm matches eq_refl). simpl.
      rewrite bool_decide_eq_true_2 by done. reflexivity.
    + rewrite bool_decide_eq_true_2 by done. reflexivity.
Qed.

(** C5.  When the manifest file is there, a decoding to null makes Load
    return InvalidManifest, and a decoding to the empty sequence makes Load
    return nil; in both cases the three stores are as before and the only
    calls are the staging calls and the deferred RemoveAll, so no image is
    created, no layer registered and no tag assigned.  The empty manifest
    ends with the write of the empty imageIDsStr. *)
Theorem null_manifest_invalid_empty_manifest_loads_nothing
    (fuel : nat) (quiet : bool) (w w1 : World) (tmpDir : string) (content : Bytes) :
  stageArchive w = (inr (tmpDir, Opened content), w1) →
  w_deferred w = [] →
  let done (o : list OutMsg) :=
    {| w_is := w_is w; w_lss := w_lss w; w_rs := w_rs w; w_out := w_out w ++ o;
       w_trace := w_trace w1 ++ [EvRemoveAll tmpDir];
       w_polls := w_polls w; w_deferred := [] |} in
  validateManifest None = Some InvalidManifest ∧
  validateManifest (Some []) = None ∧
  (decodeManifest content = inr None →
   Load fuel quiet w = Some (Some InvalidManifest, done [])) ∧
  (decodeManifest content = inr (Some []) →
   Load fuel quiet w = Some (None, done [Line ""])) ∧
  Forall (λ e, isCreate e = false ∧ isAddTag e = false
               ∧ ∀ path chain src, e ≠ EvRegister path chain src)
         (drop (length (w_trace w)) (w_trace w1 ++ [EvRemoveAll tmpDir])).
Proof.
  intros Hs Hdef done.
  destruct (stageArchive_inv _ _ _ _ Hs) as (mp & _ & Ho & ->). simpl in *.
  split; [reflexivity|]. split; [reflexivity|]. split; [|split].
  - intros Hd. rewrite Load_unfold. unfold loadBody. rewrite Hs.
    unfold loadManifest, bind, lift. rewrite Hd. simpl.
    unfold afterDeferred, done, emit, set_trace, set_deferred. simpl.
    rewrite Hdef, app_nil_r. reflexivity.
  - intros Hd. rewrite Load_unfold. unfold loadBody. rewrite Hs.
    unfold loadManifest, bind, lift. rewrite Hd. simpl.
    unfold afterDeferred, done, emit, set_trace, set_deferred. simpl.
    rewrite Hdef. reflexivity.
  - rewrite <- app_assoc, drop_app_length. simpl.
    repeat constructor; discriminate.
Qed.

(** C9.  With runtime.GOOS equal to "windows", legacyLoad returns
    UnsupportedLegacyFormat at once: no ReadDir, no call on a store.  A Load
    that finds no manifest therefore returns that error with the stores as
    they were; its only calls are the staging calls and the deferred
    RemoveAll. *)
Theorem legacyLoad_unsupported_on_windows
    (fuel : nat) (quiet : bool) (w w1 : World) (tmpDir : string) :
  GOOS = "windows" →
  stageArchive w = (inr (tmpDir, NotExist), w1) →
  w_deferred w = [] →
  legacyLoad fuel tmpDir (negb quiet) w1 = Some (inl UnsupportedLegacyFormat, w1) ∧
  Load fuel quiet w
  = Some (Some UnsupportedLegacyFormat,
          {| w_is := w_is w; w_lss := w_lss w; w_rs := w_rs w; w_out := w_out w;
             w_trace := w_trace w1 ++ [EvRemoveAll tmpDir];
             w_polls := w_polls w; w_deferred := [] |}) ∧
  Forall (λ e, e ≠ EvReadDir tmpDir)
         (drop (length (w_trace w)) (w_trace w1 ++ [EvRemoveAll tmpDir])).
Proof.
  intros Hos Hs Hdef.
  assert (Hl : ∀ w', legacyLoad fuel tmpDir (negb quiet) w'
                     = Some (inl UnsupportedLegacyFormat, w')).
  { intros w'. unfold legacyLoad. rewrite bool_decide_eq_true_2 by done. reflexivity. }
  split; [apply Hl|].
  destruct (stageArchive_inv _ _ _ _ Hs) as (mp & _ & Ho & Hw1). split.
  - rewrite Load_unfold. unfold loadBody. rewrite Hs, Hl. subst w1.
    unfold afterDeferred, emit, set_trace, set_deferred. simpl.
    rewrite Hdef. reflexivity.
  - subst w1. simpl. rewrite <- app_assoc, drop_app_length.
    repeat constructor; discriminate.
Qed.

End LoadFacts.

Section Entries.
Context `{C : Collab}.

(** C10.  In the loop over the manifest the test of the image's operating
    system comes before the platform filter.  An entry whose config names an
    operating system the host cannot run makes the loop body, and with it
    Load, return the error whatever [platformMatcher] is; the filter itself
    only makes the body of a runnable entry that it rejects end with the
    loop variables unchanged and no call besides the read of the config. *)
Theorem unsupported_os_aborts_before_platform_filter
    (fuel : nat) (quiet : bool) (w0 : World) (tmpDir : string)
    (before : list manifestItem) (m : manifestItem) (after : list manifestItem)
    (v : LoopVars) (w : World) (configPath : string) (config : Bytes) (img : Image) :
  reachesEntry quiet w0 tmpDir before m after v w →
  ctxDone (w_polls w) = false →
  FollowSymlinkInScope (filepath_Join tmpDir (Config m)) tmpDir = inr configPath →
  ReadFile configPath = inr config →
  NewFromJSON config = inr img →
  let w1 := set_trace (w_trace w ++ [EvReadFile configPath]) (set_polls (S (w_polls w)) w) in
  (CheckOS (OperatingSystem img) = false →
   loadEntry tmpDir (negb quiet) m v w
   = (inl (UnsupportedPlatform (OperatingSystem img) GOOS), w1) ∧
   Load fuel quiet w0
   = Some (Some (UnsupportedPlatform (OperatingSystem img) GOOS), afterDeferred w1)) ∧
  (CheckOS (OperatingSystem img) = true →
   ∀ matches, platformMatcher = Some matches → matches (imgPlatform img) = false →
   loadEntry tmpDir (negb quiet) m v w = (inr v, w1)).
Proof.
  intros Hreach Hctx Hpath Hread Hjson w1.
  destruct (loadEntry_run tmpDir (negb quiet) m v w configPath config img
              Hctx Hpath Hread Hjson) as [Hbad Hgood].
  split.
  - intros Hos. split; [by apply Hbad|].
    eapply Load_entry_error; [exact Hreach|]. by apply Hbad.
  - intros Hos. apply (Hgood Hos).
Qed.

(** C6, as amended.  For a manifest entry that the loop reaches, whose
    config names a runnable operating system and which the platform filter
    (if any) accepts: when the number of layer paths differs from the number
    of diff ids of the config, the loop body, and with it Load, returns
    LayerCountMismatch; up to then the only call is the read of the config,
    so no layer of the entry is resolved and no image is created for it. *)
Theorem layer_count_mismatch_fails_accepted_entry
    (fuel : nat) (quiet : bool) (w0 : World) (tmpDir : string)
    (before : list manifestItem) (m : manifestItem) (after : list manifestItem)
    (v : LoopVars) (w : World) (configPath : string) (config : Bytes) (img : Image) :
  reachesEntry quiet w0 tmpDir before m after v w →
  ctxDone (w_polls w) = false →
  FollowSymlinkInScope (filepath_Join tmpDir (Config m)) tmpDir = inr configPath →
  ReadFile configPath = inr config →
  NewFromJSON config = inr img →
  CheckOS (OperatingSystem img) = true →
  (∀ matches, platformMatcher = Some matches → matches (imgPlatform img) = true) →
  length (Layers m) ≠ length (DiffIDs (imgRootFS img)) →
  let w1 := set_trace (w_trace w ++ [EvReadFile configPath]) (set_polls (S (w_polls w)) w) in
  let e := LayerCountMismatch (length (Layers m)) (length (DiffIDs (imgRootFS img))) in
  loadEntry tmpDir (negb quiet) m v w = (inl e, w1) ∧
  Load fuel quiet w0 = Some (Some e, afterDeferred w1) ∧
  w_is w1 = w_is w ∧ w_lss w1 = w_lss w ∧ w_rs w1 = w_rs w ∧
  w_deferred w1 = w_deferred w.
Proof.
  intros Hreach Hctx Hpath Hread Hjson Hos Hm Hlen w1 e.
  destruct (loadEntry_run tmpDir (negb quiet) m v w configPath config img
              Hctx Hpath Hread Hjson) as [_ Hgood].
  destruct (Hgood Hos) as [_ Hmis]. specialize (Hmis Hm Hlen).
  split; [exact Hmis|]. split; [|done].
  eapply Load_entry_error; [exact Hreach|exact Hmis].
Qed.

(** What setLoadedTag does, in one equation. *)
Lemma setLoadedTag_run (ref : Named) (imgID : ID) (w : World) :
  setLoadedTag ref imgID w
  = (inr (rs_AddTag (w_rs w) ref imgID true).1,
     {| w_is := w_is w; w_lss := w_lss w;
        w_rs := (rs_AddTag (w_rs w) ref imgID true).2;
        w_out := w_out w ++ match rs_Get (w_rs w) ref with
                            | inr prevID => if bool_decide (prevID ≠ imgID)
                                            then [Line (supersededNotice ref prevID)] else []
                            | inl _ => []
                            end;
        w_trace := w_trace w ++ [EvRefGet ref; EvAddTag ref imgID true];
        w_polls := w_polls w; w_deferred := w_deferred w |}).
Proof.
  unfold setLoadedTag, refGet, refAddTag, bind, emit, write, ret. simpl.
  destruct (rs_Get (w_rs w) ref) as [e|prevID]; simpl.
  - destruct (rs_AddTag (w_rs w) ref imgID true) as [r s]. simpl.
    unfold set_rs, set_trace. simpl. rewrite <- app_assoc, app_nil_r. reflexivity.
  - destruct (bool_decide (prevID ≠ imgID)); simpl;
      destruct (rs_AddTag (w_rs w) ref imgID true) as [r s]; simpl;
      unfold set_rs, set_trace; simpl; rewrite <- app_assoc, ?app_nil_r; reflexivity.
Qed.

(** C8.  setLoadedTag asks the reference store for the current target of
    the reference.  When there is one and it differs from the new id, one
    line arrives on the stream: "The image <name> already exists, renaming
    the old one with ID <previous id> to empty string"; otherwise nothing is
    written.  In every case AddTag is then called for the new id with force
    set, and the reference store is left as that call leaves it.  The image
    store and the layer store are not touched, so the image tagged before is
    not deleted.  With a reference store whose forced AddTag overwrites, the
    reference maps to the new id afterwards, and a second assignment of the
    same reference to another id names the first id in its warning line and
    wins in turn. *)
Theorem setLoadedTag_overwrites (ref : Named) (imgID : ID) (w : World) :
  let run := setLoadedTag ref imgID w in
  let notice (prevID : ID) :=
    Line ("The image " +:+ FamiliarString ref
          +:+ " already exists, renaming the old one with ID " +:+ prevID
          +:+ " to empty string" +:+ nl) in
  w_out run.2 = w_out w ++ match rs_Get (w_rs w) ref with
                           | inr prevID => if bool_decide (prevID ≠ imgID)
                                           then [notice prevID] else []
                           | inl _ => []
                           end ∧
  w_trace run.2 = w_trace w ++ [EvRefGet ref; EvAddTag ref imgID true] ∧
  w_rs run.2 = (rs_AddTag (w_rs w) ref imgID true).2 ∧
  run.1 = inr (rs_AddTag (w_rs w) ref imgID true).1 ∧
  w_is run.2 = w_is w ∧ w_lss run.2 = w_lss w ∧ w_deferred run.2 = w_deferred w ∧
  ((∀ s r i, rs_Get (rs_AddTag s r i true).2 r = inr i) →
   rs_Get (w_rs run.2) ref = inr imgID ∧
   ∀ newID, newID ≠ imgID →
     let again := setLoadedTag ref newID run.2 in
     w_out again.2 = w_out run.2 ++ [notice imgID] ∧
     rs_Get (w_rs again.2) ref = inr newID ∧
     w_is again.2 = w_is w).
Proof.
  intros run notice. unfold run. rewrite setLoadedTag_run. simpl.
  repeat (split; [reflexivity|]).
  intros Hforce. split; [apply Hforce|].
  intros newID Hne. rewrite setLoadedTag_run. simpl.
  rewrite !Hforce. rewrite bool_decide_eq_true_2 by done.
  repeat split; reflexivity.
Qed.

End Entries.

(** ** The loop over the layers *)

Section Layers.
Context `{C : Collab}.

(** loadLayer when the file opens, is measured and decompresses. *)
Lemma loadLayer_run (filename : string) (rootFS : RootFS) (id : string)
    (foreignSrc : Descriptor) (progress : bool) (w : World) (content inflated : Bytes)
    (size : Z) :
  Open filename = Opened content →
  (progress = true → Stat filename = inr size) →
  DecompressStream content = inr inflated →
  loadLayer filename rootFS id foreignSrc progress w
  = ((registerCall (w_lss w) inflated rootFS foreignSrc).1,
     {| w_is := w_is w; w_lss := (registerCall (w_lss w) inflated rootFS foreignSrc).2;
        w_rs := w_rs w;
        w_out := w_out w
                 ++ (if progress
                     then (λ c, Progress (TruncateID id) "Loading layer" c size)
                            <$> (progressDecompress content size ++ progressRegister content size)
                     else []);
        w_trace := w_trace w ++ [EvOpen filename]
                   ++ (if progress then [EvStat filename] else [])
                   ++ [EvDecompress filename;
                       EvRegister filename (RootFS_ChainID rootFS)
                         (if lss_Describable then Some foreignSrc else None)];
        w_polls := w_polls w; w_deferred := w_deferred w |}).
Proof.
  intros Hopen Hstat Hdec.
  unfold loadLayer, registerCall, readThrough, bind, emit, lift, ret. simpl. rewrite Hopen. simpl.
  destruct progress; simpl.
  - rewrite (Hstat eq_refl). simpl. rewrite Hdec. simpl.
    destruct lss_Describable; simpl.
    + destruct (lss_RegisterWithDescriptor _ _ _ _) as [r s]. simpl.
      unfold set_lss, set_trace. simpl. rewrite fmap_app, <- !app_assoc. reflexivity.
    + destruct (lss_Register _ _ _) as [r s]. simpl.
      unfold set_lss, set_trace. simpl. rewrite fmap_app, <- !app_assoc. reflexivity.
  - rewrite Hdec. simpl.
    destruct lss_Describable; simpl.
    + destruct (lss_RegisterWithDescriptor _ _ _ _) as [r s]. simpl.
      unfold set_lss, set_trace. simpl. rewrite app_nil_r, <- !app_assoc. reflexivity.
    + destruct (lss_Register _ _ _) as [r s]. simpl.
      unfold set_lss, set_trace. simpl. rewrite app_nil_r, <- !app_assoc. reflexivity.
Qed.

Lemma resolveLayer_result (tmpDir : string) (m : manifestItem) (progress : bool) (i : nat)
    (diffID : DiffID) (rootFS r' : RootFS) (w w' : World) :
  resolveLayer tmpDir m progress i diffID rootFS w = (inr r', w') →
  r' = Append rootFS diffID.
Proof.
  unfold resolveLayer. intros H.
  apply bind_inv_inr in H as (_ & wa & _ & H).
  apply bind_inv_inr in H as (layerPath & wb & _ & H).
  apply bind_inv_inr in H as (g & wc & _ & H).
  apply bind_inv_inr in H as (l & wd & _ & H).
  apply bind_inv_inr in H as (_ & we & _ & H).
  destruct (bool_decide _); [discriminate|]. by inversion H.
Qed.

Lemma resolveLayers_result (tmpDir : string) (m : manifestItem) (progress : bool) (i : nat)
    (todo : list DiffID) (rootFS r' : RootFS) (w w' : World) :
  resolveLayers tmpDir m progress i todo rootFS w = (inr r', w') →
  r' = {| rfType := rfType rootFS; DiffIDs := DiffIDs rootFS ++ todo |}.
Proof.
  revert i rootFS w. induction todo as [|d rest IH]; intros i rootFS w; simpl.
  - intros [= <- <-]. rewrite app_nil_r. by destruct rootFS.
  - intros H. apply bind_inv_inr in H as (r1 & w1 & H1 & H).
    apply resolveLayer_result in H1 as ->. apply IH in H as ->.
    simpl. by rewrite <- app_assoc.
Qed.

Lemma resolveLayers_app (tmpDir : string) (m : manifestItem) (progress : bool)
    (l1 l2 : list DiffID) :
  ∀ (i : nat) (rootFS : RootFS) (w : World),
  resolveLayers tmpDir m progress i (l1 ++ l2) rootFS w
  = bind (resolveLayers tmpDir m progress i l1 rootFS)
         (λ r, resolveLayers tmpDir m progress (i + length l1) l2 r) w.
Proof.
  induction l1 as [|d rest IH]; intros i rootFS w; simpl.
  { unfold bind, ret. by rewrite Nat.add_0_r. }
  unfold bind. destruct (resolveLayer tmpDir m progress i d rootFS w) as [[e|r1] w1];
    [reflexivity|].
  rewrite IH. unfold bind. by replace (S i + length rest) with (i + S (length rest)) by lia.
Qed.

(** One turn of the loop over the diff ids, after the poll and the path
    check: the lookup and what follows it. *)
Lemma resolveLayer_run (tmpDir : string) (m : manifestItem) (progress : bool) (i : nat)
    (diffID : DiffID) (rootFS : RootFS) (w : World) (layerFile layerPath : string) :
  ctxDone (w_polls w) = false →
  Layers m !! i = Some layerFile →
  FollowSymlinkInScope (filepath_Join tmpDir layerFile) tmpDir = inr layerPath →
  let chain := RootFS_ChainID (Append rootFS diffID) in
  let src := default emptyDescriptor (LayerSources m !! diffID) in
  let looked (s : LayerStore) :=
    {| w_is := w_is w; w_lss := s; w_rs := w_rs w; w_out := w_out w;
       w_trace := w_trace w ++ [EvLayerGet chain];
       w_polls := S (w_polls w); w_deferred := w_deferred w |} in
  resolveLayer tmpDir m progress i diffID rootFS w
  = match lss_Get (w_lss w) chain with
    | (inr l, s) => checkedLayer i diffID rootFS l (looked s)
    | (inl _, s) =>
        match loadLayer layerPath rootFS diffID src progress (looked s) with
        | (inl e', w') => (inl e', w')
        | (inr l, w') => checkedLayer i diffID rootFS l w'
        end
    end.
Proof.
  intros Hctx Hlayer Hpath chain src looked.
  unfold resolveLayer, checkedLayer, pollCtx, safePath, layerGet, lift, emit, defer,
    ret, fail, bind.
  simpl. rewrite Hctx, Hlayer. simpl. rewrite Hpath. simpl.
  fold chain. destruct (lss_Get (w_lss w) chain) as [[e|l] s]; simpl.
  - fold src.
    change (set_lss s (set_trace (w_trace w ++ [EvLayerGet chain])
                         (set_polls (S (w_polls w)) w))) with (looked s).
    destruct (loadLayer layerPath rootFS diffID src progress (looked s)) as [[e'|l] w'];
      [reflexivity|].
    simpl. destruct (bool_decide (diffID ≠ layer_DiffID l)); reflexivity.
  - destruct (bool_decide (diffID ≠ layer_DiffID l)); reflexivity.
Qed.

(** An error in the loop over the diff ids is the error of Load. *)
Lemma Load_layer_error (fuel : nat) (quiet : bool) (w0 : World) (tmpDir : string)
    (before : list manifestItem) (m : manifestItem) (after : list manifestItem)
    (config : Bytes) (img : Image) (finished : list DiffID) (diffID : DiffID)
    (todo : list DiffID) (rootFS : RootFS) (w w' : World) (e : Error) :
  reachesLayer quiet w0 tmpDir before m after config img finished diffID todo rootFS w →
  resolveLayer tmpDir m (negb quiet) (length finished) diffID rootFS w = (inl e, w') →
  Load fuel quiet w0 = Some (Some e, afterDeferred w').
Proof.
  intros (v & we & configPath & Hreach & Hctx & Hpath & Hread & Hjson & Hos & Hm & Hlen
          & Hids & Hdone) Hturn.
  eapply Load_entry_error; [exact Hreach|].
  unfold loadEntry, bind at 1, pollCtx. rewrite Hctx.
  unfold bind at 1, safePath, lift. rewrite Hpath.
  unfold bind at 1, readFile, bind at 1, emit, lift. simpl. rewrite Hread.
  unfold bind at 1, lift. rewrite Hjson. rewrite Hos. simpl.
  assert (Hpass : match platformMatcher with
                  | Some matches => negb (matches (imgPlatform img))
                  | None => false
                  end = false).
  { destruct platformMatcher as [matches|]; [|done]. by rewrite (Hm matches eq_refl). }
  rewrite Hpass. rewrite bool_decide_eq_false_2 by (intros Hne; by apply Hne).
  apply bind_inl. rewrite Hids, resolveLayers_app. rewrite (bind_inr _ _ _ _ _ Hdone).
  simpl. apply bind_inl. exact Hturn.
Qed.

(** C4.  The turn of the loop over the diff ids of an entry that Load has
    reached, when the context is not done and the layer path resolves.  The
    turns come in the order of the diff ids: the running rootFS holds the
    diff ids of the turns before.  The chain id of the running rootFS
    extended by the diff id is looked up in the layer store.  On a hit
    nothing else is called: no open, no decompression, no registration.  On
    a miss the staged layer file is opened, decompressed and registered on
    top of the chain of the running rootFS; an error of the registration is
    the error of Load.  In both cases the layer obtained is deferred for
    release and its diff id is compared with the expected one: a difference
    makes Load return DiffIDMismatch, equality continues with the extended
    rootFS.  A registered layer that passes the comparison is, by the layer
    store's rule for chain ids, the layer at the chain that was looked
    up. *)
Theorem resolveLayer_hit_skips_miss_registers_and_checks
    (fuel : nat) (quiet : bool) (w0 : World) (tmpDir : string)
    (before : list manifestItem) (m : manifestItem) (after : list manifestItem)
    (config : Bytes) (img : Image) (finished : list DiffID) (diffID : DiffID)
    (todo : list DiffID) (rootFS : RootFS) (w : World) (layerFile layerPath : string) :
  reachesLayer quiet w0 tmpDir before m after config img finished diffID todo rootFS w →
  ctxDone (w_polls w) = false →
  Layers m !! length finished = Some layerFile →
  FollowSymlinkInScope (filepath_Join tmpDir layerFile) tmpDir = inr layerPath →
  let i := length finished in
  let chain := RootFS_ChainID (Append rootFS diffID) in
  let src := default emptyDescriptor (LayerSources m !! diffID) in
  let run := resolveLayer tmpDir m (negb quiet) i diffID rootFS w in
  let looked := lss_Get (w_lss w) chain in
  let checked (l : Layer) : Prop :=
    w_deferred run.2 = DeferRelease l :: w_deferred w ∧
    (layer_DiffID l ≠ diffID →
     run.1 = inl (DiffIDMismatch i diffID (layer_DiffID l)) ∧
     Load fuel quiet w0
     = Some (Some (DiffIDMismatch i diffID (layer_DiffID l)), afterDeferred run.2)) ∧
    (layer_DiffID l = diffID → run.1 = inr (Append rootFS diffID)) in
  DiffIDs rootFS = finished ∧
  (∀ l, looked.1 = inr l →
     w_trace run.2 = w_trace w ++ [EvLayerGet chain] ∧
     w_lss run.2 = looked.2 ∧ w_out run.2 = w_out w ∧
     checked l) ∧
  (∀ e content inflated,
     looked.1 = inl e →
     Open layerPath = Opened content →
     (quiet = false → ∃ size, Stat layerPath = inr size) →
     DecompressStream content = inr inflated →
     let registered := registerCall looked.2 inflated rootFS src in
     w_trace run.2
     = w_trace w ++ [EvLayerGet chain; EvOpen layerPath]
       ++ (if quiet then [] else [EvStat layerPath])
       ++ [EvDecompress layerPath;
           EvRegister layerPath (RootFS_ChainID rootFS)
             (if lss_Describable then Some src else None)] ∧
     w_lss run.2 = registered.2 ∧
     match registered.1 with
     | inl e' => run.1 = inl e' ∧ Load fuel quiet w0 = Some (Some e', afterDeferred run.2)
     | inr l =>
         checked l ∧
         (layer_DiffID l = diffID → findsRegistered looked.2 inflated rootFS src →
          (lss_Get (w_lss run.2) chain).1 = inr l)
     end).
Proof.
  intros Hreach Hctx Hlayer Hpath i chain src run looked checked.
  pose proof (resolveLayer_run tmpDir m (negb quiet) i diffID rootFS w layerFile layerPath
                Hctx Hlayer Hpath) as Hrun.
  cbv zeta in Hrun. fold chain src in Hrun.
  change (resolveLayer tmpDir m (negb quiet) i diffID rootFS w) with run in Hrun.
  assert (Hcheck : ∀ l w1,
    run = checkedLayer i diffID rootFS l w1 → w_deferred w1 = w_deferred w →
    checked l).
  { intros l w1 Heq Hd. unfold checked. rewrite Heq. unfold checkedLayer. simpl.
    split; [by rewrite Hd|]. split.
    - intros Hne. rewrite bool_decide_eq_true_2 by (intros Heq'; by apply Hne).
      split; [reflexivity|].
      eapply (Load_layer_error fuel quiet w0 tmpDir before m after config img finished
                diffID todo rootFS w); [exact Hreach|].
      fold i. fold run. rewrite Heq. unfold checkedLayer.
      rewrite bool_decide_eq_true_2 by (intros Heq'; by apply Hne). reflexivity.
    - intros Heq'. by rewrite bool_decide_eq_false_2 by (intros Hne; by apply Hne). }
  split; [|split].
  - destruct Hreach as (v & we & configPath & _ & _ & _ & _ & _ & _ & _ & _ & _ & Hdone).
    by apply resolveLayers_result in Hdone as ->.
  - intros l Hhit. unfold looked in Hhit.
    destruct (lss_Get (w_lss w) chain) as [[e|l0] s] eqn:Hget; [discriminate|].
    simpl in Hhit. injection Hhit as ->.
    assert (Heq : run = checkedLayer i diffID rootFS l
                          {| w_is := w_is w; w_lss := s; w_rs := w_rs w; w_out := w_out w;
                             w_trace := w_trace w ++ [EvLayerGet chain];
                             w_polls := S (w_polls w); w_deferred := w_deferred w |})
      by exact Hrun.
    split; [by rewrite Heq|]. split; [unfold looked; rewrite Heq, ?Hget; reflexivity|].
    split; [by rewrite Heq|]. by eapply Hcheck.
  - intros e content inflated Hmiss Hopen Hstat Hdec registered. unfold looked in Hmiss.
    unfold registered, looked.
    destruct (lss_Get (w_lss w) chain) as [[e0|l0] s] eqn:Hget; [|discriminate].
    simpl in Hmiss. simpl.
    assert (Hsize : ∃ size, negb quiet = true → Stat layerPath = inr size).
    { destruct quiet; [by exists 0%Z|]. destruct (Hstat eq_refl) as [size Hsz]. by exists size. }
    destruct Hsize as [size Hsize].
    rewrite (loadLayer_run layerPath rootFS diffID src (negb quiet) _ content inflated size
               Hopen Hsize Hdec) in Hrun.
    simpl in Hrun.
    destruct (registerCall s inflated rootFS src) as [[e'|l] s'] eqn:Hreg; simpl in *.
    + split; [|split; [by rewrite Hrun|]].
      { rewrite Hrun. simpl. destruct quiet; simpl; by rewrite <- !app_assoc. }
      split; [by rewrite Hrun|].
      eapply (Load_layer_error fuel quiet w0 tmpDir before m after config img finished
                diffID todo rootFS w); [exact Hreach|].
      fold i. fold run. by rewrite Hrun.
    + split; [|split; [by rewrite Hrun|]].
      { rewrite Hrun. simpl. destruct quiet; simpl; by rewrite <- !app_assoc. }
      split; [by eapply Hcheck|].
      intros Heq Hfinds. rewrite Hrun. simpl.
      specialize (Hfinds l s' Hreg). by rewrite Heq in Hfinds.
Qed.

End Layers.

(** ** The legacy loader *)

Section Legacy.
Context `{C : Collab}.

Lemma legacyReadConfig_result (oldID sourceDir : string) (w : World) :
  (legacyReadConfig oldID sourceDir w).1 = legacyConfigOf sourceDir oldID.
Proof.
  unfold legacyReadConfig, legacyConfigOf, safePath, readFile, lift, emit, ret, fail, bind.
  simpl. destruct (FollowSymlinkInScope _ _) as [e|configPath]; [reflexivity|]. simpl.
  destruct (ReadFile configPath) as [e|imageJSON]; [reflexivity|].
  destruct (unmarshalLegacy imageJSON) as [e|img]; [reflexivity|].
  destruct (negb (CheckOS _)); reflexivity.
Qed.

(** An id that is in the load map is not loaded again. *)
Lemma legacyLoadImage_memo (fuel : nat) (oldID sourceDir : string) (progress : bool)
    (loadedMap : gmap string ID) (w : World) (imgID : ID) :
  loadedMap !! oldID = Some imgID →
  legacyLoadImage (S fuel) oldID sourceDir progress loadedMap w = Some (None, loadedMap, w).
Proof. intros H. simpl. rewrite H. reflexivity. Qed.

(** A load that returns nil leaves the id in the load map. *)
Lemma legacyLoadImage_loaded (fuel : nat) (oldID sourceDir : string) (progress : bool)
    (lm lm' : gmap string ID) (w w' : World) :
  legacyLoadImage fuel oldID sourceDir progress lm w = Some (None, lm', w') →
  is_Some (lm' !! oldID).
Proof.
  destruct fuel as [|f]; simpl; [discriminate|].
  destruct (lm !! oldID) as [i|] eqn:Hl.
  { intros [= <- <-]. rewrite Hl. by eexists. }
  destruct (legacyReadConfig oldID sourceDir w) as [[e|[imageJSON img]] w1]; [discriminate|].
  destruct (bool_decide (legacyParent img ≠ "")).
  - destruct (legacyParentLoop f _ _ _ _ _) as [[[[e|pid] lm2] w2]|]; try discriminate.
    destruct (legacyCreate _ _ _ _ _ _) as [[e|i] w3]; intros [= <- <-].
    rewrite lookup_insert_eq. by eexists.
  - destruct (legacyCreate _ _ _ _ _ _) as [[e|i] w3]; intros [= <- <-].
    rewrite lookup_insert_eq. by eexists.
Qed.

(** On a closed set of ids that all have a parent in the set and none of
    which is in the load map, neither legacyLoadImage nor its loop returns,
    whatever the bound: the load map is filled only after the parent has
    been resolved. *)
Lemma legacy_cycle_never_returns (sourceDir : string) (progress : bool)
    (P : string → Prop) :
  (∀ id, P id → ∃ p, legacyParentOf sourceDir id = Some p ∧ P p) →
  ∀ fuel id (lm : gmap string ID) w,
    P id → (∀ x, P x → lm !! x = None) →
    legacyLoadImage fuel id sourceDir progress lm w = None ∧
    legacyParentLoop fuel id sourceDir progress lm w = None.
Proof.
  intros Hclosed. induction fuel as [|f IH]; intros id lm w Hid Hlm; [by split|].
  split; simpl; rewrite (Hlm id Hid).
  - destruct (Hclosed id Hid) as (p & Hp & HPp).
    unfold legacyParentOf in Hp. rewrite <- (legacyReadConfig_result id sourceDir w) in Hp.
    destruct (legacyReadConfig id sourceDir w) as [[e|[imageJSON img]] w1]; [discriminate|].
    simpl in Hp. destruct (bool_decide (legacyParent img ≠ "")); [|discriminate].
    injection Hp as ->.
    by rewrite (proj2 (IH p lm w1 HPp Hlm)).
  - by rewrite (proj1 (IH id lm w Hid Hlm)).
Qed.

Lemma chainEnds_pos (n : nat) (sourceDir oldID : string) :
  chainEnds n sourceDir oldID = true → 1 ≤ n.
Proof. destruct n; [discriminate|lia]. Qed.

Lemma legacyLoadImage_returns (sourceDir : string) (progress : bool) (n : nat) :
  ∀ oldID, chainEnds n sourceDir oldID = true →
  ∀ fuel (lm : gmap string ID) w, 2 * n ≤ fuel →
  is_Some (legacyLoadImage fuel oldID sourceDir progress lm w).
Proof.
  induction n as [|n IH]; intros oldID Hends fuel lm w Hfuel; [discriminate|].
  destruct fuel as [|f]; [lia|]. simpl.
  destruct (lm !! oldID); [by eexists|].
  simpl in Hends. unfold legacyParentOf in Hends.
  rewrite <- (legacyReadConfig_result oldID sourceDir w) in Hends.
  destruct (legacyReadConfig oldID sourceDir w) as [[e|[imageJSON img]] w1]; [by eexists|].
  simpl in Hends.
  destruct (bool_decide (legacyParent img ≠ "")); [|by eexists].
  (* the loop on the parent *)
  destruct f as [|f']; [lia|]. simpl.
  destruct (lm !! legacyParent img) as [pid|] eqn:Hparent; [by eexists|].
  destruct (IH _ Hends f' lm w1 ltac:(lia)) as [[[r lm1] w2] Hrec]. rewrite Hrec.
  destruct r as [e|]; [by eexists|].
  apply legacyLoadImage_loaded in Hrec as [pid Hpid].
  apply chainEnds_pos in Hends.
  destruct f' as [|f'']; [lia|]. simpl. rewrite Hpid. by eexists.
Qed.

Lemma legacyLoadDirs_returns (fuel : nat) (tmpDir : string) (progress : bool) (n : nat)
    (dirs : list DirEntry) :
  Forall (λ d, IsDir d = true → chainEnds n tmpDir (deName d) = true) dirs →
  2 * n ≤ fuel →
  ∀ (lm : gmap string ID) w, is_Some (legacyLoadDirs fuel dirs tmpDir progress lm w).
Proof.
  intros Hall Hfuel. induction Hall as [|d rest Hd _ IH]; intros lm w; simpl; [by eexists|].
  destruct (IsDir d); [|apply IH].
  destruct (legacyLoadImage_returns tmpDir progress n _ (Hd eq_refl) fuel lm w Hfuel)
    as [[[r lm1] w1] ->].
  destruct r; [by eexists|apply IH].
Qed.

(** C3, as amended.  When every chain of parent references that starts at
    a directory of the staged archive ends, Load returns; and for any id whose
    chain ends within n images legacyLoadImage returns within 2n nested
    steps.  An id that is in the load map is answered from it at once.  (On
    a cycle of parent references the recursion does not end, see
    [legacy_cycle_never_returns]: an id enters the load map only when its
    own load is complete.) *)
Theorem legacy_load_returns_when_parent_chains_end (n fuel : nat) (quiet : bool) (w : World) :
  (∀ tmpDir dirs, MkdirTemp = inr tmpDir → ReadDir tmpDir = inr dirs →
     Forall (λ d, IsDir d = true → chainEnds n tmpDir (deName d) = true) dirs) →
  2 * n ≤ fuel →
  (∃ r, Load fuel quiet w = Some r) ∧
  (∀ sourceDir oldID progress (lm : gmap string ID) w',
     chainEnds n sourceDir oldID = true →
     ∃ r, legacyLoadImage fuel oldID sourceDir progress lm w' = Some r) ∧
  (∀ sourceDir oldID progress (lm : gmap string ID) w' imgID,
     lm !! oldID = Some imgID →
     legacyLoadImage (S fuel) oldID sourceDir progress lm w' = Some (None, lm, w')).
Proof.
  intros Hdirs Hfuel. split; [|split].
  - rewrite Load_unfold. unfold loadBody.
    destruct (stageArchive w) as [[e|[tmpDir o]] w1] eqn:Hs; [by eexists|].
    destruct (stageArchive_inv _ _ _ _ Hs) as (mp & Hmk & _ & _).
    destruct o as [content| |e];
      [destruct (loadManifest tmpDir (negb quiet) content w1) as [r w2]; by eexists
      | |by eexists].
    unfold legacyLoad. destruct (bool_decide (GOOS = "windows")); [by eexists|].
    unfold bind, emit, lift. simpl.
    destruct (ReadDir tmpDir) as [e|dirs] eqn:Hrd; [by eexists|].
    destruct (legacyLoadDirs_returns fuel tmpDir (negb quiet) n dirs (Hdirs _ _ Hmk Hrd) Hfuel
                ∅ (set_trace (w_trace w1 ++ [EvReadDir tmpDir]) w1)) as [[[r lm] w2] ->].
    destruct r; [by eexists|].
    destruct (legacyLoadTags tmpDir lm w2) as [r w3]. by eexists.
  - intros sourceDir oldID progress lm w' Hends.
    by apply legacyLoadImage_returns with (n := n).
  - intros. by eapply legacyLoadImage_memo.
Qed.

End Legacy.

(** ** Strings and counts *)

Lemma string_append_assoc (a b c : string) : (a +:+ b) +:+ c = a +:+ (b +:+ c).
Proof.
  induction a as [|x a IH]; [reflexivity|].
  change (String x ((a +:+ b) +:+ c) = String x (a +:+ (b +:+ c))). by rewrite IH.
Qed.

Lemma string_append_nil_r (a : string) : a +:+ "" = a.
Proof.
  induction a as [|x a IH]; [reflexivity|].
  change (String x (a +:+ "") = String x a). by rewrite IH.
Qed.


Lemma prefix_append (p s : string) : String.prefix p (p +:+ s) = true.
Proof.
  induction p as [|a p IH].
  - by destruct s.
  - change (String.prefix (String a p) (String a (p +:+ s)) = true).
    cbn [String.prefix]. destruct (Ascii.ascii_dec a a); [exact IH|done].
Qed.

Lemma isTagLine_loadedImageLine `{C : Collab} (ref : Named) :
  isTagLine (Line (loadedImageLine ref)) = true.
Proof. apply (prefix_append "Loaded image: "). Qed.

Lemma isNotice_supersededNotice `{C : Collab} (ref : Named) (prevID : ID) :
  isNotice (Line (supersededNotice ref prevID)) = true.
Proof. apply (prefix_append "The image "). Qed.

Lemma filter_none {A} (f g : A → bool) (l : list A) :
  forallb g l = true → (∀ x, g x = true → f x = false) → List.filter f l = [].
Proof.
  intros Hg Hfg. induction l as [|x l IH]; simpl in *; [done|].
  apply andb_true_iff in Hg as [Hx Hl]. by rewrite (Hfg x Hx), (IH Hl).
Qed.

Lemma forallb_impl {A} (f g : A → bool) (l : list A) :
  forallb f l = true → (∀ x, f x = true → g x = true) → forallb g l = true.
Proof.
  intros Hf Hfg. induction l as [|x l IH]; simpl in *; [done|].
  apply andb_true_iff in Hf as [Hx Hl]. by rewrite (Hfg x Hx), (IH Hl).
Qed.


(** ** Footprints: which calls a function makes, what it writes and defers *)

Section FootprintRules.
Context `{C : Collab}.
Context (P : Event → bool) (Q : OutMsg → bool).

Lemma grows_refl (d : bool) (w : World) : grows P Q d w w.
Proof. exists [], [], []. simpl. by rewrite !app_nil_r. Qed.

Lemma grows_trans (d : bool) (w1 w2 w3 : World) :
  grows P Q d w1 w2 → grows P Q d w2 w3 → grows P Q d w1 w3.
Proof.
  intros (t1 & o1 & l1 & Ht1 & Ho1 & Hd1 & Hp1 & Hq1 & Hn1)
         (t2 & o2 & l2 & Ht2 & Ho2 & Hd2 & Hp2 & Hq2 & Hn2).
  exists (t1 ++ t2), (o1 ++ o2), (l2 ++ l1).
  rewrite Ht2, Ht1, Ho2, Ho1, Hd2, Hd1, fmap_app, !app_assoc, !forallb_app, Hp1, Hp2, Hq1, Hq2.
  repeat split; try done. intros Hd. by rewrite (Hn1 Hd), (Hn2 Hd).
Qed.

Lemma grows_call (d : bool) (w w' : World) (e : Event) :
  P e = true →
  w_trace w' = w_trace w ++ [e] → w_out w' = w_out w → w_deferred w' = w_deferred w →
  grows P Q d w w'.
Proof.
  intros He Ht Ho Hd. exists [e], [], []. simpl. rewrite He, Ht, Ho, Hd, app_nil_r. done.
Qed.

Lemma grows_same (d : bool) (w w' : World) :
  w_trace w' = w_trace w → w_out w' = w_out w → w_deferred w' = w_deferred w →
  grows P Q d w w'.
Proof.
  intros Ht Ho Hd. exists [], [], []. simpl. rewrite Ht, Ho, Hd, !app_nil_r. done.
Qed.

Lemma within_ret (d : bool) {A} (a : A) : within P Q d (ret a).
Proof. intros w. apply grows_refl. Qed.

Lemma within_fail (d : bool) {A} (e : Error) : within P Q d (@fail C A e).
Proof. intros w. apply grows_refl. Qed.

Lemma within_lift (d : bool) {A} (r : Res A) : within P Q d (lift r).
Proof. intros w. apply grows_refl. Qed.

Lemma within_bind (d : bool) {A B} (c : M A) (k : A → M B) :
  within P Q d c → (∀ a, within P Q d (k a)) → within P Q d (bind c k).
Proof.
  intros Hc Hk w. unfold bind. specialize (Hc w).
  destruct (c w) as [[e|a] w1]; simpl in *; [done|].
  eapply grows_trans; [exact Hc|apply Hk].
Qed.

Lemma within_run (d : bool) {A} (c : M A) (w w' : World) (r : Res A) :
  within P Q d c → c w = (r, w') → grows P Q d w w'.
Proof. intros Hc Hrun. specialize (Hc w). by rewrite Hrun in Hc. Qed.

Lemma within_emit (d : bool) (e : Event) : P e = true → within P Q d (emit e).
Proof. intros He w. by apply (grows_call d _ _ e). Qed.

Lemma within_write (d : bool) (s : string) : Q (Line s) = true → within P Q d (write s).
Proof.
  intros Hs w. exists [], [Line s], []. simpl. rewrite Hs, !app_nil_r. done.
Qed.

Lemma within_readThrough (d : bool) (r : LayerReader) (currents : Z → list Z) :
  (∀ size id action c, r = ProgressReader size id action →
                       Q (Progress id action c size) = true) →
  within P Q d (readThrough r currents).
Proof.
  intros HQ. destruct r as [|size id action]; [apply within_ret|].
  intros w. exists [], ((λ c, Progress id action c size) <$> currents size), []. simpl.
  rewrite !app_nil_r. repeat split; try done.
  induction (currents size) as [|c cs IH]; [done|].
  rewrite fmap_cons. cbn [forallb]. by rewrite (HQ size id action c eq_refl), IH.
Qed.

Lemma within_defer (l : Layer) : within P Q true (defer (DeferRelease l)).
Proof.
  intros w. exists [], [], [l]. simpl. rewrite !app_nil_r. done.
Qed.

Lemma within_pollCtx (d : bool) : within P Q d pollCtx.
Proof. intros w. unfold pollCtx. destruct (ctxDone _); by apply grows_same. Qed.

Lemma within_safePath (d : bool) (base path : string) : within P Q d (safePath base path).
Proof. apply within_lift. Qed.

Lemma within_readFile (d : bool) (path : string) :
  P (EvReadFile path) = true → within P Q d (readFile path).
Proof. intros H. apply within_bind; [by apply within_emit|intros _; apply within_lift]. Qed.

Lemma within_imageCreate (d : bool) (config : Bytes) :
  P (EvCreate config) = true → within P Q d (imageCreate config).
Proof.
  intros H. apply within_bind; [by apply within_emit|intros _].
  intros w. simpl. destruct (is_Create (w_is w) config). by apply grows_same.
Qed.

Lemma within_imageGet (d : bool) (id : ID) :
  P (EvImageGet id) = true → within P Q d (imageGet id).
Proof.
  intros H. apply within_bind; [by apply within_emit|intros _].
  intros w. by apply grows_same.
Qed.

Lemma within_imageSetParent (d : bool) (id parent : ID) :
  P (EvSetParent id parent) = true → within P Q d (imageSetParent id parent).
Proof.
  intros H. apply within_bind; [by apply within_emit|intros _].
  intros w. simpl. destruct (is_SetParent (w_is w) id parent). by apply grows_same.
Qed.

Lemma within_layerGet (d : bool) (chain : ChainID) :
  P (EvLayerGet chain) = true → within P Q d (layerGet chain).
Proof.
  intros H. apply within_bind; [by apply within_emit|intros _].
  intros w. simpl. destruct (lss_Get (w_lss w) chain). by apply grows_same.
Qed.

Lemma within_layerRelease (d : bool) (l : Layer) :
  P (EvRelease (layer_DiffID l)) = true → within P Q d (layerRelease l).
Proof.
  intros H. apply within_bind; [by apply within_emit|intros _].
  intros w. simpl. destruct (lss_Release (w_lss w) l). by apply grows_same.
Qed.

(** [bind] when the values [c] can return are known to satisfy [Φ]. *)
Lemma within_bind_on (d : bool) {A B} (Φ : A → Prop) (c : M A) (k : A → M B) :
  within P Q d c → (∀ w a w', c w = (inr a, w') → Φ a) →
  (∀ a, Φ a → within P Q d (k a)) → within P Q d (bind c k).
Proof.
  intros Hc HΦ Hk w. unfold bind. specialize (Hc w). specialize (HΦ w).
  destruct (c w) as [[e|a] w1]; simpl in *; [done|].
  eapply grows_trans; [exact Hc|]. apply Hk. by eapply HΦ.
Qed.

(** loadLayer puts on the stream only reports of its progress reader, and
    none when no progress is reported. *)
Lemma within_loadLayer (d : bool) filename rootFS id foreignSrc progress :
  (∀ e, isLayerIO e = true → P e = true) →
  (progress = true → ∀ size c, Q (Progress (TruncateID id) "Loading layer" c size) = true) →
  within P Q d (loadLayer filename rootFS id foreignSrc progress).
Proof.
  intros HP HQ. unfold loadLayer.
  apply within_bind; [by apply within_emit, HP|intros _].
  apply within_bind; [destruct (Open filename); auto using within_ret, within_fail|intros rawTar].
  apply (within_bind_on d
           (λ r, r = RawReader ∨
                 (progress = true ∧
                  ∃ size, r = ProgressReader size (TruncateID id) "Loading layer"))).
  { destruct progress; [|apply within_ret].
    apply within_bind; [by apply within_emit, HP|intros _].
    apply within_bind; [apply within_lift|intros size; apply within_ret]. }
  { intros w r w'. destruct progress.
    - unfold bind, emit, lift, ret. simpl. destruct (Stat filename) as [e|size]; [discriminate|].
      intros [= <- _]. right. split; [done|]. by exists size.
    - intros [= <- _]. by left. }
  intros r Hr.
  assert (Hread : ∀ currents, within P Q d (readThrough r currents)).
  { intros currents. apply within_readThrough. intros size i a c ->.
    destruct Hr as [Hr|(Hp & size' & Hr)]; [discriminate|].
    injection Hr as -> -> ->. by apply HQ. }
  apply within_bind; [by apply within_emit, HP|intros _].
  apply within_bind; [apply Hread|intros _].
  apply within_bind; [apply within_lift|intros inflated].
  destruct lss_Describable;
    (apply within_bind; [by apply within_emit, HP|intros _];
     apply within_bind; [apply Hread|intros _]).
  - intros w. simpl. destruct (lss_RegisterWithDescriptor _ _ _ _). by apply grows_same.
  - intros w. simpl. destruct (lss_Register _ _ _). by apply grows_same.
Qed.

Lemma within_setLoadedTag (d : bool) (ref : Named) (imgID : ID) :
  (∀ e, isTagCall e = true → P e = true) →
  (∀ prevID, Q (Line (supersededNotice ref prevID)) = true) →
  within P Q d (setLoadedTag ref imgID).
Proof.
  intros HP HQ. unfold setLoadedTag, refGet, refAddTag.
  apply within_bind.
  { apply within_bind; [by apply within_emit, HP|intros _]. intros w. by apply grows_same. }
  intros g. apply within_bind.
  { destruct g as [e|prevID]; [apply within_ret|].
    destruct (bool_decide _); [by apply within_write|apply within_ret]. }
  intros _. apply within_bind; [by apply within_emit, HP|intros _].
  intros w. simpl. destruct (rs_AddTag (w_rs w) ref imgID true). by apply grows_same.
Qed.

End FootprintRules.

Section FootprintsOfLoad.
Context `{C : Collab}.
Context (P : Event → bool) (Q : OutMsg → bool) (progress : bool).
Context (HQp : progress = true →
               ∀ id size c, Q (Progress (TruncateID id) "Loading layer" c size) = true).

Local Ltac call HP := apply HP; reflexivity.
Local Ltac sub HP := let e := fresh "e" in let He := fresh "He" in
  intros e He; apply HP; destruct e; done.

Lemma within_resolveLayer tmpDir m i diffID rootFS :
  (∀ e, isLayerIO e || isLayerGet e = true → P e = true) →
  within P Q true (resolveLayer tmpDir m progress i diffID rootFS).
Proof.
  intros HP. unfold resolveLayer.
  apply within_bind; [apply within_pollCtx|intros _].
  apply within_bind.
  { destruct (Layers m !! i); [apply within_safePath|apply within_fail]. }
  intros layerPath. apply within_bind; [apply within_layerGet; call HP|intros g].
  apply within_bind.
  { destruct g; [apply within_loadLayer; [sub HP|intros Hp size c; by apply HQp]
                |apply within_ret]. }
  intros l. apply within_bind; [apply within_defer|intros _].
  destruct (bool_decide _); [apply within_fail|apply within_ret].
Qed.

Lemma within_resolveLayers tmpDir m todo :
  (∀ e, isLayerIO e || isLayerGet e = true → P e = true) →
  ∀ i rootFS, within P Q true (resolveLayers tmpDir m progress i todo rootFS).
Proof.
  intros HP. induction todo as [|d rest IH]; intros i rootFS; simpl; [apply within_ret|].
  apply within_bind; [by apply within_resolveLayer|intros r; apply IH].
Qed.

Lemma within_tagImage (d : bool) imgID repoTag :
  (∀ e, isTagCall e = true → P e = true) →
  (∀ ref prevID, Q (Line (supersededNotice ref prevID)) = true) →
  (∀ ref, Q (Line (loadedImageLine ref)) = true) →
  within P Q d (tagImage imgID repoTag).
Proof.
  intros HP HQ1 HQ2. unfold tagImage.
  apply within_bind; [apply within_lift|intros named].
  destruct (refTag named); [|apply within_fail].
  apply within_bind; [by apply within_setLoadedTag|intros _]. by apply within_write.
Qed.

Lemma within_tagLoop (d : bool) imgID tags :
  (∀ e, isTagCall e = true → P e = true) →
  (∀ ref prevID, Q (Line (supersededNotice ref prevID)) = true) →
  (∀ ref, Q (Line (loadedImageLine ref)) = true) →
  ∀ n, within P Q d (tagLoop imgID tags n).
Proof.
  intros HP HQ1 HQ2. induction tags as [|tag rest IH]; intros n; simpl; [apply within_ret|].
  apply within_bind; [by apply within_tagImage|intros _; apply IH].
Qed.

Lemma within_loadEntry tmpDir m v :
  (∀ e, isManifestCall e = true → P e = true) →
  (∀ ref prevID, Q (Line (supersededNotice ref prevID)) = true) →
  (∀ ref, Q (Line (loadedImageLine ref)) = true) →
  within P Q true (loadEntry tmpDir progress m v).
Proof.
  intros HP HQ1 HQ2. unfold loadEntry.
  apply within_bind; [apply within_pollCtx|intros _].
  apply within_bind; [apply within_safePath|intros configPath].
  apply within_bind; [apply within_readFile; call HP|intros config].
  apply within_bind; [apply within_lift|intros img].
  destruct (negb (CheckOS _)); [apply within_fail|].
  destruct (match platformMatcher with Some _ => _ | None => _ end); [apply within_ret|].
  destruct (bool_decide _); [apply within_fail|].
  apply within_bind; [apply within_resolveLayers; sub HP|intros _].
  apply within_bind; [apply within_imageCreate; call HP|intros imgID].
  apply within_bind; [apply within_tagLoop; try done; sub HP|intros count].
  apply within_bind; [apply within_emit; call HP|intros _]. apply within_ret.
Qed.

Lemma within_loadEntries tmpDir manifest :
  (∀ e, isManifestCall e = true → P e = true) →
  (∀ ref prevID, Q (Line (supersededNotice ref prevID)) = true) →
  (∀ ref, Q (Line (loadedImageLine ref)) = true) →
  ∀ v, within P Q true (loadEntries tmpDir progress manifest v).
Proof.
  intros HP HQ1 HQ2. induction manifest as [|m rest IH]; intros v; simpl; [apply within_ret|].
  apply within_bind; [by apply within_loadEntry|intros v'; apply IH].
Qed.

Lemma within_setParentID (d : bool) id parent :
  (∀ e, isParentCall e = true → P e = true) →
  within P Q d (setParentID id parent).
Proof.
  intros HP. unfold setParentID.
  apply within_bind; [apply within_imageGet; call HP|intros img].
  apply within_bind; [apply within_imageGet; call HP|intros p].
  destruct (checkValidParent img p) as [[|]|]; try apply within_fail.
  apply within_imageSetParent; call HP.
Qed.

Lemma within_commitParents (d : bool) links :
  (∀ e, isParentCall e = true → P e = true) →
  within P Q d (commitParents links).
Proof.
  intros HP. induction links as [|p rest IH]; simpl; [apply within_ret|].
  apply within_bind; [|intros _; exact IH].
  destruct (bool_decide _); [by apply within_setParentID|apply within_ret].
Qed.

Lemma within_loadManifest tmpDir content :
  (∀ e, isManifestCall e = true → P e = true) →
  (∀ s, Q (Line s) = true) →
  within P Q true (loadManifest tmpDir progress content).
Proof.
  intros HP HQ. unfold loadManifest.
  apply within_bind; [apply within_lift|intros manifest].
  apply within_bind.
  { destruct (validateManifest manifest); [apply within_fail|apply within_ret]. }
  intros _. apply within_bind; [by apply within_loadEntries|intros v].
  apply within_bind; [apply within_commitParents; sub HP|intros _].
  destruct (bool_decide _); [by apply within_write|apply within_ret].
Qed.

End FootprintsOfLoad.

Section FootprintsOfLegacy.
Context `{C : Collab}.
Context (P : Event → bool) (Q : OutMsg → bool) (progress : bool).
Context (HP : ∀ e, isLegacyCall e = true → P e = true).
Context (HQ : ∀ ref prevID, Q (Line (supersededNotice ref prevID)) = true).
Context (HQp : progress = true →
               ∀ id size c, Q (Progress (TruncateID id) "Loading layer" c size) = true).

Local Ltac call := apply HP; reflexivity.
Local Ltac sub := let e := fresh "e" in let He := fresh "He" in
  intros e He; apply HP; destruct e; done.

Lemma within_legacyReadConfig oldID sourceDir :
  within P Q false (legacyReadConfig oldID sourceDir).
Proof.
  unfold legacyReadConfig.
  apply within_bind; [apply within_safePath|intros configPath].
  apply within_bind; [apply within_readFile; call|intros imageJSON].
  apply within_bind; [apply within_lift|intros img].
  destruct (negb (CheckOS _)); [apply within_fail|apply within_ret].
Qed.

Lemma within_legacyCreate oldID sourceDir imageJSON parent_ID :
  within P Q false (legacyCreate oldID sourceDir imageJSON parent_ID progress).
Proof.
  unfold legacyCreate.
  apply within_bind.
  { destruct (bool_decide (parent_ID ≠ "")); [|apply within_ret].
    apply within_bind; [apply within_imageGet; call|intros parentImg; apply within_ret]. }
  intros [rootFS history].
  apply within_bind; [apply within_safePath|intros layerPath].
  apply within_bind; [apply within_loadLayer; [sub|intros Hp size c; by apply HQp]
                     |intros newLayer].
  apply within_bind; [apply within_lift|intros h].
  apply within_bind; [apply within_lift|intros config].
  apply within_bind; [apply within_imageCreate; call|intros imgID].
  apply within_bind; [apply within_layerRelease; call|intros released].
  apply within_bind; [destruct released; [apply within_fail|apply within_ret]|intros _].
  apply within_bind; [|intros _; apply within_ret].
  destruct (bool_decide _); [apply within_imageSetParent; call|apply within_ret].
Qed.

Lemma grows_legacyLoadImage (sourceDir : string) :
  ∀ fuel oldID (lm : gmap string ID) w,
    (∀ r lm' w', legacyLoadImage fuel oldID sourceDir progress lm w = Some (r, lm', w') →
                 grows P Q false w w') ∧
    (∀ r lm' w', legacyParentLoop fuel oldID sourceDir progress lm w = Some (r, lm', w') →
                 grows P Q false w w').
Proof.
  induction fuel as [|f IH]; intros oldID lm w; [by split|]. split; simpl.
  - intros r lm' w'. destruct (lm !! oldID).
    { intros [= <- <- <-]. apply grows_refl. }
    pose proof (within_legacyReadConfig oldID sourceDir w) as Hread.
    destruct (legacyReadConfig oldID sourceDir w) as [[e|[imageJSON img]] w1]; simpl in Hread.
    { by intros [= <- <- <-]. }
    assert (Hfin : ∀ parent_ID (lm2 : gmap string ID) w2 r lm' w',
      (match legacyCreate oldID sourceDir imageJSON parent_ID progress w2 with
       | (inl e, w3) => (Some e, lm2, w3)
       | (inr imgID, w3) => (None, <[oldID := imgID]> lm2, w3)
       end) = (r, lm', w') → grows P Q false w2 w').
    { intros parent_ID lm2 w2 r0 lm0 w0.
      pose proof (within_legacyCreate oldID sourceDir imageJSON parent_ID w2) as Hc.
      destruct (legacyCreate _ _ _ _ _ w2) as [[e|imgID] w3]; simpl in Hc;
        by intros [= <- <- <-]. }
    destruct (bool_decide (legacyParent img ≠ "")).
    + destruct (legacyParentLoop f _ _ _ _ w1) as [[[[e|pid] lm2] w2]|] eqn:Hloop;
        [| |discriminate].
      * intros [= <- <- <-]. eapply grows_trans; [exact Hread|].
        eapply (proj2 (IH _ _ _)); exact Hloop.
      * intros [= Hres]. eapply grows_trans; [exact Hread|].
        eapply grows_trans; [eapply (proj2 (IH _ _ _)); exact Hloop|].
        eapply Hfin; exact Hres.
    + intros [= Hres]. eapply grows_trans; [exact Hread|]. eapply Hfin; exact Hres.
  - intros r lm' w'. destruct (lm !! oldID).
    { intros [= <- <- <-]. apply grows_refl. }
    destruct (legacyLoadImage f oldID sourceDir progress lm w) as [[[[e|] lm1] w1]|] eqn:Hrec;
      [| |discriminate].
    + intros [= <- <- <-]. eapply (proj1 (IH _ _ _)); exact Hrec.
    + intros Hloop. eapply grows_trans; [eapply (proj1 (IH _ _ _)); exact Hrec|].
      eapply (proj2 (IH _ _ _)); exact Hloop.
Qed.

Lemma grows_legacyLoadDirs (fuel : nat) (tmpDir : string) (dirs : list DirEntry) :
  ∀ (lm : gmap string ID) w r lm' w',
    legacyLoadDirs fuel dirs tmpDir progress lm w = Some (r, lm', w') → grows P Q false w w'.
Proof.
  induction dirs as [|d rest IH]; intros lm w r lm' w'; simpl.
  { intros [= <- <- <-]. apply grows_refl. }
  destruct (IsDir d); [|apply IH].
  destruct (legacyLoadImage fuel (deName d) tmpDir progress lm w) as [[[[e|] lm1] w1]|] eqn:H1;
    [| |discriminate].
  - intros [= <- <- <-]. eapply (proj1 (grows_legacyLoadImage _ _ _ _ _)); exact H1.
  - intros H2. eapply grows_trans;
      [eapply (proj1 (grows_legacyLoadImage _ _ _ _ _)); exact H1|eapply IH; exact H2].
Qed.

Lemma within_legacyTagLoop (lm : gmap string ID) (name : string) tagMap :
  within P Q false (legacyTagLoop lm name tagMap).
Proof.
  induction tagMap as [|[tag oldID] rest IH]; simpl; [apply within_ret|].
  apply within_bind; [destruct (lm !! oldID); [apply within_ret|apply within_fail]|intros imgID].
  apply within_bind; [apply within_lift|intros named].
  apply within_bind; [apply within_lift|intros ref].
  apply within_bind; [apply within_setLoadedTag; [sub|apply HQ]|intros _; exact IH].
Qed.

Lemma within_legacyLoadTags (tmpDir : string) (lm : gmap string ID) :
  within P Q false (legacyLoadTags tmpDir lm).
Proof.
  unfold legacyLoadTags.
  apply within_bind; [apply within_safePath|intros path].
  apply within_bind; [apply within_emit; call|intros _].
  apply within_bind; [destruct (Open path); auto using within_ret, within_fail|intros file].
  apply within_bind; [apply within_lift|intros repositories].
  induction repositories as [|[name tagMap] rest IH]; simpl; [apply within_ret|].
  apply within_bind; [apply within_legacyTagLoop|intros _; exact IH].
Qed.

Lemma grows_legacyLoad (fuel : nat) (tmpDir : string) (w w' : World) (r : Res unit) :
  legacyLoad fuel tmpDir progress w = Some (r, w') → grows P Q false w w'.
Proof.
  unfold legacyLoad. destruct (bool_decide (GOOS = "windows")).
  { intros [= <- <-]. apply grows_refl. }
  assert (Hrd : within P Q false (bind (emit (EvReadDir tmpDir)) (λ _, lift (ReadDir tmpDir)))).
  { apply within_bind; [apply within_emit; call|intros _; apply within_lift]. }
  specialize (Hrd w).
  destruct (bind (emit (EvReadDir tmpDir)) (λ _, lift (ReadDir tmpDir)) w) as [[e|dirs] w1];
    simpl in Hrd.
  { by intros [= <- <-]. }
  destruct (legacyLoadDirs fuel dirs tmpDir progress ∅ w1) as [[[[e|] lm] w2]|] eqn:Hdirs;
    [| |discriminate].
  - intros [= <- <-]. eapply grows_trans; [exact Hrd|].
    eapply grows_legacyLoadDirs; exact Hdirs.
  - intros Htags. destruct (legacyLoadTags tmpDir lm w2) as [r2 w3] eqn:Hrun.
    injection Htags as <- <-. eapply grows_trans; [exact Hrd|].
    eapply grows_trans; [eapply grows_legacyLoadDirs; exact Hdirs|].
    exact (within_run P Q false _ _ _ _ (within_legacyLoadTags tmpDir lm) Hrun).
Qed.

End FootprintsOfLegacy.

(** ** What Load writes *)

Lemma notice_not_tag_line (m : OutMsg) : isNotice m = true → isTagLine m = false.
Proof.
  destruct m as [s|]; [|done]. destruct s as [|c s]; [done|].
  destruct c as [[] [] [] [] [] [] [] []]; try done.
Qed.

Lemma notice_not_loaded (m : OutMsg) : isNotice m = true → saysLoaded m = false.
Proof.
  destruct m as [s|]; [|done]. destruct s as [|c s]; [done|].
  destruct c as [[] [] [] [] [] [] [] []]; try done.
Qed.

Lemma progress_not_tag_line (m : OutMsg) : isProgress m = true → isTagLine m = false.
Proof. by destruct m. Qed.

Section Exact.
Context `{C : Collab}.

Lemma runDeferred_spec (ds : list Deferred) :
  ∀ w, w_trace (runDeferred ds w) = w_trace w ++ (deferredCall <$> ds) ∧
       w_out (runDeferred ds w) = w_out w ∧
       w_is (runDeferred ds w) = w_is w ∧
       w_rs (runDeferred ds w) = w_rs w.
Proof.
  induction ds as [|d rest IH]; intros w; simpl.
  { by rewrite app_nil_r. }
  destruct d as [dir|l]; simpl.
  - destruct (IH (set_trace (w_trace w ++ [EvRemoveAll dir]) w)) as (Ht & Ho & Hi & Hr).
    rewrite Ht, Ho, Hi, Hr. simpl. by rewrite <- app_assoc.
  - unfold layerRelease, bind, emit. simpl.
    destruct (lss_Release (w_lss w) l) as [r s]. simpl.
    destruct (IH (set_lss s (set_trace (w_trace w ++ [EvRelease (layer_DiffID l)]) w)))
      as (Ht & Ho & Hi & Hr).
    rewrite Ht, Ho, Hi, Hr. simpl. by rewrite <- app_assoc.
Qed.

Lemma afterDeferred_spec (w : World) :
  w_trace (afterDeferred w) = w_trace w ++ (deferredCall <$> w_deferred w) ∧
  w_out (afterDeferred w) = w_out w ∧
  w_is (afterDeferred w) = w_is w ∧
  w_rs (afterDeferred w) = w_rs w.
Proof. unfold afterDeferred. simpl. apply runDeferred_spec. Qed.

(** The deferred calls are releases and removals. *)
Lemma deferred_calls_filter (f : Event → bool) (ds : list Deferred) :
  (∀ d, f (deferredCall d) = false) → List.filter f (deferredCall <$> ds) = [].
Proof.
  intros Hf. induction ds as [|d ds IH]; [done|].
  rewrite fmap_cons. cbn [List.filter]. by rewrite Hf.
Qed.

(** One turn of the loop over the repo tags. *)
Lemma tagImage_outcome (imgID : ID) (repoTag : string) (w : World) :
  match ParseNormalizedNamed repoTag with
  | inl e => tagImage imgID repoTag w = (inl e, w)
  | inr ref =>
      match refTag ref with
      | None => tagImage imgID repoTag w = (inl (InvalidTag repoTag), w)
      | Some _ =>
          ∃ n, forallb isNotice n = true ∧
               (tagImage imgID repoTag w).1 = inr tt ∧
               w_trace (tagImage imgID repoTag w).2
               = w_trace w ++ [EvRefGet ref; EvAddTag ref imgID true] ∧
               w_out (tagImage imgID repoTag w).2
               = w_out w ++ n ++ [Line (loadedImageLine ref)] ∧
               w_deferred (tagImage imgID repoTag w).2 = w_deferred w
      end
  end.
Proof.
  unfold tagImage, bind, lift, fail. simpl.
  destruct (ParseNormalizedNamed repoTag) as [e|ref]; [reflexivity|]. simpl.
  destruct (refTag ref); [|reflexivity].
  rewrite setLoadedTag_run. unfold write. simpl.
  eexists. split; [|split; [reflexivity|split; [reflexivity|split;
    [by rewrite <- app_assoc|reflexivity]]]].
  destruct (rs_Get (w_rs w) ref) as [e|prevID]; [done|].
  destruct (bool_decide (prevID ≠ imgID)); [|done].
  change (isNotice (Line (supersededNotice ref prevID)) && true = true).
  by rewrite isNotice_supersededNotice.
Qed.

(** The outcome of the loop over the repo tags. *)
Lemma tagLoop_result (imgID : ID) (tags : list string) :
  ∀ (n : nat) (w : World),
  ∃ t o,
    w_trace (tagLoop imgID tags n w).2 = w_trace w ++ t ∧
    w_out (tagLoop imgID tags n w).2 = w_out w ++ o ∧
    w_deferred (tagLoop imgID tags n w).2 = w_deferred w ∧
    forallb isTagCall t = true ∧
    forallb (λ m, isTagLine m || isNotice m) o = true ∧
    (tags = [] → o = []) ∧
    match (tagLoop imgID tags n w).1 with
    | inr count =>
        count = n + length tags ∧
        List.filter isTagLine o = flat_map tagLineOf tags ∧
        ∃ refs,
          Forall2 (λ tag ref, ParseNormalizedNamed tag = inr ref ∧ is_Some (refTag ref))
                  tags refs ∧
          List.filter isAddTag t = (λ ref, EvAddTag ref imgID true) <$> refs
    | inl e =>
        ∃ tag, tag ∈ tags ∧
          (ParseNormalizedNamed tag = inl e ∨
           ∃ ref, ParseNormalizedNamed tag = inr ref ∧ refTag ref = None ∧ e = InvalidTag tag)
    end.
Proof.
  induction tags as [|tag rest IH]; intros n w; simpl.
  { exists [], []. rewrite !app_nil_r. do 6 (split; [done|]).
    split; [lia|]. split; [done|]. exists []. by split. }
  unfold bind. pose proof (tagImage_outcome imgID tag w) as Hstep.
  destruct (ParseNormalizedNamed tag) as [e|ref] eqn:Hparse.
  { rewrite Hstep. simpl. exists [], []. rewrite !app_nil_r. do 6 (split; [done|]).
    exists tag. split; [apply list_elem_of_here|by left]. }
  destruct (refTag ref) as [tg|] eqn:Htag.
  2: { rewrite Hstep. simpl. exists [], []. rewrite !app_nil_r. do 6 (split; [done|]).
       exists tag. split; [apply list_elem_of_here|]. right. by exists ref. }
  destruct Hstep as (nt & Hnt & Hok & Ht & Ho & Hd).
  destruct (tagImage imgID tag w) as [r1 w1]. simpl in Hok, Ht, Ho, Hd. subst r1.
  destruct (IH (S n) w1) as (t2 & o2 & Ht2 & Ho2 & Hd2 & Hp2 & Hq2 & _ & Hres).
  exists ([EvRefGet ref; EvAddTag ref imgID true] ++ t2), ((nt ++ [Line (loadedImageLine ref)]) ++ o2).
  split; [by rewrite Ht2, Ht, <- app_assoc|].
  split; [by rewrite Ho2, Ho, <- !app_assoc|].
  split; [by rewrite Hd2, Hd|].
  split; [done|]. split.
  { rewrite !forallb_app, Hq2. cbn [forallb]. rewrite isTagLine_loadedImageLine. simpl.
    rewrite andb_true_r, andb_true_iff. split; [|done].
    eapply forallb_impl; [exact Hnt|]. intros x ->. apply orb_true_r. }
  split; [done|].
  destruct (tagLoop imgID rest (S n) w1).1 as [e|count].
  - destruct Hres as (tag' & Hin & Hwhy). exists tag'. split; [by apply list_elem_of_further|done].
  - destruct Hres as (-> & Hlines & refs & HF & Hf). split; [lia|]. split.
    + rewrite !List.filter_app, Hlines, (filter_none isTagLine isNotice nt Hnt notice_not_tag_line).
      cbn [List.filter]. rewrite isTagLine_loadedImageLine.
      assert (tagLineOf tag = [Line (loadedImageLine ref)]) as ->
        by (unfold tagLineOf; by rewrite Hparse).
      reflexivity.
    + exists (ref :: refs). split.
      * constructor; [|done]. split; [done|]. rewrite Htag. by eexists.
      * simpl. by rewrite Hf.
Qed.

(** The calls of the tag loop, from the parsed references. *)
Lemma tagCalls_of_refs (imgID : ID) (tags : list string) (refs : list Named) :
  Forall2 (λ tag ref, ParseNormalizedNamed tag = inr ref ∧ is_Some (refTag ref)) tags refs →
  flat_map (tagCallOf imgID) tags = (λ ref, EvAddTag ref imgID true) <$> refs.
Proof.
  induction 1 as [|tag ref tags refs [Hp _] _ IH]; [done|].
  simpl. rewrite IH.
  assert (tagCallOf imgID tag = [EvAddTag ref imgID true]) as ->
    by (unfold tagCallOf; by rewrite Hp).
  reflexivity.
Qed.

(** One turn of the loop over the diff ids that does not fail. *)
Lemma resolveLayer_success (tmpDir : string) (m : manifestItem) (progress : bool) (i : nat)
    (diffID : DiffID) (rootFS r' : RootFS) (w w' : World) :
  resolveLayer tmpDir m progress i diffID rootFS w = (inr r', w') →
  ∃ l t o,
    layer_DiffID l = diffID ∧
    w_deferred w' = DeferRelease l :: w_deferred w ∧
    w_trace w' = w_trace w ++ EvLayerGet (RootFS_ChainID (Append rootFS diffID)) :: t ∧
    forallb isLayerIO t = true ∧
    w_out w' = w_out w ++ o ∧
    forallb (λ msg, isProgress msg && progress) o = true.
Proof.
  unfold resolveLayer. intros H.
  apply bind_inv_inr in H as ([] & wa & Ha & H).
  assert (Hwa : w_trace wa = w_trace w ∧ w_deferred wa = w_deferred w ∧ w_out wa = w_out w).
  { unfold pollCtx in Ha. destruct (ctxDone _); [discriminate|]. by injection Ha as <-. }
  destruct Hwa as (Hta & Hda & Hoa).
  apply bind_inv_inr in H as (layerPath & wb & Hb & H).
  assert (wb = wa) as ->.
  { destruct (Layers m !! i); [|discriminate]. unfold safePath, lift in Hb. congruence. }
  apply bind_inv_inr in H as (g & wc & Hc & H).
  assert (Hwc : w_trace wc = w_trace wa ++ [EvLayerGet (RootFS_ChainID (Append rootFS diffID))]
                ∧ w_deferred wc = w_deferred wa ∧ w_out wc = w_out wa).
  { unfold layerGet, bind, emit in Hc. simpl in Hc.
    destruct (lss_Get (w_lss wa) _) as [rg s]. by injection Hc as <- <-. }
  destruct Hwc as (Htc & Hdc & Hoc).
  apply bind_inv_inr in H as (l & wd & Hd & H).
  assert (Hg : grows isLayerIO (λ msg, isProgress msg && progress) false wc wd).
  { destruct g as [e|l0].
    - eapply within_run; [|exact Hd]. apply within_loadLayer; [done|]. by intros ->.
    - injection Hd as <- <-. apply grows_refl. }
  destruct Hg as (t & o & ls & Htd & Hod & Hdd & Hp & Hq & Hn).
  rewrite (Hn eq_refl) in Hdd. simpl in Hdd.
  apply bind_inv_inr in H as ([] & we & He & H). injection He as <-.
  destruct (bool_decide (diffID ≠ layer_DiffID l)) eqn:Hne; [discriminate|].
  apply bool_decide_eq_false in Hne. injection H as <- <-.
  exists l, t, o. split; [by destruct (decide (diffID = layer_DiffID l))|].
  simpl. rewrite Hdd, Hdc, Hda, Htd, Htc, Hta, Hod, Hoc, Hoa, <- app_assoc. done.
Qed.

(** The loop over the diff ids when it does not fail. *)
Lemma resolveLayers_layers (tmpDir : string) (m : manifestItem) (progress : bool)
    (todo : list DiffID) :
  ∀ (i : nat) (rootFS r' : RootFS) (w w' : World),
  resolveLayers tmpDir m progress i todo rootFS w = (inr r', w') →
  ∃ ls t o,
    layer_DiffID <$> ls = todo ∧
    w_deferred w' = (DeferRelease <$> reverse ls) ++ w_deferred w ∧
    w_trace w' = w_trace w ++ t ∧
    List.filter isLayerGet t
    = (λ r, EvLayerGet (RootFS_ChainID r)) <$> extensions rootFS todo ∧
    forallb (λ e, isLayerIO e || isLayerGet e) t = true ∧
    w_out w' = w_out w ++ o ∧
    forallb (λ msg, isProgress msg && progress) o = true.
Proof.
  induction todo as [|d rest IH]; intros i rootFS r' w w'; simpl.
  { intros [= <- <-]. exists [], [], []. by rewrite !app_nil_r. }
  intros H. apply bind_inv_inr in H as (r1 & w1 & H1 & H2).
  pose proof (resolveLayer_result _ _ _ _ _ _ _ _ _ H1) as ->.
  apply resolveLayer_success in H1 as (l & t1 & o1 & Hl & Hd1 & Ht1 & Hp1 & Ho1 & Hq1).
  apply IH in H2 as (ls & t2 & o2 & Hls & Hd2 & Ht2 & Hf2 & Hp2 & Ho2 & Hq2).
  exists (l :: ls), (EvLayerGet (RootFS_ChainID (Append rootFS d)) :: t1 ++ t2), (o1 ++ o2).
  split; [by rewrite fmap_cons, Hl, Hls|]. split.
  { rewrite Hd2, Hd1, reverse_cons, fmap_app, <- app_assoc. done. }
  split; [by rewrite Ht2, Ht1, <- app_assoc|]. split.
  { simpl. f_equal. rewrite List.filter_app, Hf2.
    rewrite (filter_none isLayerGet isLayerIO t1 Hp1); [done|]. by intros []. }
  split.
  { simpl. rewrite forallb_app, Hp2, andb_true_r.
    eapply forallb_impl; [exact Hp1|]. by intros x ->. }
  split; [by rewrite Ho2, Ho1, app_assoc|]. by rewrite forallb_app, Hq1, Hq2.
Qed.

End Exact.

Section Entry.
Context `{C : Collab}.

Lemma parsed_tags (tags : list string) (refs : list Named) :
  Forall2 (λ tag ref, ParseNormalizedNamed tag = inr ref ∧ is_Some (refTag ref)) tags refs →
  Forall (λ tag, ∃ ref, ParseNormalizedNamed tag = inr ref) tags.
Proof. induction 1 as [|tag ref tags refs [Hp _] _ IH]; constructor; eauto. Qed.

(** What a turn of the loop over the manifest that does not fail has done:
    nothing but the read of the config when the platform filter skips the
    entry; otherwise the layers are resolved, one image is created, tagged
    and logged, and the variables of the loop are updated. *)
Lemma loadEntry_success (tmpDir : string) (progress : bool) (m : manifestItem)
    (v v' : LoopVars) (w w' : World) :
  loadEntry tmpDir progress m v w = (inr v', w') →
  ∃ t o ls,
    w_trace w' = w_trace w ++ t ∧ w_out w' = w_out w ++ o ∧
    w_deferred w' = (DeferRelease <$> ls) ++ w_deferred w ∧
    forallb isManifestCall t = true ∧
    forallb isEntryOutput o = true ∧
    forallb (λ msg, progress || negb (isProgress msg)) o = true ∧
    if passesFilter tmpDir m then
      ∃ imgID,
        v' = {| parentLinks := parentLinks v ++ [{| linkID := imgID; parentID := Parent m |}];
                imageIDsStr := imageIDsStr v +:+ loadedImageIDLine imgID;
                imageRefCount := length (RepoTags m) |} ∧
        List.filter isCreate t = [EvCreate (entryBytes tmpDir m)] ∧
        List.filter isLogImageEvent t = [EvLogImageEvent imgID] ∧
        List.filter isAddTag t = flat_map (tagCallOf imgID) (RepoTags m) ∧
        List.filter isTagLine o = flat_map tagLineOf (RepoTags m) ∧
        Forall (λ tag, ∃ ref, ParseNormalizedNamed tag = inr ref) (RepoTags m) ∧
        layer_DiffID <$> reverse ls = entryDiffIDs tmpDir m ∧
        (RepoTags m = [] → forallb isProgress o = true)
    else
      v' = v ∧ List.filter isCreate t = [] ∧ List.filter isLogImageEvent t = [] ∧
      List.filter isAddTag t = [] ∧ o = [] ∧ ls = [].
Proof.
  unfold loadEntry. intros H.
  apply bind_inv_inr in H as ([] & wa & Ha & H).
  unfold pollCtx in Ha. destruct (ctxDone (w_polls w)); [discriminate|]. injection Ha as <-.
  apply bind_inv_inr in H as (configPath & wb & Hb & H).
  unfold safePath, lift in Hb. injection Hb as Hpath <-.
  apply bind_inv_inr in H as (config & wc & Hc & H).
  unfold readFile, bind, emit, lift in Hc. simpl in Hc. injection Hc as Hread <-.
  apply bind_inv_inr in H as (img & wd & Hd & H).
  unfold lift in Hd. injection Hd as Hjson <-.
  assert (Hcfg : entryConfig tmpDir m = inr (config, img)).
  { unfold entryConfig. by rewrite Hpath, Hread, Hjson. }
  destruct (negb (CheckOS (OperatingSystem img))); [discriminate|].
  assert (Hpass : passesFilter tmpDir m
                  = negb match platformMatcher with
                         | Some matches => negb (matches (imgPlatform img))
                         | None => false
                         end).
  { unfold passesFilter. rewrite Hcfg. destruct platformMatcher; [|done].
    by rewrite negb_involutive. }
  rewrite Hpass.
  destruct (match platformMatcher with Some _ => _ | None => _ end); simpl.
  { injection H as <- <-. exists [EvReadFile configPath], [], []. simpl.
    rewrite app_nil_r. repeat split; done. }
  destruct (bool_decide (length (Layers m) ≠ _)); [discriminate|].
  apply bind_inv_inr in H as (r & we & He & H).
  apply resolveLayers_layers in He
    as (ls & te & oe & Hls & Hde & Hte & _ & Hpe & Hoe & Hqe).
  simpl in Hde, Hte, Hoe.
  apply bind_inv_inr in H as (imgID & wf & Hf & H).
  assert (Hwf : w_trace wf = w_trace we ++ [EvCreate config] ∧ w_out wf = w_out we ∧
                w_deferred wf = w_deferred we).
  { unfold imageCreate, bind, emit in Hf. simpl in Hf.
    destruct (is_Create (w_is we) config) as [r0 s]. by injection Hf as _ <-. }
  destruct Hwf as (Htf & Hof & Hdf).
  apply bind_inv_inr in H as (count & wg & Hg & H).
  destruct (tagLoop_result imgID (RepoTags m) 0 wf)
    as (tg & og & Htg & Hog & Hdg & Hpg & Hqg & Hnil & Hres).
  rewrite Hg in Htg, Hog, Hdg, Hres. simpl in Htg, Hog, Hdg, Hres.
  destruct Hres as (-> & Hlines & refs & HF & Hcalls).
  apply bind_inv_inr in H as ([] & wh & Hh & H). injection Hh as <-. injection H as <- <-.
  exists ([EvReadFile configPath] ++ te ++ [EvCreate config] ++ tg ++ [EvLogImageEvent imgID]),
         (oe ++ og), (reverse ls).
  assert (Hte_c : ∀ f, (∀ e, isLayerIO e || isLayerGet e = true → f e = false) →
                       List.filter f te = []).
  { intros f Hf0. by eapply filter_none. }
  assert (Htg_c : ∀ f, (∀ e, isTagCall e = true → f e = false) → List.filter f tg = []).
  { intros f Hf0. by eapply filter_none. }
  split. { simpl. rewrite Htg, Htf, Hte. simpl. by rewrite <- !app_assoc. }
  split. { simpl. by rewrite Hog, Hof, Hoe, app_assoc. }
  split. { simpl. by rewrite Hdg, Hdf, Hde. }
  split.
  { rewrite !forallb_app. simpl.
    rewrite (forallb_impl _ isManifestCall te Hpe), (forallb_impl _ isManifestCall tg Hpg);
      [done| |].
    - intros e He. unfold isManifestCall. rewrite He. by rewrite !orb_true_r.
    - intros e He. unfold isManifestCall.
      apply orb_true_iff in He as [->| ->]; by rewrite ?orb_true_r. }
  split.
  { rewrite forallb_app.
    rewrite (forallb_impl _ isEntryOutput oe Hqe), (forallb_impl _ isEntryOutput og Hqg);
      [done| |].
    - intros msg Hm. unfold isEntryOutput. by rewrite Hm.
    - intros msg Hm. apply andb_true_iff in Hm as [Hm _]. unfold isEntryOutput.
      rewrite Hm. by rewrite orb_true_r. }
  split.
  { rewrite forallb_app. apply andb_true_iff. split.
    - eapply forallb_impl; [exact Hqe|]. intros msg Hm.
      apply andb_true_iff in Hm as [_ ->]. done.
    - eapply forallb_impl; [exact Hqg|]. intros msg Hm.
      destruct msg; [by rewrite orb_true_r|]. discriminate Hm. }
  exists imgID. split; [reflexivity|].
  rewrite !List.filter_app. simpl.
  rewrite !Hte_c, !Htg_c by (by intros []).
  split; [by unfold entryBytes; rewrite Hcfg|]. split; [done|]. split.
  { rewrite Hcalls, app_nil_r. symmetry. by apply tagCalls_of_refs. }
  split.
  { rewrite Hlines. rewrite (filter_none isTagLine (λ msg, isProgress msg && progress) oe Hqe);
      [done|]. intros msg Hm. apply andb_true_iff in Hm as [Hm _].
    by apply progress_not_tag_line. }
  split; [by eapply parsed_tags|].
  split; [rewrite reverse_involutive, Hls; unfold entryDiffIDs; by rewrite Hcfg|].
  intros Hno. rewrite (Hnil Hno), app_nil_r.
  eapply forallb_impl; [exact Hqe|]. intros msg Hm. by apply andb_true_iff in Hm as [-> _].
Qed.

(** The loop over the manifest when it returns without error: the entries
    it has loaded are those the platform filter does not skip. *)
Lemma loadEntries_loaded (tmpDir : string) (progress : bool)
    (manifest : list manifestItem) :
  ∀ (v v' : LoopVars) (w w' : World),
  loadEntries tmpDir progress manifest v w = (inr v', w') →
  ∃ (loaded : list (ID * manifestItem)) t o ls,
    loaded.*2 = List.filter (passesFilter tmpDir) manifest ∧
    parentLinks v'
    = parentLinks v ++ ((λ im, {| linkID := im.1; parentID := Parent im.2 |}) <$> loaded) ∧
    imageIDsStr v' = imageIDsStr v +:+ idLines loaded.*1 ∧
    imageRefCount v' = match last loaded with
                       | Some im => length (RepoTags im.2)
                       | None => imageRefCount v
                       end ∧
    w_trace w' = w_trace w ++ t ∧ w_out w' = w_out w ++ o ∧
    w_deferred w' = (DeferRelease <$> ls) ++ w_deferred w ∧
    forallb isManifestCall t = true ∧
    forallb isEntryOutput o = true ∧
    forallb (λ msg, progress || negb (isProgress msg)) o = true ∧
    List.filter isCreate t = (λ im, EvCreate (entryBytes tmpDir im.2)) <$> loaded ∧
    List.filter isLogImageEvent t = EvLogImageEvent <$> loaded.*1 ∧
    List.filter isAddTag t = flat_map (λ im, flat_map (tagCallOf im.1) (RepoTags im.2)) loaded ∧
    List.filter isTagLine o = flat_map (λ im, flat_map tagLineOf (RepoTags im.2)) loaded ∧
    Forall (λ im, Forall (λ tag, ∃ ref, ParseNormalizedNamed tag = inr ref) (RepoTags im.2))
           loaded ∧
    layer_DiffID <$> reverse ls = flat_map (λ im, entryDiffIDs tmpDir im.2) loaded ∧
    (Forall (λ m, RepoTags m = []) manifest → forallb isProgress o = true).
Proof.
  induction manifest as [|m rest IH]; intros v v' w w'; simpl.
  { intros [= <- <-]. exists [], [], [], []. simpl.
    rewrite !app_nil_r, string_append_nil_r. repeat split; done. }
  intros H. apply bind_inv_inr in H as (v1 & w1 & H1 & H2).
  apply loadEntry_success in H1
    as (t1 & o1 & ls1 & Ht1 & Ho1 & Hd1 & Hp1 & Hq1 & Hr1 & Hstep).
  apply IH in H2
    as (loaded & t2 & o2 & ls2 & Hkept & Hlinks & Hids & Hcount & Ht2 & Ho2 & Hd2 & Hp2
        & Hq2 & Hr2 & Hcreate & Hlog & Htags & Hlines & Hparse & Hdiffs & Hnone).
  assert (Htrace : w_trace w' = w_trace w ++ t1 ++ t2) by (by rewrite Ht2, Ht1, <- app_assoc).
  assert (Hout : w_out w' = w_out w ++ o1 ++ o2) by (by rewrite Ho2, Ho1, <- app_assoc).
  assert (Hdefer : w_deferred w' = (DeferRelease <$> (ls2 ++ ls1)) ++ w_deferred w)
    by (by rewrite Hd2, Hd1, fmap_app, <- app_assoc).
  assert (HP : forallb isManifestCall (t1 ++ t2) = true) by (by rewrite forallb_app, Hp1, Hp2).
  assert (HQ : forallb isEntryOutput (o1 ++ o2) = true) by (by rewrite forallb_app, Hq1, Hq2).
  assert (HR : forallb (λ msg, progress || negb (isProgress msg)) (o1 ++ o2) = true)
    by (by rewrite forallb_app, Hr1, Hr2).
  destruct (passesFilter tmpDir m) eqn:Hpass.
  - destruct Hstep as (imgID & -> & Hc1 & Hl1 & Ha1 & Hn1 & Hf1 & Hdf1 & Hno1).
    exists ((imgID, m) :: loaded), (t1 ++ t2), (o1 ++ o2), (ls2 ++ ls1).
    simpl in Hlinks, Hids, Hcount.
    split; [by rewrite fmap_cons, Hkept|].
    split; [by rewrite Hlinks, fmap_cons, <- app_assoc|].
    split.
    { rewrite Hids, fmap_cons, string_append_assoc. reflexivity. }
    split.
    { rewrite last_cons, Hcount. by destruct (last loaded). }
    do 6 (split; [done|]).
    rewrite !List.filter_app, Hc1, Hl1, Ha1, Hn1, Hcreate, Hlog, Htags, Hlines.
    do 4 (split; [done|]).
    split; [by constructor|]. split.
    { rewrite reverse_app, fmap_app, Hdf1, Hdiffs. reflexivity. }
    intros Hall. inversion Hall as [|? ? Hm Hrest]; subst.
    by rewrite forallb_app, (Hnone Hrest), (Hno1 Hm).
  - destruct Hstep as (-> & Hc1 & Hl1 & Ha1 & -> & ->).
    exists loaded, (t1 ++ t2), o2, ls2.
    rewrite app_nil_r in Hdefer. simpl in Hout, HQ, HR.
    do 10 (split; [done|]).
    rewrite !List.filter_app, Hc1, Hl1, Ha1, Hcreate, Hlog, Htags.
    do 6 (split; [done|]).
    intros Hall. inversion Hall; subst. auto.
Qed.

End Entry.

Section ManifestLoad.
Context `{C : Collab}.

Lemma grows_quiet (P : Event → bool) (w w' : World) :
  grows P (λ _, false) false w w' →
  ∃ t, w_trace w' = w_trace w ++ t ∧ forallb P t = true ∧
       w_out w' = w_out w ∧ w_deferred w' = w_deferred w.
Proof.
  intros (t & o & ls & Ht & Ho & Hd & Hp & Hq & Hn).
  rewrite (Hn eq_refl) in Hd. destruct o; [|discriminate].
  exists t. by rewrite Ht, Ho, Hd, app_nil_r.
Qed.



(** What Load has done between the staging and its [return nil], for a
    manifest that decodes. *)
Lemma loadManifest_success (tmpDir : string) (progress : bool) (content : Bytes)
    (manifest : list manifestItem) (w1 w2 : World) :
  decodeManifest content = inr (Some manifest) →
  loadManifest tmpDir progress content w1 = (inr tt, w2) →
  ∃ (loaded : list (ID * manifestItem)) t o ls,
    loaded.*2 = List.filter (passesFilter tmpDir) manifest ∧
    w_trace w2 = w_trace w1 ++ t ∧
    w_out w2 = w_out w1 ++ o
               ++ match last loaded with
                  | Some im => match RepoTags im.2 with
                               | [] => [Line (idLines loaded.*1)]
                               | _ :: _ => []
                               end
                  | None => [Line (idLines loaded.*1)]
                  end ∧
    w_deferred w2 = (DeferRelease <$> ls) ++ w_deferred w1 ∧
    forallb isManifestCall t = true ∧
    forallb isEntryOutput o = true ∧
    forallb (λ msg, progress || negb (isProgress msg)) o = true ∧
    List.filter isCreate t = (λ im, EvCreate (entryBytes tmpDir im.2)) <$> loaded ∧
    List.filter isLogImageEvent t = EvLogImageEvent <$> loaded.*1 ∧
    List.filter isAddTag t = flat_map (λ im, flat_map (tagCallOf im.1) (RepoTags im.2)) loaded ∧
    List.filter isTagLine o = flat_map (λ im, flat_map tagLineOf (RepoTags im.2)) loaded ∧
    Forall (λ im, Forall (λ tag, ∃ ref, ParseNormalizedNamed tag = inr ref) (RepoTags im.2))
           loaded ∧
    layer_DiffID <$> reverse ls = flat_map (λ im, entryDiffIDs tmpDir im.2) loaded ∧
    (Forall (λ m, RepoTags m = []) manifest → forallb isProgress o = true).
Proof.
  intros Hd Hm. unfold loadManifest in Hm.
  apply bind_inv_inr in Hm as (man & wa & Ha & Hm).
  unfold lift in Ha. rewrite Hd in Ha. injection Ha as <- <-.
  apply bind_inv_inr in Hm as ([] & wb & Hb & Hm). injection Hb as <-.
  apply bind_inv_inr in Hm as (v & wc & Hc & Hm). simpl in Hc.
  apply loadEntries_loaded in Hc
    as (loaded & t & o & ls & Hkept & _ & Hids & Hcount & Ht & Ho & Hdf & Hp & Hq & Hr
        & Hcreate & Hlog & Htags & Hlines & Hparse & Hdiffs & Hnone).
  change (imageIDsStr v = idLines loaded.*1) in Hids. simpl in Hcount.
  apply bind_inv_inr in Hm as ([] & wd & Hcommit & Hm).
  apply (within_run isParentCall (λ _, false) false _ _ _ _
           (within_commitParents _ _ false _ (λ e H, H))) in Hcommit.
  apply grows_quiet in Hcommit as (tp & Htp & Hpp & Hop & Hdp).
  assert (Hpc : ∀ f, (∀ e, isParentCall e = true → f e = false) → List.filter f tp = []).
  { intros f Hf0. by eapply filter_none. }
  assert (Htail : (if bool_decide (imageRefCount v = 0) then [Line (imageIDsStr v)] else [])
                  = match last loaded with
                    | Some im => match RepoTags im.2 with
                                 | [] => [Line (idLines loaded.*1)]
                                 | _ :: _ => []
                                 end
                    | None => [Line (idLines loaded.*1)]
                    end).
  { rewrite Hcount, Hids. destruct (last loaded) as [im|]; [|done].
    by destruct (RepoTags im.2). }
  assert (Hw2 : w_trace w2 = w_trace wd ∧ w_deferred w2 = w_deferred wd ∧
                w_out w2 = w_out wd ++ (if bool_decide (imageRefCount v = 0)
                                        then [Line (imageIDsStr v)] else [])).
  { destruct (bool_decide (imageRefCount v = 0)); unfold write, ret in Hm;
      injection Hm as <-; simpl; by rewrite ?app_nil_r. }
  destruct Hw2 as (Ht2 & Hd2 & Ho2).
  exists loaded, (t ++ tp), o, ls.
  split; [done|]. split; [by rewrite Ht2, Htp, Ht, app_assoc|].
  split; [by rewrite Ho2, Hop, Ho, Htail, app_assoc|].
  split; [by rewrite Hd2, Hdp, Hdf|].
  split.
  { rewrite forallb_app, Hp. simpl. eapply forallb_impl; [exact Hpp|].
    intros e He. unfold isManifestCall. rewrite He. by rewrite !orb_true_r. }
  do 2 (split; [done|]).
  rewrite !List.filter_app, !Hpc, !app_nil_r by (by intros []).
  done.
Qed.


End ManifestLoad.


(** * The properties on the sample archives *)

(** C1 on [arBadParent]: the second image names the first as parent but has
    two more History entries; Load returns InvalidParent. *)
Lemma setParentID_commits_history_extensions_only_witness :
  extendsHistory [hBase; hMid; hTop] [hBase] = false ∧
  ∃ w', @Load (memCollab arBadParent) 0 true (memWorld arBadParent [] [] [])
        = Some (Some (InvalidParent "idA" "idB"), w').
Proof.
  split; [reflexivity|].
  destruct (@setParentID_commits_history_extensions_only (memCollab arBadParent)
              0 true (memWorld arBadParent [] [] []) badParentVars
              badParentEntries.2 badParentEntries.2
              [{| linkID := "idA"; parentID := "" |}]
              []
              {| linkID := "idB"; parentID := "idA" |}
              (mkImage "idB" "linux" ["d1"; "d2"] [hBase; hMid; hTop])
              (mkImage "idA" "linux" ["d1"] [hBase]))
    as (valid & _ & _ & _ & Hfails).
  - exists "tmp", "M",
      [mkItem "a.json" [] ["l1.tar"] ""; mkItem "b.json" [] ["l1.tar"; "l2.tar"] "idA"],
      (@stageArchive (memCollab arBadParent) (memWorld arBadParent [] [] [])).2.
    split; [vm_compute; reflexivity|]. split; [vm_compute; reflexivity|].
    vm_compute; reflexivity.
  - vm_compute; reflexivity.
  - vm_compute; reflexivity.
  - vm_compute. discriminate.
  - vm_compute; reflexivity.
  - vm_compute; reflexivity.
  - eexists. exact (proj2 (Hfails eq_refl)).
Defined.

(** C2 on a batch of two links: the second names the first as its parent
    and keeps it. *)
Lemma validatedParentLinks_keeps_batch_parents_witness :
  ∃ q, validatedParentLinks [{| linkID := "idA"; parentID := "idZ" |};
                             {| linkID := "idB"; parentID := "idA" |}] !! 1 = Some q ∧
       linkID q = "idB".
Proof.
  destruct (@validatedParentLinks_keeps_batch_parents (memCollab emptyArchive)
              [{| linkID := "idA"; parentID := "idZ" |};
               {| linkID := "idB"; parentID := "idA" |}]
              1 {| linkID := "idB"; parentID := "idA" |} eq_refl)
    as (q & Hq & Hid & _).
  exists q. split; [exact Hq|exact Hid].
Defined.

(** C5 on a manifest file that holds null. *)
Lemma null_manifest_invalid_empty_manifest_loads_nothing_witness :
  @decodeManifest (memCollab (arManifest "null")) "null" = inr None ∧
  ∃ w', @Load (memCollab (arManifest "null")) 0 true (memWorld (arManifest "null") [] [] [])
        = Some (Some InvalidManifest, w').
Proof.
  split; [reflexivity|].
  destruct (@null_manifest_invalid_empty_manifest_loads_nothing
              (memCollab (arManifest "null")) 0 true
              (memWorld (arManifest "null") [] [] [])
              (@stageArchive (memCollab (arManifest "null"))
                 (memWorld (arManifest "null") [] [] [])).2
              "tmp" "null")
    as (_ & _ & Hnull & _).
  - vm_compute; reflexivity.
  - reflexivity.
  - eexists. apply Hnull. reflexivity.
Defined.

(** C9 on a legacy archive and a Windows host. *)
Lemma legacyLoad_unsupported_on_windows_witness :
  ∃ w', @Load (memCollab arLegacyOnWindows) 0 true (memWorld arLegacyOnWindows [] [] [])
        = Some (Some UnsupportedLegacyFormat, w').
Proof.
  destruct (@legacyLoad_unsupported_on_windows (memCollab arLegacyOnWindows) 0 true
              (memWorld arLegacyOnWindows [] [] [])
              (@stageArchive (memCollab arLegacyOnWindows)
                 (memWorld arLegacyOnWindows [] [] [])).2
              "tmp")
    as (_ & Hload & _).
  - reflexivity.
  - vm_compute; reflexivity.
  - reflexivity.
  - eexists. exact Hload.
Defined.

(** C3, counterexample: on [arLegacyCycle], where [a] and [b] name each
    other as parent, neither legacyLoadImage nor Load returns, whatever the
    bound on the recursion. *)
Lemma legacy_parent_cycle_never_returns :
  (¬ ∃ fuel r, @legacyLoadImage (memCollab arLegacyCycle) fuel "a" "tmp" false ∅
                 (memWorld arLegacyCycle [] [] []) = Some r) ∧
  (¬ ∃ fuel r, @Load (memCollab arLegacyCycle) fuel true (memWorld arLegacyCycle [] [] [])
               = Some r).
Proof.
  assert (Hcycle : ∀ progress fuel id w, id = "a" ∨ id = "b" →
            @legacyLoadImage (memCollab arLegacyCycle) fuel id "tmp" progress ∅ w = None).
  { intros progress fuel id w Hid.
    apply (@legacy_cycle_never_returns (memCollab arLegacyCycle) "tmp" progress
             (λ x, x = "a" ∨ x = "b")); [|exact Hid|intros; apply lookup_empty].
    intros x [-> | ->]; [exists "b"|exists "a"]; split; auto; vm_compute; reflexivity. }
  split.
  - intros (fuel & r & H). rewrite Hcycle in H by auto. discriminate.
  - intros (fuel & r & H). unfold Load, loadBody in H.
    change (@stageArchive (memCollab arLegacyCycle) (memWorld arLegacyCycle [] [] []))
      with ((inr ("tmp", NotExist), (@stageArchive (memCollab arLegacyCycle)
                                       (memWorld arLegacyCycle [] [] [])).2)
            : Res (string * OpenResult) * @World (memCollab arLegacyCycle)) in H.
    cbv beta iota in H. unfold legacyLoad in H.
    change (bool_decide (@GOOS (memCollab arLegacyCycle) = "windows")) with false in H.
    cbv beta iota in H. unfold bind, emit, lift in H. simpl in H.
    rewrite Hcycle in H by auto. discriminate.
Qed.

(** C3 on [arLegacyChain], where [a] is on top of [b]: both chains end
    within two images and Load returns within four nested steps. *)
Lemma legacy_load_returns_when_parent_chains_end_witness :
  ∃ r, @Load (memCollab arLegacyChain) 4 true (memWorld arLegacyChain [] [] []) = Some r.
Proof.
  apply (@legacy_load_returns_when_parent_chains_end (memCollab arLegacyChain) 2 4 true
           (memWorld arLegacyChain [] [] [])).
  - intros tmpDir dirs Hmk Hrd. injection Hmk as <-. injection Hrd as <-.
    repeat constructor; intros _; vm_compute; reflexivity.
  - vm_compute. lia.
Defined.

(** C4 on [arOneEntry]: the turn for diff id d1 misses, loads the layer
    file and registers it on top of the empty chain; the layer passes the
    comparison and is then found at chain d1, the chain looked up. *)
Lemma resolveLayer_hit_skips_miss_registers_and_checks_witness :
  let a := arOneEntry "linux" ["l1.tar"] None in
  let m := mkItem "a.json" [] ["l1.tar"] "" in
  let rootFS := {| rfType := "layers"; DiffIDs := [] |} in
  let we := (@stageArchive (memCollab a) (memWorld a [] [] [])).2 in
  let w := @set_trace (memCollab a) (w_trace we ++ [EvReadFile "tmp/a.json"])
             (@set_polls (memCollab a) (S (w_polls we)) we) in
  let run := @resolveLayer (memCollab a) "tmp" m false 0 "d1" rootFS w in
  run.1 = inr (Append rootFS "d1") ∧
  (@lss_Get (memCollab a) (w_lss run.2) "d1").1 = inr {| mlDiffID := "d1"; mlChainID := "d1" |}.
Proof.
  intros a m rootFS we w run.
  destruct (@resolveLayer_hit_skips_miss_registers_and_checks (memCollab a) 0 true
              (memWorld a [] [] []) "tmp" [] m [] "cfgA" (mkImage "idA" "linux" ["d1"] [hBase])
              [] "d1" [] rootFS w "l1.tar" "tmp/l1.tar")
    as (_ & _ & Hmiss).
  - exists initVars, we, "tmp/a.json".
    split.
    { exists "M", we. split; [vm_compute; reflexivity|].
      split; [vm_compute; reflexivity|reflexivity]. }
    repeat (split; [reflexivity|]).
    split; [intros matches Hm; discriminate Hm|].
    repeat (split; [reflexivity|]). reflexivity.
  - reflexivity.
  - reflexivity.
  - reflexivity.
  - specialize (Hmiss (External "layer does not exist") "d1" "d1").
    cbv zeta in Hmiss.
    destruct Hmiss as (_ & _ & Hreg).
    + vm_compute; reflexivity.
    + reflexivity.
    + intros Hq. discriminate Hq.
    + reflexivity.
    + destruct (registerCall _ _ _ _) as [[e|l] s] eqn:Hcall;
        [vm_compute in Hcall; discriminate Hcall|].
      vm_compute in Hcall. injection Hcall as <- <-.
      destruct Hreg as ((_ & _ & Hok) & Hfound). split.
      * apply Hok. reflexivity.
      * apply Hfound; [reflexivity|].
        intros l' s' Hr. vm_compute in Hr. injection Hr as <- <-. reflexivity.
Defined.

(** C6, counterexample: on [arOneEntry] with no layer path for an image of
    one diff id and a platform filter that rejects the image, Load returns
    nil. *)
Lemma count_mismatch_of_filtered_entry_is_not_reported :
  ¬ @everyCountMismatchFails (memCollab (arOneEntry "linux" [] onlyArm)) 0 true
      (memWorld (arOneEntry "linux" [] onlyArm) [] [] []).
Proof.
  intros Hclaim.
  destruct (Hclaim "tmp" "M"
              (@stageArchive (memCollab (arOneEntry "linux" [] onlyArm))
                 (memWorld (arOneEntry "linux" [] onlyArm) [] [] [])).2
              [mkItem "a.json" [] [] ""] (mkItem "a.json" [] [] "")
              "tmp/a.json" "cfgA" (mkImage "idA" "linux" ["d1"] [hBase]))
    as (expected & actual & w' & Hload).
  - vm_compute; reflexivity.
  - vm_compute; reflexivity.
  - apply list_elem_of_singleton. reflexivity.
  - reflexivity.
  - reflexivity.
  - reflexivity.
  - simpl. lia.
  - vm_compute in Hload. discriminate.
Qed.

(** C6 on [arOneEntry] with no layer path and no platform filter. *)
Lemma layer_count_mismatch_fails_accepted_entry_witness :
  let a := arOneEntry "linux" [] None in
  ∃ w', @Load (memCollab a) 0 true (memWorld a [] [] [])
        = Some (Some (LayerCountMismatch 0 1), w').
Proof.
  intros a.
  destruct (@layer_count_mismatch_fails_accepted_entry (memCollab a) 0 true
              (memWorld a [] [] []) "tmp" [] (mkItem "a.json" [] [] "") [] initVars
              (@stageArchive (memCollab a) (memWorld a [] [] [])).2
              "tmp/a.json" "cfgA" (mkImage "idA" "linux" ["d1"] [hBase]))
    as (_ & Hload & _).
  - exists "M", (@stageArchive (memCollab a) (memWorld a [] [] [])).2.
    split; [vm_compute; reflexivity|]. split; [vm_compute; reflexivity|reflexivity].
  - reflexivity.
  - reflexivity.
  - reflexivity.
  - reflexivity.
  - reflexivity.
  - intros matches Hm. discriminate Hm.
  - simpl. lia.
  - eexists. exact Hload.
Defined.

(** C10 on [arOneEntry] with a windows image on a linux host and a
    platform filter that would reject the image. *)
Lemma unsupported_os_aborts_before_platform_filter_witness :
  let a := arOneEntry "windows" ["l1.tar"] onlyArm in
  ∃ w', @Load (memCollab a) 0 true (memWorld a [] [] [])
        = Some (Some (UnsupportedPlatform "windows" "linux"), w').
Proof.
  intros a.
  destruct (@unsupported_os_aborts_before_platform_filter (memCollab a) 0 true
              (memWorld a [] [] []) "tmp" [] (mkItem "a.json" [] ["l1.tar"] "") [] initVars
              (@stageArchive (memCollab a) (memWorld a [] [] [])).2
              "tmp/a.json" "cfgA" (mkImage "idA" "windows" ["d1"] [hBase]))
    as (Hbad & _).
  - exists "M", (@stageArchive (memCollab a) (memWorld a [] [] [])).2.
    split; [vm_compute; reflexivity|]. split; [vm_compute; reflexivity|reflexivity].
  - reflexivity.
  - reflexivity.
  - reflexivity.
  - reflexivity.
  - eexists. exact (proj2 (Hbad eq_refl)).
Defined.



(** The in-memory reference store overwrites on a forced AddTag. *)
Lemma memCollab_forced_AddTag_overwrites (a : Archive) :
  ∀ s r i, @rs_Get (memCollab a) (@rs_AddTag (memCollab a) s r i true).2 r = inr i.
Proof.
  intros s r i. simpl. destruct (assoc (memFamiliar r) s) as [prev|]; simpl.
  - rewrite andb_false_r. simpl. by rewrite bool_decide_eq_true_2.
  - by rewrite bool_decide_eq_true_2.
Qed.

(** C8 on a reference store where foo:latest names another image: the
    warning line names the old id, the reference maps to the new id, and a
    second assignment wins in turn. *)
Lemma setLoadedTag_overwrites_witness :
  let w := memWorld emptyArchive [] [] [("foo:latest", "idOld")] in
  let ref := {| refName := "foo"; refTag := Some "latest" |} in
  let run := @setLoadedTag (memCollab emptyArchive) ref "idNew" w in
  w_out run.2
  = [Line ("The image foo:latest already exists, renaming the old one with ID idOld"
           +:+ " to empty string" +:+ nl)] ∧
  @rs_Get (memCollab emptyArchive) (w_rs run.2) ref = inr "idNew" ∧
  @rs_Get (memCollab emptyArchive)
    (w_rs (@setLoadedTag (memCollab emptyArchive) ref "idNewer" run.2).2) ref = inr "idNewer".
Proof.
  intros w ref run.
  destruct (@setLoadedTag_overwrites (memCollab emptyArchive) ref "idNew" w)
    as (Hout & _ & _ & _ & _ & _ & _ & Hforce).
  destruct (Hforce (memCollab_forced_AddTag_overwrites emptyArchive)) as (Hget & Hagain).
  split; [exact Hout|]. split; [exact Hget|].
  destruct (Hagain "idNewer") as (_ & Hget2 & _); [intros Heq; discriminate Heq|exact Hget2].
Defined.

(** * Further properties of load.go *)

(** ** validatedParentLinks and checkValidParent *)

Lemma parentInBatch_ids (pl : list parentLink) (p : parentLink) :
  parentInBatch pl p
  = existsb (λ i, bool_decide (i = parentID p) && negb (bool_decide (i = linkID p)))
            (map linkID pl).
Proof.
  unfold parentInBatch. induction pl as [|p2 rest IH]; simpl; [reflexivity|].
  by rewrite IH.
Qed.

Lemma validatedParentLinks_ids (pl : list parentLink) :
  map linkID (validatedParentLinks pl) = map linkID pl.
Proof.
  rewrite validatedParentLinks_map, map_map. apply map_ext.
  intros p. by destruct (parentInBatch pl p).
Qed.

(** X1.  validatedParentLinks is idempotent: a second pass over its result
    clears nothing more, because the pass leaves the child ids as they are
    and a kept parent still finds its link. *)
Theorem validatedParentLinks_idempotent (pl : list parentLink) :
  validatedParentLinks (validatedParentLinks pl) = validatedParentLinks pl.
Proof.
  rewrite (validatedParentLinks_map (validatedParentLinks pl)).
  assert (Hsame : ∀ q, parentInBatch (validatedParentLinks pl) q = parentInBatch pl q).
  { intros q. by rewrite !parentInBatch_ids, validatedParentLinks_ids. }
  rewrite (map_ext _ (λ q, if parentInBatch pl q then q else clearParent q))
    by (intros q; by rewrite Hsame).
  rewrite validatedParentLinks_map, map_map. apply map_ext. intros p.
  destruct (parentInBatch pl p) eqn:Hp; [by rewrite Hp|].
  by destruct (parentInBatch pl (clearParent p)).
Qed.

Lemma historyMatches_code (hP hC : History) :
  historyMatches hP hC
  = negb (negb (eqb (bool_decide (Created hP = None)) (bool_decide (Created hC = None))))
    && negb (match Created hP, Created hC with
             | Some tP, Some tC => negb (Time_Equal tP tC)
             | _, _ => false
             end)
    && negb (negb (bool_decide (hP = {| Created := Created hP; Comment := Comment hC;
                                        EmptyLayer := EmptyLayer hC |}))).
Proof.
  destruct hP as [[tP|] mP eP], hC as [[tC|] mC eC]; unfold historyMatches; simpl;
    try destruct (Time_Equal tP tC); simpl;
    repeat case_bool_decide; simplify_eq; simpl; try done.
Qed.

Lemma checkHistoryPrefix_matches (parentH : list History) :
  ∀ (i : nat) (imgH : list History),
  i + length parentH ≤ length imgH →
  checkHistoryPrefix i parentH imgH = Some (historiesMatch parentH (drop i imgH)).
Proof.
  induction parentH as [|hP rest IH]; intros i imgH Hlen; [reflexivity|].
  cbn [checkHistoryPrefix length] in *.
  destruct (lookup_lt_is_Some_2 imgH i) as [hC Hi]; [lia|]. rewrite Hi.
  rewrite (drop_S _ _ _ Hi). cbn [historiesMatch]. rewrite historyMatches_code.
  destruct (negb (eqb _ _)); [reflexivity|].
  destruct (match Created hP with Some _ => _ | None => _ end); [reflexivity|].
  destruct (negb (bool_decide _)); [reflexivity|].
  simpl. apply IH. lia.
Qed.

Lemma historiesMatch_Forall2 (parentH : list History) :
  ∀ childH, length parentH ≤ length childH →
  historiesMatch parentH childH = true ↔
  Forall2 (λ hP hC, historyMatches hP hC = true) parentH (take (length parentH) childH).
Proof.
  induction parentH as [|hP ps IH]; intros childH Hlen; simpl.
  { split; [constructor|done]. }
  destruct childH as [|hC cs]; simpl in *; [lia|].
  rewrite andb_true_iff, IH by lia. split.
  - intros [H1 H2]. by constructor.
  - intros H. by inversion H; subst.
Qed.

(** X2.  checkValidParent never indexes outside the child's History, and it
    answers true exactly when both Histories are empty, or the child's
    History is one entry longer than the parent's and each parent entry is
    matched by the child entry at its index: the same comment and empty-layer
    flag, and Created nil in both or holding the same instant in both. *)
Theorem checkValidParent_characterised (img parent : Image) :
  ∃ valid : bool,
    checkValidParent img parent = Some valid ∧
    (valid = true ↔
     (imgHistory img = [] ∧ imgHistory parent = []) ∨
     (∃ prefix last,
        imgHistory img = prefix ++ [last] ∧
        Forall2 (λ hP hC, historyMatches hP hC = true) (imgHistory parent) prefix)).
Proof.
  unfold checkValidParent.
  destruct (bool_decide (length (imgHistory img) = 0)
            && bool_decide (length (imgHistory parent) = 0)) eqn:Hempty.
  { exists true. split; [done|]. split; [|done]. intros _. left.
    apply andb_true_iff in Hempty as [H1 H2]. apply bool_decide_eq_true in H1, H2.
    by destruct (imgHistory img), (imgHistory parent). }
  assert (Hnot : ¬ (imgHistory img = [] ∧ imgHistory parent = [])).
  { intros [H1 H2]. rewrite H1, H2 in Hempty. discriminate. }
  destruct (negb (bool_decide _)) eqn:Hdiff.
  - exists false. split; [done|]. split; [done|].
    apply negb_true_iff, bool_decide_eq_false in Hdiff.
    intros [Hboth|(prefix & last & Himg & HF)]; [done|]. exfalso. apply Hdiff.
    apply Forall2_length in HF. rewrite Himg, length_app. simpl. lia.
  - apply negb_false_iff, bool_decide_eq_true in Hdiff.
    rewrite checkHistoryPrefix_matches by lia. rewrite drop_0.
    eexists. split; [reflexivity|]. rewrite historiesMatch_Forall2 by lia. split.
    + intros HF. right.
      exists (take (length (imgHistory parent)) (imgHistory img)).
      destruct (drop (length (imgHistory parent)) (imgHistory img)) as [|last [|x rest]] eqn:Hd.
      * apply (f_equal length) in Hd. rewrite length_drop in Hd. simpl in Hd. lia.
      * exists last. split; [|done]. by rewrite <- Hd, take_drop.
      * apply (f_equal length) in Hd. rewrite length_drop in Hd. simpl in Hd. lia.
    + intros [Hboth|(prefix & last & Himg & HF)]; [done|].
      pose proof (Forall2_length _ _ _ HF) as Hl.
      rewrite Himg, Hl, take_app_length. exact HF.
Qed.

(** ** Load as a whole: staging, the body, the deferred calls *)

Section Cleanup.
Context `{C : Collab}.

Lemma stageArchive_outcome (w w1 : World) (r : Res (string * OpenResult)) :
  stageArchive w = (r, w1) →
  w_out w1 = w_out w ∧ w_is w1 = w_is w ∧ w_lss w1 = w_lss w ∧ w_rs w1 = w_rs w ∧
  match MkdirTemp with
  | inl e => r = inl e ∧ w_trace w1 = w_trace w ++ [EvMkdirTemp] ∧
             w_deferred w1 = w_deferred w
  | inr tmpDir =>
      ∃ t, w_trace w1 = w_trace w ++ EvMkdirTemp :: t ∧ forallb isBodyCall t = true ∧
           List.filter isRelease t = [] ∧
           w_deferred w1 = DeferRemoveAll tmpDir :: w_deferred w ∧
           ∀ o, r = inr o → o.1 = tmpDir
  end.
Proof.
  unfold stageArchive, bind, emit, lift, defer, safePath, ret, fail. simpl.
  destruct MkdirTemp as [e|d]; simpl.
  { intros [= <- <-]. simpl. done. }
  destruct (Untar d) as [e|]; simpl.
  { intros [= <- <-]. simpl. repeat split; try done. exists [EvUntar d].
    rewrite <- app_assoc. repeat split; try done. }
  destruct (FollowSymlinkInScope _ _) as [e|mp]; simpl.
  { intros [= <- <-]. simpl. repeat split; try done. exists [EvUntar d].
    rewrite <- app_assoc. repeat split; try done. }
  intros [= <- <-]. simpl. repeat split; try done. exists [EvUntar d; EvOpen mp].
  rewrite <- !app_assoc. repeat split; try done. by intros o [= <-].
Qed.

Lemma release_fmap_inj (ls ls' : list Layer) :
  DeferRelease <$> ls = DeferRelease <$> ls' → ls = ls'.
Proof.
  revert ls'. induction ls as [|l ls IH]; intros [|l' ls']; simpl; try done.
  intros [= -> H]. f_equal. by apply IH.
Qed.

(** X3.  When MkdirTemp fails, Load returns its error and calls nothing
    else.  Otherwise the last call of Load is RemoveAll of the scratch
    directory, whatever way Load returns, and no other RemoveAll is made;
    right before it come the deferred releases.  With a manifest, no layer
    is released before that point, and when Load returns nil the releases
    are, newest first, one for each diff id of the configs of the loaded
    entries.  When the manifest is not opened (a legacy archive, or a
    failure up to there), no release is deferred. *)
Theorem Load_removes_scratch_directory_last
    (fuel : nat) (quiet : bool) (w w' : World) (r : option Error) :
  Load fuel quiet w = Some (r, w') →
  w_deferred w = [] →
  match MkdirTemp with
  | inl e => r = Some e ∧ w_trace w' = w_trace w ++ [EvMkdirTemp]
  | inr tmpDir =>
      ∃ t ls,
        w_trace w' = w_trace w ++ EvMkdirTemp :: t
                     ++ ((λ l, EvRelease (layer_DiffID l)) <$> ls) ++ [EvRemoveAll tmpDir] ∧
        forallb isBodyCall t = true ∧
        (∀ content w1, stageArchive w = (inr (tmpDir, Opened content), w1) →
           List.filter isRelease t = [] ∧
           ∀ manifest, decodeManifest content = inr (Some manifest) → r = None →
             layer_DiffID <$> reverse ls
             = flat_map (entryDiffIDs tmpDir) (List.filter (passesFilter tmpDir) manifest)) ∧
        ((∀ content w1, stageArchive w ≠ (inr (tmpDir, Opened content), w1)) → ls = [])
  end.
Proof.
  intros HL Hdef. rewrite Load_unfold in HL. unfold loadBody in HL.
  destruct (stageArchive w) as [rs w1] eqn:Hs.
  pose proof (stageArchive_outcome _ _ _ Hs) as (_ & _ & _ & _ & Hso).
  assert (Hbody : ∀ w2 tmpDir t1 t ls,
    w_trace w1 = w_trace w ++ EvMkdirTemp :: t1 →
    w_deferred w1 = [DeferRemoveAll tmpDir] →
    w_trace w2 = w_trace w1 ++ t →
    w_deferred w2 = (DeferRelease <$> ls) ++ w_deferred w1 →
    w_trace (afterDeferred w2)
    = w_trace w ++ EvMkdirTemp :: (t1 ++ t)
      ++ ((λ l, EvRelease (layer_DiffID l)) <$> ls) ++ [EvRemoveAll tmpDir]).
  { intros w2 tmpDir t1 t ls Ht1 Hd1 Ht Hd.
    destruct (afterDeferred_spec w2) as (Htr & _). rewrite Htr, Hd, Hd1, Ht, Ht1.
    rewrite fmap_app, <- list_fmap_compose. simpl. rewrite <- !app_assoc. reflexivity. }
  destruct MkdirTemp as [e|tmpDir] eqn:Hmk.
  - destruct Hso as (-> & Ht & Hd). injection HL as <- <-. split; [done|].
    destruct (afterDeferred_spec w1) as (Htr & _). by rewrite Htr, Hd, Hdef, app_nil_r.
  - destruct Hso as (t1 & Ht1 & Hp1 & Hr1 & Hd1 & Htmp). rewrite Hdef in Hd1.
    assert (Hstop : ∀ e, rs = inl e ∨ (∃ tmpDir', rs = inr (tmpDir', OpenFailed e)) →
              Some (Some e, afterDeferred w1) = Some (r, w') →
              ∃ t ls,
                w_trace w' = w_trace w ++ EvMkdirTemp :: t
                  ++ ((λ l, EvRelease (layer_DiffID l)) <$> ls) ++ [EvRemoveAll tmpDir] ∧
                forallb isBodyCall t = true ∧
                (∀ content w0, (rs, w1) = (inr (tmpDir, Opened content), w0) →
                   List.filter isRelease t = [] ∧
                   ∀ manifest, decodeManifest content = inr (Some manifest) → r = None →
                     layer_DiffID <$> reverse ls
                     = flat_map (entryDiffIDs tmpDir)
                         (List.filter (passesFilter tmpDir) manifest)) ∧
                ((∀ content w0, (rs, w1) ≠ (inr (tmpDir, Opened content), w0)) → ls = [])).
    { intros e Hrs [= <- <-]. exists t1, [].
      rewrite (Hbody w1 tmpDir t1 [] [] Ht1 Hd1) by (by rewrite ?app_nil_r).
      rewrite app_nil_r. split; [done|]. split; [done|]. split; [|done].
      intros content w0 [= -> _]. destruct Hrs as [Hrs|[? Hrs]]; discriminate Hrs. }
    destruct rs as [e|[tmpDir' o]]; [by apply (Hstop e); [left|]|].
    specialize (Htmp _ eq_refl). simpl in Htmp. subst tmpDir'.
    destruct o as [content| |e]; [| |by apply (Hstop e); [right; eexists|]].
    + destruct (loadManifest tmpDir (negb quiet) content w1) as [rm w2] eqn:Hm.
      injection HL as <- <-.
      destruct (within_run isManifestCall (λ _, true) true _ _ _ _
                  (within_loadManifest _ _ (negb quiet) (λ _ _ _ _, eq_refl) tmpDir content
                     (λ e H, H) (λ _, eq_refl)) Hm)
        as (t & o & ls & Ht & _ & Hd & Hp & _ & _).
      exists (t1 ++ t), ls. rewrite (Hbody w2 tmpDir t1 t ls Ht1 Hd1 Ht Hd).
      split; [done|]. split.
      { rewrite forallb_app, Hp1. simpl. eapply forallb_impl; [exact Hp|].
        intros e He. unfold isBodyCall. by rewrite He. }
      split; [|intros Hno; by destruct (Hno content w1)].
      intros content' w0 [= <- <-]. split.
      { rewrite List.filter_app, Hr1. simpl. eapply filter_none; [exact Hp|]. by intros []. }
      intros manifest Hdec Hnil. destruct rm as [e|[]]; [discriminate Hnil|].
      destruct (loadManifest_success tmpDir (negb quiet) content manifest w1 w2 Hdec Hm)
        as (loaded & t' & o' & ls' & Hkept & _ & _ & Hd' & _ & _ & _ & _ & _ & _ & _ & _
            & Hdiffs & _).
      rewrite Hd' in Hd. apply app_inv_tail, release_fmap_inj in Hd as <-.
      rewrite Hdiffs, <- Hkept. clear. induction loaded as [|im l IH]; [done|].
      simpl. by rewrite IH.
    + destruct (legacyLoad fuel tmpDir (negb quiet) w1) as [[rl w2]|] eqn:Hl;
        [|discriminate HL].
      injection HL as <- <-.
      assert (HPl : ∀ e, isLegacyCall e = true → isBodyCall e = true).
      { intros e He. unfold isBodyCall. rewrite He. by rewrite orb_true_r. }
      destruct (grows_legacyLoad isBodyCall (λ _, true) (negb quiet) HPl
                  (λ _ _, eq_refl) (λ _ _ _ _, eq_refl)
                  fuel tmpDir w1 w2 rl Hl)
        as (t & o & ls & Ht & _ & Hd & Hp & _ & Hn).
      rewrite (Hn eq_refl) in Hd. exists (t1 ++ t), [].
      rewrite (Hbody w2 tmpDir t1 t [] Ht1 Hd1 Ht Hd).
      split; [done|]. split; [by rewrite forallb_app, Hp1, Hp|].
      split; [|done]. intros content w0 Heq. discriminate Heq.
Qed.

(** X4.  A Load that finds no manifest runs legacyLoad and then only the
    deferred RemoveAll.  legacyLoad makes only the calls of the legacy
    loader: it never asks the layer store for a chain and logs no image
    event; it defers nothing, its defer stack at the end being the one at
    the start; and it puts on the stream only supersession notices and
    progress reports (no progress report when quiet), so no line that says
    "Loaded image", with or without "ID". *)
Theorem legacy_Load_footprint
    (fuel : nat) (quiet : bool) (w w1 w' : World) (tmpDir : string) (r : option Error) :
  stageArchive w = (inr (tmpDir, NotExist), w1) →
  w_deferred w = [] →
  Load fuel quiet w = Some (r, w') →
  ∃ rl w2 t o,
    legacyLoad fuel tmpDir (negb quiet) w1 = Some (rl, w2) ∧
    r = match rl with inl e => Some e | inr _ => None end ∧
    w_deferred w2 = w_deferred w1 ∧
    w_trace w2 = w_trace w1 ++ t ∧
    w_trace w' = w_trace w2 ++ [EvRemoveAll tmpDir] ∧
    w_out w' = w_out w ++ o ∧
    forallb isLegacyCall t = true ∧
    forallb (λ e, negb (isLayerGet e) && negb (isLogImageEvent e)) t = true ∧
    forallb (λ msg, isNotice msg || (isProgress msg && negb quiet)) o = true ∧
    forallb (λ msg, negb (saysLoaded msg)) o = true.
Proof.
  intros Hs Hdef HL. rewrite Load_unfold in HL. unfold loadBody in HL. rewrite Hs in HL.
  destruct (legacyLoad fuel tmpDir (negb quiet) w1) as [[rl w2]|] eqn:Hl; [|discriminate HL].
  injection HL as <- <-.
  destruct (stageArchive_inv _ _ _ _ Hs) as (mp & _ & _ & Hw1).
  assert (Hd1 : w_deferred w1 = [DeferRemoveAll tmpDir]) by (subst w1; simpl; by rewrite Hdef).
  assert (Ho1 : w_out w1 = w_out w) by (by subst w1).
  assert (HQn : ∀ ref prevID,
            isNotice (Line (supersededNotice ref prevID))
            || (isProgress (Line (supersededNotice ref prevID)) && negb quiet) = true).
  { intros ref prevID. by rewrite isNotice_supersededNotice. }
  assert (HQp : negb quiet = true → ∀ id size c,
            isNotice (Progress (TruncateID id) "Loading layer" c size)
            || (isProgress (Progress (TruncateID id) "Loading layer" c size) && negb quiet)
            = true).
  { intros Hq id size c. simpl. exact Hq. }
  destruct (grows_legacyLoad isLegacyCall (λ msg, isNotice msg || (isProgress msg && negb quiet))
              (negb quiet) (λ e H, H) HQn HQp fuel tmpDir w1 w2 rl Hl)
    as (t & o & ls & Ht & Ho & Hd & Hp & Hq & Hn).
  rewrite (Hn eq_refl) in Hd. simpl in Hd.
  exists rl, w2, t, o.
  destruct (afterDeferred_spec w2) as (Htr & Hout & _).
  split; [done|]. split; [done|]. split; [done|]. split; [done|].
  split; [by rewrite Htr, Hd, Hd1|]. split; [by rewrite Hout, Ho, Ho1|].
  split; [done|]. split.
  { eapply forallb_impl; [exact Hp|]. by intros []. }
  split; [done|].
  eapply forallb_impl; [exact Hq|]. intros msg Hm.
  apply orb_true_iff in Hm as [Hm|Hm]; [by rewrite notice_not_loaded|].
  by destruct msg.
Qed.

End Cleanup.

(** ** The layer loop and the tag loop, when they succeed *)

Section Loops.
Context `{C : Collab}.

(** X5.  When the loop over the diff ids of an entry succeeds, it has asked
    the layer store once per diff id, for the chain ids of the successive
    extensions of the running rootFS and in that order, and it has deferred
    one release per diff id: the layers to release carry exactly the
    config's diff ids, the newest on top of the defer stack. *)
Theorem resolveLayers_success (tmpDir : string) (m : manifestItem) (progress : bool)
    (todo : list DiffID) :
  ∀ (i : nat) (rootFS r' : RootFS) (w w' : World),
  resolveLayers tmpDir m progress i todo rootFS w = (inr r', w') →
  ∃ ls t,
    layer_DiffID <$> ls = todo ∧
    w_deferred w' = (DeferRelease <$> reverse ls) ++ w_deferred w ∧
    w_trace w' = w_trace w ++ t ∧
    List.filter isLayerGet t
    = (λ r, EvLayerGet (RootFS_ChainID r)) <$> extensions rootFS todo ∧
    forallb (λ e, isLayerIO e || isLayerGet e) t = true.
Proof.
  intros i rootFS r' w w' H.
  destruct (resolveLayers_layers tmpDir m progress todo i rootFS r' w w' H)
    as (ls & t & o & Hls & Hd & Ht & Hf & Hp & _).
  exists ls, t. by repeat split.
Qed.

End Loops.

Section TagsAndParents.
Context `{C : Collab}.

(** X6.  The loop over the repo tags of an entry fails only on a tag that
    does not parse or parses to a name without tag, with the parser's error
    or InvalidTag; an error of the reference store never stops it.  When it
    succeeds it has counted every tag and has called AddTag once per tag, in
    order, for this image and with force set. *)
Theorem tagLoop_outcome (imgID : ID) (tags : list string) (n : nat) (w : World) :
  ∃ t, w_trace (tagLoop imgID tags n w).2 = w_trace w ++ t ∧
  match (tagLoop imgID tags n w).1 with
  | inr count =>
      count = n + length tags ∧
      ∃ refs,
        Forall2 (λ tag ref, ParseNormalizedNamed tag = inr ref ∧ is_Some (refTag ref))
                tags refs ∧
        List.filter isAddTag t = (λ ref, EvAddTag ref imgID true) <$> refs
  | inl e =>
      ∃ tag, tag ∈ tags ∧
        (ParseNormalizedNamed tag = inl e ∨
         ∃ ref, ParseNormalizedNamed tag = inr ref ∧ refTag ref = None ∧ e = InvalidTag tag)
  end.
Proof.
  destruct (tagLoop_result imgID tags n w) as (t & o & Ht & _ & _ & _ & _ & _ & Hres).
  exists t. split; [exact Ht|].
  destruct (tagLoop imgID tags n w).1 as [e|count]; [exact Hres|].
  destruct Hres as (Hcount & _ & Hrefs). by split.
Qed.



End TagsAndParents.

(** ** The loop over the manifest, when it succeeds *)

Section Bookkeeping.
Context `{C : Collab}.


End Bookkeeping.

Section IDLines.
Context `{C : Collab}.

(** X9.  What a Load of a manifest archive that returns nil has put on the
    stream.  With the loaded entries being those the platform filter does
    not skip, and their ids the ids of the image events logged: first the
    output of the entries ("Loaded image:" lines, supersession notices,
    progress reports, the last only when not quiet), and after it the
    "Loaded image ID: <id>" lines of all loaded entries in one write,
    exactly when the last loaded entry has no repo tag (or no entry was
    loaded, the write then being empty). *)
Theorem Load_writes_ID_lines_by_last_loaded_entry
    (fuel : nat) (quiet : bool) (w w1 w' : World) (tmpDir : string) (content : Bytes)
    (manifest : list manifestItem) :
  stageArchive w = (inr (tmpDir, Opened content), w1) →
  decodeManifest content = inr (Some manifest) →
  Load fuel quiet w = Some (None, w') →
  ∃ (loaded : list (ID * manifestItem)) t o,
    loaded.*2 = List.filter (passesFilter tmpDir) manifest ∧
    w_trace w' = w_trace w ++ t ∧
    List.filter isLogImageEvent t = EvLogImageEvent <$> loaded.*1 ∧
    forallb isEntryOutput o = true ∧
    (quiet = true → List.filter isProgress o = []) ∧
    let idLinesWrite :=
      [Line (fold_right (λ i acc, ("Loaded image ID: " +:+ i +:+ nl) +:+ acc) "" loaded.*1)] in
    w_out w' = w_out w ++ o ++
               match last loaded with
               | Some im => match RepoTags im.2 with
                            | [] => idLinesWrite
                            | _ :: _ => []
                            end
               | None => idLinesWrite
               end.
Proof.
  intros Hs Hd HL. rewrite Load_unfold in HL. unfold loadBody in HL. rewrite Hs in HL.
  destruct (loadManifest tmpDir (negb quiet) content w1) as [r w2] eqn:Hm.
  destruct r as [e|[]]; [discriminate HL|]. injection HL as <-.
  destruct (stageArchive_inv _ _ _ _ Hs) as (mp & _ & _ & Hw1).
  assert (Ht1 : w_trace w1 = w_trace w ++ [EvMkdirTemp; EvUntar tmpDir; EvOpen mp])
    by (by subst w1).
  assert (Ho1 : w_out w1 = w_out w) by (by subst w1).
  destruct (loadManifest_success tmpDir (negb quiet) content manifest w1 w2 Hd Hm)
    as (loaded & t & o & ls & Hkept & Ht & Ho & _ & _ & Hq & Hr & _ & Hlog & _).
  destruct (afterDeferred_spec w2) as (Hta & Hoa & _).
  exists loaded, ([EvMkdirTemp; EvUntar tmpDir; EvOpen mp] ++ t
                  ++ (deferredCall <$> w_deferred w2)), o.
  split; [done|].
  split; [by rewrite Hta, Ht, Ht1, <- !app_assoc|].
  split.
  { rewrite !List.filter_app, deferred_calls_filter, app_nil_r by (by intros []). done. }
  split; [done|]. split.
  { intros ->. eapply filter_none; [exact Hr|]. intros msg Hmsg. simpl in Hmsg.
    by apply negb_true_iff. }
  cbv zeta. rewrite Hoa, Ho, Ho1. reflexivity.
Qed.

End IDLines.

(** ** Errors in the middle of a Load *)

Section Abort.
Context `{C : Collab}.

(** X10.  When the context is done at the poll that opens the turn for a
    manifest entry, Load returns Canceled without reading the entry's
    config: after the poll only the deferred calls are made.  Nothing is
    rolled back: the image store, the reference store and the output are as
    the earlier entries left them. *)
Theorem Load_cancelled_between_entries
    (fuel : nat) (quiet : bool) (w0 : World) (tmpDir : string)
    (before : list manifestItem) (m : manifestItem) (after : list manifestItem)
    (v : LoopVars) (w : World) :
  reachesEntry quiet w0 tmpDir before m after v w →
  ctxDone (w_polls w) = true →
  ∃ w', Load fuel quiet w0 = Some (Some Canceled, w') ∧
        w_trace w' = w_trace w ++ (deferredCall <$> w_deferred w) ∧
        w_is w' = w_is w ∧ w_rs w' = w_rs w ∧ w_out w' = w_out w.
Proof.
  intros Hreach Hctx.
  assert (Hrun : loadEntry tmpDir (negb quiet) m v w
                 = (inl Canceled, set_polls (S (w_polls w)) w)).
  { unfold loadEntry, bind, pollCtx. by rewrite Hctx. }
  eexists. split; [eapply Load_entry_error; [exact Hreach|exact Hrun]|].
  destruct (afterDeferred_spec (set_polls (S (w_polls w)) w)) as (Ht & Ho & Hi & Hr).
  by rewrite Ht, Ho, Hi, Hr.
Qed.

(** X11.  When safePath fails on the config path of a manifest entry
    (FollowSymlinkInScope returns an error), Load returns that error and the
    config is never read: after the poll only the deferred calls are made,
    and the stores are as the earlier entries left them. *)
Theorem Load_stops_when_config_path_check_fails
    (fuel : nat) (quiet : bool) (w0 : World) (tmpDir : string)
    (before : list manifestItem) (m : manifestItem) (after : list manifestItem)
    (v : LoopVars) (w : World) (e : Error) :
  reachesEntry quiet w0 tmpDir before m after v w →
  ctxDone (w_polls w) = false →
  FollowSymlinkInScope (filepath_Join tmpDir (Config m)) tmpDir = inl e →
  ∃ w', Load fuel quiet w0 = Some (Some e, w') ∧
        w_trace w' = w_trace w ++ (deferredCall <$> w_deferred w) ∧
        w_is w' = w_is w ∧ w_rs w' = w_rs w ∧ w_out w' = w_out w.
Proof.
  intros Hreach Hctx Hpath.
  assert (Hrun : loadEntry tmpDir (negb quiet) m v w
                 = (inl e, set_polls (S (w_polls w)) w)).
  { unfold loadEntry, bind, pollCtx, safePath, lift. rewrite Hctx. simpl. by rewrite Hpath. }
  eexists. split; [eapply Load_entry_error; [exact Hreach|exact Hrun]|].
  destruct (afterDeferred_spec (set_polls (S (w_polls w)) w)) as (Ht & Ho & Hi & Hr).
  by rewrite Ht, Ho, Hi, Hr.
Qed.

End Abort.

(** ** The legacy loader: directories and tags *)

Section LegacyLoops.
Context `{C : Collab}.

(** X12.  legacyLoad treats only the directories of the scratch directory
    as images: the entries that are not directories change nothing, whatever
    their names. *)
Theorem legacyLoadDirs_only_directories (fuel : nat) (dirs : list DirEntry) (tmpDir : string)
    (progress : bool) :
  ∀ (lm : gmap string ID) (w : World),
  legacyLoadDirs fuel dirs tmpDir progress lm w
  = legacyLoadDirs fuel (List.filter IsDir dirs) tmpDir progress lm w.
Proof.
  induction dirs as [|d rest IH]; intros lm w; simpl; [reflexivity|].
  destruct (IsDir d) eqn:Hd; simpl; [|apply IH]. rewrite Hd.
  destruct (legacyLoadImage fuel (deName d) tmpDir progress lm w) as [[[[e|] lm1] w1]|];
    try reflexivity.
  apply IH.
Qed.

(** X13.  The loop over the tags of one repository of the legacy
    repositories file: a legacy id that is not in the load map ends it with
    InvalidTargetID before the name is parsed; otherwise only the parser and
    WithTag can fail, an error of the reference store does not.  When it
    succeeds it has called AddTag once per tag, in order, with force set and
    with the image id the load map holds for the legacy id. *)
Theorem legacyTagLoop_outcome (lm : gmap string ID) (name : string)
    (tagMap : list (string * string)) :
  ∀ w : World,
  ∃ t, w_trace (legacyTagLoop lm name tagMap w).2 = w_trace w ++ t ∧
  match (legacyTagLoop lm name tagMap w).1 with
  | inr _ =>
      ∃ targets : list (Named * ID),
        Forall2 (λ (entry : string * string) (target : Named * ID),
                   lm !! entry.2 = Some target.2 ∧
                   ∃ named, ParseNormalizedNamed name = inr named ∧
                            WithTag named entry.1 = inr target.1)
                tagMap targets ∧
        List.filter isAddTag t = (λ target, EvAddTag target.1 target.2 true) <$> targets
  | inl e =>
      ∃ entry, entry ∈ tagMap ∧
        ((lm !! entry.2 = None ∧ e = InvalidTargetID entry.2) ∨
         (is_Some (lm !! entry.2) ∧
          (ParseNormalizedNamed name = inl e ∨
           ∃ named, ParseNormalizedNamed name = inr named ∧ WithTag named entry.1 = inl e)))
  end.
Proof.
  induction tagMap as [|[tag oldID] rest IH]; intros w; simpl.
  { exists []. rewrite app_nil_r. split; [done|]. exists []. by split. }
  unfold bind, lift, ret, fail. simpl.
  destruct (lm !! oldID) as [imgID|] eqn:Hlm; simpl.
  2: { exists []. rewrite app_nil_r. split; [done|]. exists (tag, oldID).
       split; [apply list_elem_of_here|]. by left. }
  destruct (ParseNormalizedNamed name) as [e|named] eqn:Hparse; simpl.
  { exists []. rewrite app_nil_r. split; [done|]. exists (tag, oldID).
    split; [apply list_elem_of_here|]. right. simpl. rewrite Hlm. split; [by eexists|by left]. }
  destruct (WithTag named tag) as [e|ref] eqn:Hwith; simpl.
  { exists []. rewrite app_nil_r. split; [done|]. exists (tag, oldID).
    split; [apply list_elem_of_here|]. right. simpl. rewrite Hlm. split; [by eexists|].
    right. by exists named. }
  assert (Ht : w_trace (setLoadedTag ref imgID w).2
               = w_trace w ++ [EvRefGet ref; EvAddTag ref imgID true] ∧
               ∃ r0, (setLoadedTag ref imgID w).1 = inr r0).
  { rewrite setLoadedTag_run. simpl. split; [done|]. by eexists. }
  destruct Ht as (Ht & r0 & Hr0).
  destruct (setLoadedTag ref imgID w) as [r1 w1]. simpl in *. subst r1.
  destruct (IH w1) as (t2 & Ht2 & Hres).
  exists ([EvRefGet ref; EvAddTag ref imgID true] ++ t2).
  split; [by rewrite Ht2, Ht, <- app_assoc|].
  destruct (legacyTagLoop lm name rest w1).1 as [e|[]].
  - destruct Hres as (entry & Hin & Hwhy). exists entry.
    split; [by apply list_elem_of_further|done].
  - destruct Hres as (targets & HF & Hf). exists ((ref, imgID) :: targets). split.
    + constructor; [|done]. simpl. split; [done|]. by exists named.
    + simpl. by rewrite Hf.
Qed.

End LegacyLoops.

Section LoadMap.
Context `{C : Collab}.

Lemma legacyReadConfig_parent (oldID sourceDir : string) (w w1 : World)
    (imageJSON : Bytes) (img : legacyImg) :
  legacyReadConfig oldID sourceDir w = (inr (imageJSON, img), w1) →
  legacyParentOf sourceDir oldID
  = if bool_decide (legacyParent img ≠ "") then Some (legacyParent img) else None.
Proof.
  intros H. unfold legacyParentOf. rewrite <- (legacyReadConfig_result oldID sourceDir w), H.
  reflexivity.
Qed.

Lemma legacy_load_map_grows (sourceDir : string) (progress : bool) :
  ∀ fuel oldID (lm : gmap string ID) w,
    (∀ r lm' w', legacyLoadImage fuel oldID sourceDir progress lm w = Some (r, lm', w') →
       lm ⊆ lm' ∧
       ∀ k, lm !! k = None → is_Some (lm' !! k) → ancestorOutside sourceDir lm oldID k) ∧
    (∀ r lm' w', legacyParentLoop fuel oldID sourceDir progress lm w = Some (r, lm', w') →
       lm ⊆ lm' ∧
       ∀ k, lm !! k = None → is_Some (lm' !! k) → ancestorOutside sourceDir lm oldID k).
Proof.
  assert (Hsame : ∀ (lm : gmap string ID) x,
            lm ⊆ lm ∧ ∀ k, lm !! k = None → is_Some (lm !! k) → ancestorOutside sourceDir lm x k).
  { intros lm x. split; [done|]. intros k Hk [i Hi]. congruence. }
  induction fuel as [|f IH]; intros oldID lm w; [by split|]. split.
  - intros r lm' w' Hcall. pose proof Hcall as Hcall0. simpl in Hcall.
    destruct (lm !! oldID) as [i|] eqn:Hold.
    { injection Hcall as <- <- <-. apply Hsame. }
    destruct (legacyReadConfig oldID sourceDir w) as [[e|[imageJSON img]] w1] eqn:Hread.
    { injection Hcall as <- <- <-. apply Hsame. }
    apply legacyReadConfig_parent in Hread.
    assert (Hfin : ∀ parent_ID (lm2 : gmap string ID) w2,
      lm ⊆ lm2 →
      (∀ k, lm !! k = None → is_Some (lm2 !! k) → ancestorOutside sourceDir lm oldID k) →
      lm2 !! oldID = None →
      (match legacyCreate oldID sourceDir imageJSON parent_ID progress w2 with
       | (inl e, w3) => (Some e, lm2, w3)
       | (inr imgID, w3) => (None, <[oldID := imgID]> lm2, w3)
       end) = (r, lm', w') →
      lm ⊆ lm' ∧
      ∀ k, lm !! k = None → is_Some (lm' !! k) → ancestorOutside sourceDir lm oldID k).
    { intros parent_ID lm2 w2 Hsub Hadd Hfresh.
      destruct (legacyCreate _ _ _ _ _ w2) as [[e|imgID] w3]; intros [= <- <- <-]; [done|].
      split.
      - etransitivity; [exact Hsub|]. by apply insert_subseteq.
      - intros k Hk Hin. destruct (decide (k = oldID)) as [->|Hne].
        + by apply ancestor_here.
        + rewrite lookup_insert_ne in Hin by done. by apply Hadd. }
    destruct (bool_decide (legacyParent img ≠ "")).
    + destruct (legacyParentLoop f _ _ _ _ w1) as [[[[e|pid] lm2] w2]|] eqn:Hloop;
        [| |discriminate].
      * injection Hcall as <- <- <-.
        destruct (proj2 (IH _ _ _) _ _ _ Hloop) as [Hsub Hadd]. split; [done|].
        intros k Hk Hin. eapply ancestor_step; [done|exact Hread|by apply Hadd].
      * injection Hcall as Hcall.
        destruct (proj2 (IH _ _ _) _ _ _ Hloop) as [Hsub Hadd].
        assert (Hadd' : ∀ k, lm !! k = None → is_Some (lm2 !! k) →
                             ancestorOutside sourceDir lm oldID k).
        { intros k Hk Hin. eapply ancestor_step; [done|exact Hread|by apply Hadd]. }
        destruct (lm2 !! oldID) as [j|] eqn:Hfresh; [|by eapply Hfin].
        (* the parent loop cannot have loaded oldID: that would be a cycle *)
        exfalso.
        assert (Hcyc : ancestorOutside sourceDir lm (legacyParent img) oldID).
        { apply Hadd; [done|]. rewrite Hfresh. by eexists. }
        destruct (legacy_cycle_never_returns sourceDir progress
                    (λ x, ancestorOutside sourceDir lm x oldID)) with
            (fuel := S f) (id := oldID) (lm := lm) (w := w) as [Hnone _].
        -- intros x Hx. inversion Hx as [? Hl|? p ? Hl Hp Hrest]; subst.
           ++ exists (legacyParent img). by split.
           ++ exists p. by split.
        -- by apply ancestor_here.
        -- intros x Hx. by inversion Hx.
        -- rewrite Hnone in Hcall0. discriminate.
    + injection Hcall as Hcall. eapply Hfin; [done| |exact Hold|exact Hcall].
      intros k Hk [i Hi]. congruence.
  - intros r lm' w' Hcall. simpl in Hcall.
    destruct (lm !! oldID) as [i|] eqn:Hold.
    { injection Hcall as <- <- <-. apply Hsame. }
    destruct (legacyLoadImage f oldID sourceDir progress lm w) as [[[[e|] lm1] w1]|] eqn:Hrec;
      [| |discriminate].
    + injection Hcall as <- <- <-. exact (proj1 (IH _ _ _) _ _ _ Hrec).
    + destruct (proj1 (IH _ _ _) _ _ _ Hrec) as [Hsub Hadd].
      apply legacyLoadImage_loaded in Hrec as [j Hj].
      destruct f as [|f']; [discriminate|]. simpl in Hcall. rewrite Hj in Hcall.
      injection Hcall as <- <- <-. done.
Qed.

(** X14.  Whenever legacyLoadImage returns, the load map it leaves extends
    the one it was given: no legacy id that was loaded before gets another
    image id.  Every id it has added is the id asked for or one of its
    ancestors along the parent references, and when it returns nil the id
    asked for is in the map. *)
Theorem legacyLoadImage_extends_load_map
    (fuel : nat) (oldID sourceDir : string) (progress : bool)
    (lm lm' : gmap string ID) (w w' : World) (r : option Error) :
  legacyLoadImage fuel oldID sourceDir progress lm w = Some (r, lm', w') →
  lm ⊆ lm' ∧
  (∀ k, lm !! k = None → is_Some (lm' !! k) → ancestorOutside sourceDir lm oldID k) ∧
  (r = None → is_Some (lm' !! oldID)).
Proof.
  intros H. destruct (proj1 (legacy_load_map_grows sourceDir progress fuel oldID lm w) _ _ _ H)
    as [Hsub Hadd].
  split; [done|]. split; [done|]. intros ->. by eapply legacyLoadImage_loaded.
Qed.

End LoadMap.

(** ** loadLayer, and a Load of a manifest archive as a whole *)

Section LayerCalls.
Context `{C : Collab}.




(** X16.  A Load that finds a manifest makes, between staging and the
    deferred calls, only the calls of the manifest path: it never scans a
    directory, and it releases no layer before it returns, so every layer it
    has obtained stays referenced until the images of all entries are
    built. *)
Theorem manifest_Load_footprint
    (fuel : nat) (quiet : bool) (w w1 w' : World) (tmpDir : string) (content : Bytes)
    (r : option Error) :
  stageArchive w = (inr (tmpDir, Opened content), w1) →
  w_deferred w = [] →
  Load fuel quiet w = Some (r, w') →
  ∃ t ls,
    w_trace w' = w_trace w1 ++ t ++ ((λ l, EvRelease (layer_DiffID l)) <$> ls)
                 ++ [EvRemoveAll tmpDir] ∧
    forallb isManifestCall t = true ∧
    forallb (λ e, match e with EvReadDir _ | EvRelease _ => false | _ => true end) t = true.
Proof.
  intros Hs Hdef HL. rewrite Load_unfold in HL. unfold loadBody in HL. rewrite Hs in HL.
  destruct (loadManifest tmpDir (negb quiet) content w1) as [rm w2] eqn:Hm.
  injection HL as <- <-.
  destruct (stageArchive_inv _ _ _ _ Hs) as (mp & _ & _ & Hw1).
  assert (Hd1 : w_deferred w1 = [DeferRemoveAll tmpDir]) by (subst w1; simpl; by rewrite Hdef).
  destruct (within_run isManifestCall (λ _, true) true _ _ _ _
              (within_loadManifest _ _ (negb quiet) (λ _ _ _ _, eq_refl) tmpDir content
                 (λ e H, H) (λ _, eq_refl)) Hm)
    as (t & o & ls & Ht & _ & Hd & Hp & _ & _).
  exists t, ls. destruct (afterDeferred_spec w2) as (Htr & _).
  rewrite Htr, Hd, Hd1, Ht, fmap_app, <- list_fmap_compose, <- !app_assoc.
  split; [reflexivity|]. split; [done|].
  clear -Hp. induction t as [|e t IH]; simpl in *; [done|].
  apply andb_true_iff in Hp as [He Ht]. rewrite (IH Ht), andb_true_r. by destruct e.
Qed.

End LayerCalls.

(** ** Package system *)

(** X17.  The containerd runtime switch is only ever turned on: after any
    sequence of EnableContainerdRuntime calls it reports true exactly when
    it reported true before or one of the paths was not empty. *)
Theorem EnableContainerdRuntime_only_turns_on (paths : list string) (supported : bool) :
  ContainerdRuntimeSupported (fold_left (λ s p, EnableContainerdRuntime p s) paths supported)
  = supported || existsb (λ p, negb (String.eqb p "")) paths.
Proof.
  unfold ContainerdRuntimeSupported. revert supported.
  induction paths as [|p rest IH]; intros supported; simpl; [by rewrite orb_false_r|].
  rewrite IH. unfold EnableContainerdRuntime.
  destruct p as [|c p]; [reflexivity|].
  change (String.length (String c p)) with (S (String.length p)).
  rewrite (bool_decide_eq_true_2 (0 < S (String.length p))) by lia.
  simpl. by rewrite orb_true_r.
Qed.

(** ** The further properties on the sample archives *)

(** X3 on [arTwoTags]: the one layer of the one entry is released, then
    the scratch directory is removed. *)
Lemma Load_removes_scratch_directory_last_witness :
  ∃ t (ls : list MemLayer),
    w_trace twoTagsLoaded
    = EvMkdirTemp :: t ++ ((λ l, EvRelease (mlDiffID l)) <$> ls) ++ [EvRemoveAll "tmp"] ∧
    List.filter isRelease t = [] ∧
    mlDiffID <$> reverse ls = ["d1"].
Proof.
  pose proof (@Load_removes_scratch_directory_last (memCollab arTwoTags) 0 true
                (memWorld arTwoTags [] [] []) twoTagsLoaded None) as H.
  change (@MkdirTemp (memCollab arTwoTags)) with (inr "tmp" : Res string) in H.
  cbv beta iota in H.
  destruct H as (t & ls & Ht & _ & Hman & _).
  - vm_compute; reflexivity.
  - reflexivity.
  - destruct (Hman "M" (@stageArchive (memCollab arTwoTags) (memWorld arTwoTags [] [] [])).2)
      as (Hrel & Hdiffs).
    { vm_compute; reflexivity. }
    exists t, ls. split; [exact Ht|]. split; [exact Hrel|].
    etransitivity;
      [apply (Hdiffs [mkItem "a.json" ["foo:1"; "foo:2"] ["l1.tar"] ""]);
         [vm_compute; reflexivity|reflexivity]
      |vm_compute; reflexivity].
Defined.

(** X4 on [arLegacyChain]. *)
Lemma legacy_Load_footprint_witness :
  ∃ r w', @Load (memCollab arLegacyChain) 4 true (memWorld arLegacyChain [] [] [])
          = Some (r, w') ∧
          forallb (λ msg, negb (saysLoaded msg)) (w_out w') = true.
Proof.
  eexists _, _. split; [vm_compute; reflexivity|].
  edestruct (@legacy_Load_footprint (memCollab arLegacyChain) 4 true
               (memWorld arLegacyChain [] [] [])
               (@stageArchive (memCollab arLegacyChain)
                  (memWorld arLegacyChain [] [] [])).2)
    as (rl & w2 & t & o & _ & _ & _ & _ & _ & Ho & _ & _ & _ & Hn).
  - vm_compute; reflexivity.
  - reflexivity.
  - vm_compute; reflexivity.
  - rewrite Ho. exact Hn.
Defined.

(** X5 on the one diff id of [arOneEntry]. *)
Lemma resolveLayers_success_witness :
  let a := arOneEntry "linux" ["l1.tar"] None in
  let rootFS := {| rfType := "layers"; DiffIDs := [] |} in
  let run := @resolveLayers (memCollab a) "tmp" (mkItem "a.json" [] ["l1.tar"] "") false 0
               ["d1"] rootFS (memWorld a [] [] []) in
  ∃ ls, @layer_DiffID (memCollab a) <$> ls = ["d1"] ∧
        w_deferred run.2 = @DeferRelease (memCollab a) <$> reverse ls.
Proof.
  intros a rootFS run.
  destruct (@resolveLayers_success (memCollab a) "tmp" (mkItem "a.json" [] ["l1.tar"] "")
              false ["d1"] 0 rootFS (Append rootFS "d1") (memWorld a [] [] []) run.2)
    as (ls & t & Hls & Hd & _).
  - vm_compute; reflexivity.
  - exists ls. split; [exact Hls|]. rewrite Hd. apply app_nil_r.
Defined.


(** X9 on [arTwoTags], whose only entry has repo tags: no ID line. *)
Lemma Load_writes_ID_lines_by_last_loaded_entry_witness :
  ∃ (loaded : list (ID * manifestItem)) o,
    loaded.*2 = [mkItem "a.json" ["foo:1"; "foo:2"] ["l1.tar"] ""] ∧
    forallb isEntryOutput o = true ∧
    w_out twoTagsLoaded = o.
Proof.
  destruct (@Load_writes_ID_lines_by_last_loaded_entry (memCollab arTwoTags) 0 true
              (memWorld arTwoTags [] [] [])
              (@stageArchive (memCollab arTwoTags) (memWorld arTwoTags [] [] [])).2
              twoTagsLoaded "tmp" "M" [mkItem "a.json" ["foo:1"; "foo:2"] ["l1.tar"] ""])
    as (loaded & t & o & Hkept & _ & _ & Ho & _ & Hout).
  - vm_compute; reflexivity.
  - vm_compute; reflexivity.
  - vm_compute; reflexivity.
  - assert (Hitems : List.filter (@passesFilter (memCollab arTwoTags) "tmp")
                       [mkItem "a.json" ["foo:1"; "foo:2"] ["l1.tar"] ""]
                     = [mkItem "a.json" ["foo:1"; "foo:2"] ["l1.tar"] ""])
      by (vm_compute; reflexivity).
    rewrite Hitems in Hkept.
    exists loaded, o. split; [exact Hkept|]. split; [exact Ho|].
    cbv zeta in Hout. rewrite Hout.
    destruct loaded as [|[i m] [|im rest]]; try discriminate Hkept.
    injection Hkept as ->. simpl. apply app_nil_r.
Defined.

(** X10 on [arCancelled]: the first image is created, then Load is
    cancelled. *)
Lemma Load_cancelled_between_entries_witness :
  ∃ w', @Load (memCollab arCancelled) 0 true (memWorld arCancelled [] [] [])
        = Some (Some Canceled, w') ∧
        (w_is w').1 = [("idA", mkImage "idA" "linux" ["d1"] [hBase])].
Proof.
  pose (w1 := (@stageArchive (memCollab arCancelled) (memWorld arCancelled [] [] [])).2).
  pose (run := @loadEntries (memCollab arCancelled) "tmp" false
                 [mkItem "a.json" [] ["l1.tar"] ""] initVars w1).
  destruct (@Load_cancelled_between_entries (memCollab arCancelled) 0 true
              (memWorld arCancelled [] [] []) "tmp"
              [mkItem "a.json" [] ["l1.tar"] ""]
              (mkItem "b.json" [] ["l1.tar"; "l2.tar"] "idA") []
              (match run.1 with inr v => v | inl _ => initVars end) run.2)
    as (w' & HL & _ & His & _).
  - exists "M", w1.
    split; [vm_compute; reflexivity|]. split; [vm_compute; reflexivity|].
    vm_compute; reflexivity.
  - vm_compute; reflexivity.
  - exists w'. split; [exact HL|]. rewrite His. vm_compute; reflexivity.
Defined.

(** X11 on [arBadParent] with a loop of symbolic links at the second
    config. *)
Lemma Load_stops_when_config_path_check_fails_witness :
  let C := memCollabLoops arBadParent ["tmp/b.json"] in
  ∃ w', @Load C 0 true (memWorldLoops arBadParent ["tmp/b.json"])
        = Some (Some (External "too many levels of symbolic links"), w') ∧
        (w_is w').1 = [("idA", mkImage "idA" "linux" ["d1"] [hBase])].
Proof.
  intros C.
  pose (w0 := memWorldLoops arBadParent ["tmp/b.json"]).
  pose (w1 := (@stageArchive C w0).2).
  pose (run := @loadEntries C "tmp" false [mkItem "a.json" [] ["l1.tar"] ""] initVars w1).
  destruct (@Load_stops_when_config_path_check_fails C 0 true w0 "tmp"
              [mkItem "a.json" [] ["l1.tar"] ""]
              (mkItem "b.json" [] ["l1.tar"; "l2.tar"] "idA") []
              (match run.1 with inr v => v | inl _ => initVars end) run.2
              (External "too many levels of symbolic links"))
    as (w' & HL & _ & His & _).
  - exists "M", w1.
    split; [vm_compute; reflexivity|]. split; [vm_compute; reflexivity|].
    vm_compute; reflexivity.
  - vm_compute; reflexivity.
  - vm_compute; reflexivity.
  - exists w'. split; [exact HL|]. rewrite His. vm_compute; reflexivity.
Defined.

(** X14 on [arLegacyChain]: loading [a] enters [a] in the load map. *)
Lemma legacyLoadImage_extends_load_map_witness :
  let w := memWorld arLegacyChain [] [] [] in
  let run := @legacyLoadImage (memCollab arLegacyChain) 3 "a" "tmp" false ∅ w in
  is_Some (match run with Some (_, lm', _) => lm' | None => ∅ end !! "a").
Proof.
  intros w run.
  destruct (@legacyLoadImage_extends_load_map (memCollab arLegacyChain) 3 "a" "tmp" false ∅
              (match run with Some (_, lm', _) => lm' | None => ∅ end) w
              (match run with Some (_, _, w') => w' | None => w end) None)
    as (_ & _ & Hin).
  - vm_compute; reflexivity.
  - exact (Hin eq_refl).
Defined.

(** X16 on [arTwoTags]. *)
Lemma manifest_Load_footprint_witness :
  ∃ t, forallb isManifestCall t = true ∧
       forallb (λ e, match e with EvReadDir _ | EvRelease _ => false | _ => true end) t
       = true ∧
       ∃ rest, w_trace twoTagsLoaded
               = w_trace (@stageArchive (memCollab arTwoTags)
                            (memWorld arTwoTags [] [] [])).2 ++ t ++ rest.
Proof.
  destruct (@manifest_Load_footprint (memCollab arTwoTags) 0 true
              (memWorld arTwoTags [] [] [])
              (@stageArchive (memCollab arTwoTags) (memWorld arTwoTags [] [] [])).2
              twoTagsLoaded "tmp" "M" None)
    as (t & ls & Ht & Hm & Hn).
  - vm_compute; reflexivity.
  - reflexivity.
  - vm_compute; reflexivity.
  - exists t. split; [exact Hm|]. split; [exact Hn|]. eexists. exact Ht.
Defined.
